(** * The KnowS tool adapter of picoclaw ([pkg/tools/knows.go])

    A shallow embedding of the adapter layer: argument validation, the
    detail cache, the HTTP client with its retry loop, construction of the
    tool set and the batch executors, followed by the properties the
    specification states about them.

    Conventions of the embedding.
    - A Go [string] is a byte string ([string] of the Standard Library).
    - [int], [int64] and [time.Duration] (nanoseconds) are [Z]; where the
      source does 64-bit arithmetic that can wrap, the wrap is written out
      with [wrap64].
    - [interface{}] holding decoded JSON is the inductive [value];
      [map[string]interface{}] is a [gmap string value].
    - [error] is the inductive [error]; a function returning [(T, error)]
      returns a [result T].
    - [time.Now()], the network and the scheduler are inputs of the
      functions that consult them. *)

From Stdlib Require Import ZArith Ascii.
From stdpp Require Import gmap strings list fin_maps pretty.

#[local] Set Warnings "-register-all".
#[local] Open Scope Z_scope.

(* ===================================================================== *)
(** * Part I: definitions *)
(* ===================================================================== *)

(** ** Values, errors and results *)

(** The dynamic values that reach the adapter through [interface{}]:
    decoded JSON.  The representation of numbers plays no role in the
    modelled code. *)
Inductive value : Type :=
| VNil
| VBool (b : bool)
| VNum (n : Z)
| VStr (s : string)
| VArr (xs : list value)
| VObj (m : gmap string value).

(** Go's [v != nil] on an [interface{}]. *)
Definition isNil (v : value) : bool :=
  match v with VNil => true | _ => false end.

(** Errors.  [errorString] is what [errors.New] and [fmt.Errorf] without
    [%w] build; [wrapError msg inner] is [fmt.Errorf] with one [%w], whose
    [msg] is the whole formatted text and whose [Unwrap] is [inner] (library
    errors that wrap another error, such as [*url.Error], have the same
    shape); the two sentinels are [context.Canceled] and
    [context.DeadlineExceeded]. *)
Inductive error : Type :=
| errorString (msg : string)
| wrapError (msg : string) (inner : error)
| ctxCanceled
| ctxDeadlineExceeded.

#[global] Instance error_eq_dec : EqDecision error.
Proof. solve_decision. Defined.

(** [err.Error()]. *)
Definition Error (e : error) : string :=
  match e with
  | errorString msg => msg
  | wrapError msg _ => msg
  | ctxCanceled => "context canceled"
  | ctxDeadlineExceeded => "context deadline exceeded"
  end.

(** [fmt.Errorf(prefix + "%w", inner)]. *)
Definition Errorf_w (prefix : string) (inner : error) : error :=
  wrapError (prefix +:+ Error inner) inner.

(** [errors.Is(err, target)]: walk the [Unwrap] chain. *)
Fixpoint errorsIs (err target : error) : bool :=
  bool_decide (err = target) ||
  match err with
  | wrapError _ inner => errorsIs inner target
  | _ => false
  end.

Inductive result (A : Type) : Type :=
| Ok (a : A)
| Err (e : error).
Arguments Ok {A} a.
Arguments Err {A} e.

(** [if err != nil { return nil, err }] after each fallible step. *)
#[global] Instance result_bind : MBind result := λ A B k r,
  match r with
  | Ok a => k a
  | Err e => Err e
  end.


(** ** The part of Go's [strings] package the adapter uses *)

Module strings.

Definition byte (a : ascii) : Z := Z.of_N (N_of_ascii a).

Definition length (s : string) : Z := Z.of_nat (String.length s).

(** [utf8.RuneSelf]: bytes below it are single-byte runes. *)
Definition RuneSelf : Z := 128.

(** The two- and three-byte UTF-8 encodings of the runes for which
    [unicode.IsSpace] holds: U+0085, U+00A0, and U+1680, U+2000..U+200A,
    U+2028, U+2029, U+202F, U+205F, U+3000. *)
Definition isSpace2 (a b : ascii) : bool :=
  (byte a =? 194) && ((byte b =? 133) || (byte b =? 160)).

Definition isSpace3 (a b c : ascii) : bool :=
  ((byte a =? 225) && (byte b =? 154) && (byte c =? 128))
  || ((byte a =? 226) && (byte b =? 128)
      && (((128 <=? byte c) && (byte c <=? 138))
          || (byte c =? 168) || (byte c =? 169) || (byte c =? 175)))
  || ((byte a =? 226) && (byte b =? 129) && (byte c =? 159))
  || ((byte a =? 227) && (byte b =? 128) && (byte c =? 128)).

(** [TrimLeftFunc(s, unicode.IsSpace)]: drop leading white-space runes. *)
Fixpoint trimLeftSpace (s : string) : string :=
  match s with
  | EmptyString => s
  | String a r1 =>
      if Ascii.is_space a then trimLeftSpace r1 else
      match r1 with
      | EmptyString => s
      | String b r2 =>
          if isSpace2 a b then trimLeftSpace r2 else
          match r2 with
          | EmptyString => s
          | String c r3 => if isSpace3 a b c then trimLeftSpace r3 else s
          end
      end
  end.

(** The same scan over the reversed string, where the bytes of a rune
    arrive last byte first. *)
Fixpoint trimLeftSpaceRev (s : string) : string :=
  match s with
  | EmptyString => s
  | String a r1 =>
      if Ascii.is_space a then trimLeftSpaceRev r1 else
      match r1 with
      | EmptyString => s
      | String b r2 =>
          if isSpace2 b a then trimLeftSpaceRev r2 else
          match r2 with
          | EmptyString => s
          | String c r3 => if isSpace3 c b a then trimLeftSpaceRev r3 else s
          end
      end
  end.

(** [strings.TrimSpace]. *)
Definition TrimSpace (s : string) : string :=
  String.rev (trimLeftSpaceRev (String.rev (trimLeftSpace s))).

Fixpoint dropWhileByte (c : ascii) (s : string) : string :=
  match s with
  | EmptyString => s
  | String a r => if bool_decide (a = c) then dropWhileByte c r else s
  end.

(** [strings.TrimRight(s, cutset)] for a cutset of one ASCII byte. *)
Definition TrimRightByte (s : string) (c : ascii) : string :=
  String.rev (dropWhileByte c (String.rev s)).

Fixpoint isASCII (s : string) : bool :=
  match s with
  | EmptyString => true
  | String a r => (byte a <? RuneSelf) && isASCII r
  end.

Definition upperByte (a : ascii) : ascii :=
  if (97 <=? byte a) && (byte a <=? 122)
  then ascii_of_N (Z.to_N (byte a - 32)) else a.

Fixpoint mapBytes (f : ascii → ascii) (s : string) : string :=
  match s with
  | EmptyString => EmptyString
  | String a r => String (f a) (mapBytes f r)
  end.

(** [s[:n]] for [0 <= n <= len(s)]. *)
Fixpoint prefix (n : nat) (s : string) : string :=
  match n, s with
  | S n', String a r => String a (prefix n' r)
  | _, _ => EmptyString
  end.

End strings.

(** Library functions whose tables or grammars are not part of the
    repository are taken as parameters. *)
Class GoLibrary : Type := {
  (** [strings.Map(unicode.ToUpper, s)], which [strings.ToUpper] falls back
      to when [s] has a byte outside ASCII. *)
  unicode_ToUpper : string → string;
  (** [strconv.Quote], the [%q] verb. *)
  strconv_Quote : string → string;
  (** [json.Marshal] of a request payload. *)
  json_Marshal : value → result string;
  (** [json.Unmarshal] of a response body into an [interface{}]. *)
  json_Unmarshal : string → result value;
}.

Section Validation.
Context `{GoLibrary}.

(** [strings.ToUpper]: bytewise on ASCII strings, by the Unicode tables
    otherwise. *)
Definition ToUpper (s : string) : string :=
  if strings.isASCII s then strings.mapBytes strings.upperByte s
  else unicode_ToUpper s.

Definition knowsAllowedDataScopes : gset string :=
  {[ "PAPER"; "PAPER_CN"; "GUIDE"; "MEETING" ]}.

Definition knowsAllowedAnswerTypes : gset string :=
  {[ "CLINICAL"; "RESEARCH"; "POPULAR_SCIENCE" ]}.

Definition knowsAllDataScopes : list string :=
  ["PAPER"; "PAPER_CN"; "GUIDE"; "MEETING"].

Definition getRequiredString (args : gmap string value) (key : string)
  : result string :=
  match args !! key with
  | None => Err (errorString (key +:+ " is required"))
  | Some (VStr str) =>
      if bool_decide (strings.TrimSpace str = EmptyString)
      then Err (errorString (key +:+ " must be a non-empty string"))
      else Ok (strings.TrimSpace str)
  | Some _ => Err (errorString (key +:+ " must be a non-empty string"))
  end.

(** [strconv.ParseBool]. *)
Definition ParseBool (s : string) : option bool :=
  if bool_decide (s ∈ ["1"; "t"; "T"; "TRUE"; "true"; "True"]) then Some true
  else if bool_decide (s ∈ ["0"; "f"; "F"; "FALSE"; "false"; "False"])
  then Some false
  else None.

(** The returned [*bool] is an [option bool]; [nil] is [None]. *)
Definition getOptionalBoolPointer (args : gmap string value) (key : string)
  : result (option bool) :=
  match args !! key with
  | None | Some VNil => Ok None
  | Some (VBool v) => Ok (Some v)
  | Some (VStr v) =>
      match ParseBool (strings.TrimSpace v) with
      | Some parsed => Ok (Some parsed)
      | None => Err (errorString (key +:+ " must be a boolean"))
      end
  | Some _ => Err (errorString (key +:+ " must be a boolean"))
  end.

Definition getRequiredArray (args : gmap string value) (key : string)
  : result (list value) :=
  match args !! key with
  | None => Err (errorString (key +:+ " is required"))
  | Some (VArr arr) => Ok arr
  | Some _ => Err (errorString (key +:+ " must be an array"))
  end.

Definition normalizeDataScope (scope : string) : result string :=
  let normalized := ToUpper (strings.TrimSpace scope) in
  if bool_decide (normalized = EmptyString) then
    Err (errorString "data scope must be non-empty")
  else if bool_decide (normalized ∈ knowsAllowedDataScopes) then
    Ok normalized
  else
    Err (errorString ("unsupported data scope " +:+ strconv_Quote scope
                      +:+ "; allowed: PAPER, PAPER_CN, GUIDE, MEETING")).

Definition normalizeAnswerType (answerType : string) : result string :=
  let normalized := ToUpper (strings.TrimSpace answerType) in
  if bool_decide (normalized = EmptyString) then
    Err (errorString "answer_type must be non-empty")
  else if bool_decide (normalized ∈ knowsAllowedAnswerTypes) then
    Ok normalized
  else
    Err (errorString ("unsupported answer_type " +:+ strconv_Quote answerType
                      +:+ "; allowed: CLINICAL, RESEARCH, POPULAR_SCIENCE")).

(** The loop of [normalizeDataScopes]: [out] and [seen] are the loop's two
    accumulators. *)
Fixpoint normalizeDataScopesLoop (scopes out : list string)
    (seen : gset string) : result (list string) :=
  match scopes with
  | [] => Ok out
  | scope :: rest =>
      normalized ← normalizeDataScope scope;
      if bool_decide (normalized ∈ seen)
      then normalizeDataScopesLoop rest out seen
      else normalizeDataScopesLoop rest (out ++ [normalized])
             ({[normalized]} ∪ seen)
  end.

(** A [nil] slice and an empty one are both []. *)
Definition normalizeDataScopes (scopes : list string) : result (list string) :=
  match scopes with
  | [] => Ok []
  | _ => normalizeDataScopesLoop scopes [] ∅
  end.

End Validation.

(** ** The detail cache *)

(** [expiresAt] is a [time.Time], here nanoseconds on the clock that
    [time.Now()] reads. *)
Record knowsCacheEntry : Type := {
  value_ : value;
  expiresAt : Z;
}.

Record knowsDetailCache : Type := {
  entries : gmap string knowsCacheEntry;
  order : list string;
  ttl : Z;
  maxEntries : Z;
}.

(** The cache [newKnowsDetailCache] returns.  Its [order] slice is made with
    [make([]string, 0, maxEntries)], which panics instead of returning when
    the capacity is negative or larger than the runtime can allocate; the
    record is the cache of a call that returns.  [NewKnowsTools] calls it
    with a capacity that is positive. *)
Definition newKnowsDetailCache (ttl maxEntries : Z) : knowsDetailCache :=
  {| entries := ∅; order := []; ttl := ttl; maxEntries := maxEntries |}.

(** The loop of [deleteLocked]: cut the first occurrence of [key] out of
    [order] and stop. *)
Fixpoint removeFirst (key : string) (order : list string) : list string :=
  match order with
  | [] => []
  | existing :: rest =>
      if bool_decide (existing = key) then rest
      else existing :: removeFirst key rest
  end.

Definition deleteLocked (c : knowsDetailCache) (key : string)
  : knowsDetailCache :=
  {| entries := delete key (entries c);
     order := removeFirst key (order c);
     ttl := ttl c;
     maxEntries := maxEntries c |}.

(** [Get] at the instant [now]; the cache after the call is the third
    component. *)
Definition Get (c : knowsDetailCache) (now : Z) (key : string)
  : value * bool * knowsDetailCache :=
  match entries c !! key with
  | None => (VNil, false, c)
  | Some entry =>
      if expiresAt entry <? now then (VNil, false, deleteLocked c key)
      else (value_ entry, true, c)
  end.

(** The eviction loop of [Set]:
    [for len(c.entries) >= c.maxEntries && len(c.order) > 0]. *)
Fixpoint evictOldest (maxEntries : Z) (entries : gmap string knowsCacheEntry)
    (order : list string) : gmap string knowsCacheEntry * list string :=
  match order with
  | [] => (entries, [])
  | oldest :: rest =>
      if maxEntries <=? Z.of_nat (size entries)
      then evictOldest maxEntries (delete oldest entries) rest
      else (entries, order)
  end.

Definition Set_ (c : knowsDetailCache) (now : Z) (key : string) (v : value)
  : knowsDetailCache :=
  if maxEntries c <=? 0 then c else
  let '(entries', order') :=
    match entries c !! key with
    | Some _ => (entries c, order c)
    | None =>
        let '(es, ord) := evictOldest (maxEntries c) (entries c) (order c) in
        (es, ord ++ [key])
    end in
  {| entries := <[key := {| value_ := v; expiresAt := now + ttl c |}]> entries';
     order := order';
     ttl := ttl c;
     maxEntries := maxEntries c |}.

(** ** The HTTP client *)

Record knowsClient : Type := {
  baseURL : string;
  apiKey : string;
  (** [httpClient.Timeout] *)
  httpTimeout : Z;
  maxRetries : Z;
  retryBackoff : Z;
  cache : knowsDetailCache;
}.

Definition withCache (c : knowsClient) (k : knowsDetailCache) : knowsClient :=
  {| baseURL := baseURL c; apiKey := apiKey c; httpTimeout := httpTimeout c;
     maxRetries := maxRetries c; retryBackoff := retryBackoff c; cache := k |}.

(** Two's-complement wrap-around of [int64] arithmetic. *)
Definition wrap64 (z : Z) : Z := (z + 2 ^ 63) mod 2 ^ 64 - 2 ^ 63.

Definition Millisecond : Z := 1000000.
Definition Second : Z := 1000 * Millisecond.
Definition Hour : Z := 3600 * Second.

(** The duration [waitRetry] arms its timer with:
    [baseDelay * time.Duration(1<<attempt)], both operations in [int64],
    then capped at eight seconds. *)
Definition retryDelay (baseDelay attempt : Z) : Z :=
  let delay := wrap64 (baseDelay * wrap64 (Z.shiftl 1 attempt)) in
  if 8 * Second <? delay then 8 * Second else delay.

(** What the surrounding world contributes to one call of [postJSON]. *)
Inductive roundTrip : Type :=
| doError (err : error)
    (** [httpClient.Do] returned an error *)
| doResponse (StatusCode : Z) (body : result string)
    (** a response arrived; [body] is what [io.ReadAll] returned *).

Record world : Type := {
  (** the error of [http.NewRequestWithContext] for a URL, if any *)
  NewRequest : string → option error;
  (** the outcome of the attempt with the given number, for the URL and the
      encoded payload *)
  Do : Z → string → string → roundTrip;
  (** for the wait after the attempt with the given number: how long after
      the start of the wait [ctx.Done()] is closed (not positive: already
      closed), with [ctx.Err()]; [None] when it stays open *)
  ctxDone : Z → option (Z * error);
  (** which ready case [select] takes when both are ready *)
  selectDone : Z → bool;
}.

(** [waitRetry]: the timer fires after [max delay 0]; the result is
    [ctx.Err()] when [ctx.Done()] is ready first, [nil] when the timer is,
    and what [select] picks, [tie], when both become ready at the same
    instant. *)
Definition waitRetry (done : option (Z * error)) (tie : bool)
    (baseDelay attempt : Z) : option error :=
  let timer := Z.max (retryDelay baseDelay attempt) 0 in
  match done with
  | None => None
  | Some (d, err) =>
      let closed := Z.max d 0 in
      if closed <? timer then Some err
      else if timer <? closed then None
      else if tie then Some err else None
  end.

Definition shouldRetry (c : knowsClient) (attempt statusCode : Z)
    (err : option error) : bool :=
  if maxRetries c <=? attempt then false else
  match err with
  | Some err =>
      if errorsIs err ctxCanceled || errorsIs err ctxDeadlineExceeded
      then false else true
  | None => (500 <=? statusCode) && (statusCode <=? 599)
  end.

Section Client.
Context `{GoLibrary}.

Definition truncateForError (value : string) (max : Z) : string :=
  let value := strings.TrimSpace value in
  if (max <=? 0) || (strings.length value <=? max) then value
  else strings.prefix (Z.to_nat max) value +:+ "...".

(** The tail of a successful exchange in [postJSON]: an empty body, or the
    decoded body with its [data] envelope removed. *)
Definition decodeResponse (path body : string) : result value :=
  if bool_decide (strings.TrimSpace body = EmptyString) then Ok (VObj ∅) else
  match json_Unmarshal body with
  | Err err =>
      Err (Errorf_w ("failed to decode response from " +:+ path +:+ ": ") err)
  | Ok raw =>
      match raw with
      | VObj obj =>
          match obj !! "data" with
          | Some nested => if negb (isNil nested) then Ok nested else Ok raw
          | None => Ok raw
          end
      | _ => Ok raw
      end
  end.

(** [fmt.Errorf("request to %s failed with status %d: %s", path,
    resp.StatusCode, truncateForError(string(body), 500))]. *)
Definition statusError (path : string) (StatusCode : Z) (body : string)
  : error :=
  errorString ("request to " +:+ path +:+ " failed with status "
               +:+ pretty StatusCode +:+ ": " +:+ truncateForError body 500).

(** How one iteration of the loop of [postJSON] ends. *)
Inductive loopStep : Type :=
| loopReturn (r : result value)
| loopContinue (lastErr : error).

(** The block the three failure branches of the loop share:
    [if c.shouldRetry(...) { if waitErr := waitRetry(...); waitErr != nil
    { return nil, waitErr }; continue }; return nil, lastErr]. *)
Definition retryOrFail (c : knowsClient) (w : world) (attempt statusCode : Z)
    (err : option error) (lastErr : error) : loopStep :=
  if shouldRetry c attempt statusCode err then
    match waitRetry (ctxDone w attempt) (selectDone w attempt)
            (retryBackoff c) attempt with
    | Some waitErr => loopReturn (Err waitErr)
    | None => loopContinue lastErr
    end
  else loopReturn (Err lastErr).

(** One iteration of the loop, with the exchanges it made. *)
Definition postAttempt (c : knowsClient) (w : world) (path url data : string)
    (attempt : Z) : loopStep * list roundTrip :=
  match NewRequest w url with
  | Some err =>
      (loopReturn
         (Err (Errorf_w ("failed to create request for " +:+ path +:+ ": ") err)),
       [])
  | None =>
      let rt := Do w attempt url data in
      (match rt with
       | doError err =>
           retryOrFail c w attempt 0 (Some err)
             (Errorf_w ("request to " +:+ path +:+ " failed: ") err)
       | doResponse StatusCode (Err readErr) =>
           retryOrFail c w attempt StatusCode (Some readErr)
             (Errorf_w ("failed to read response from " +:+ path +:+ ": ")
                readErr)
       | doResponse StatusCode (Ok body) =>
           if (StatusCode <? 200) || (300 <=? StatusCode) then
             retryOrFail c w attempt StatusCode None
               (statusError path StatusCode body)
           else loopReturn (decodeResponse path body)
       end,
       [rt])
  end.

(** [for attempt := 0; attempt <= c.maxRetries; attempt++]: [n] counts the
    iterations that remain.  The second component lists the exchanges in
    the order they were made. *)
Fixpoint postLoop (c : knowsClient) (w : world) (path url data : string)
    (n : nat) (attempt : Z) (lastErr : option error)
  : result value * list roundTrip :=
  match n with
  | O =>
      (match lastErr with
       | Some e => Err e
       | None => Err (errorString ("request to " +:+ path +:+ " failed"))
       end,
       [])
  | S n' =>
      match postAttempt c w path url data attempt with
      | (loopReturn r, seen) => (r, seen)
      | (loopContinue e, seen) =>
          let '(r, later) :=
            postLoop c w path url data n' (attempt + 1) (Some e) in
          (r, seen ++ later)
      end
  end.

Definition postJSON (c : knowsClient) (w : world) (path : string)
    (payload : value) : result value * list roundTrip :=
  let payload := if isNil payload then VObj ∅ else payload in
  match json_Marshal payload with
  | Err err =>
      (Err (Errorf_w ("failed to encode request for " +:+ path +:+ ": ") err),
       [])
  | Ok data =>
      postLoop c w path (baseURL c +:+ path) data
        (Z.to_nat (maxRetries c + 1)) 0 None
  end.

Definition answer (c : knowsClient) (w : world) (questionID answerType : string)
  : result value * list roundTrip :=
  postJSON c w "/knows/answer"
    (VObj (<["answer_type" := VStr answerType]>
             {[ "question_id" := VStr questionID ]})).

(** The two readings of [time.Now()] a cached lookup makes: in [Get] and,
    after the exchange, in [Set]. *)
Record clock : Type := {
  nowGet : Z;
  nowSet : Z;
}.

(** [fmt.Sprintf] of [%t]. *)
Definition fmt_t (b : bool) : string := if b then "true" else "false".

Definition translateKey (translate : option bool) : bool :=
  match translate with
  | Some b => b
  | None => false
  end.

(** The payload of the lookups that take the translation flag. *)
Definition detailPayload (evidenceID : string) (translate : option bool)
  : gmap string value :=
  let payload : gmap string value := {[ "evidence_id" := VStr evidenceID ]} in
  match translate with
  | Some b => <["translate_to_chinese" := VBool b]> payload
  | None => payload
  end.

(** The body [getPaperEN], [getPaperCN], [getGuide] and [getMeeting] have in
    common once the cache key and the payload are built.  The result comes
    with the client, whose cache the call may have changed, and with the
    exchanges made. *)
Definition cachedPost (c : knowsClient) (clk : clock) (w : world)
    (cacheKey path : string) (payload : gmap string value)
  : result value * knowsClient * list roundTrip :=
  match Get (cache c) (nowGet clk) cacheKey with
  | (cached, true, cache1) => (Ok cached, withCache c cache1, [])
  | (_, false, cache1) =>
      match postJSON c w path (VObj payload) with
      | (Err err, seen) => (Err err, withCache c cache1, seen)
      | (Ok data, seen) =>
          (Ok data, withCache c (Set_ cache1 (nowSet clk) cacheKey data), seen)
      end
  end.

Definition paperENKey (evidenceID : string) (translate : option bool) : string :=
  "PAPER:" +:+ evidenceID +:+ ":" +:+ fmt_t (translateKey translate).

Definition guideKey (evidenceID : string) (translate : option bool) : string :=
  "GUIDE:" +:+ evidenceID +:+ ":" +:+ fmt_t (translateKey translate).

Definition meetingKey (evidenceID : string) (translate : option bool) : string :=
  "MEETING:" +:+ evidenceID +:+ ":" +:+ fmt_t (translateKey translate).

Definition getPaperEN (c : knowsClient) (clk : clock) (w : world)
    (evidenceID : string) (translate : option bool) :=
  cachedPost c clk w (paperENKey evidenceID translate)
    "/knows/evidence/get_paper_en" (detailPayload evidenceID translate).

Definition getPaperCN (c : knowsClient) (clk : clock) (w : world)
    (evidenceID : string) :=
  cachedPost c clk w ("PAPER_CN:" +:+ evidenceID +:+ ":false")
    "/knows/evidence/get_paper_cn" {[ "evidence_id" := VStr evidenceID ]}.

Definition getGuide (c : knowsClient) (clk : clock) (w : world)
    (evidenceID : string) (translate : option bool) :=
  cachedPost c clk w (guideKey evidenceID translate)
    "/knows/evidence/get_guide" (detailPayload evidenceID translate).

Definition getMeeting (c : knowsClient) (clk : clock) (w : world)
    (evidenceID : string) (translate : option bool) :=
  cachedPost c clk w (meetingKey evidenceID translate)
    "/knows/evidence/get_meeting" (detailPayload evidenceID translate).

Definition fetchEvidenceDetail (c : knowsClient) (clk : clock) (w : world)
    (evidenceID evidenceType : string) (translate : option bool)
  : result value * knowsClient * list roundTrip :=
  if bool_decide (evidenceType = "PAPER") then
    getPaperEN c clk w evidenceID translate
  else if bool_decide (evidenceType = "PAPER_CN") then
    getPaperCN c clk w evidenceID
  else if bool_decide (evidenceType = "GUIDE") then
    getGuide c clk w evidenceID translate
  else if bool_decide (evidenceType = "MEETING") then
    getMeeting c clk w evidenceID translate
  else
    (Err (errorString ("unsupported evidence type " +:+ strconv_Quote evidenceType
                       +:+ "; allowed: PAPER, PAPER_CN, GUIDE, MEETING")),
     c, []).

End Client.

(** ** Construction of the tool set *)

Definition defaultKnowsRequestTimeout : Z := 120 * Second.
Definition defaultKnowsMaxRetries : Z := 3.
Definition defaultKnowsRetryBackoff : Z := 500 * Millisecond.
Definition defaultKnowsBatchLimit : Z := 5.
Definition defaultKnowsCacheTTL : Z := Hour.
Definition defaultKnowsCacheEntries : Z := 500.

Record KnowsToolOptions : Type := {
  APIKey : string;
  APIBaseURL : string;
  DefaultDataScope : list string;
  RequestTimeout : Z;
  MaxRetries : Z;
  RetryBackoff : Z;
  BatchConcurrency : Z;
  CacheTTL : Z;
  CacheMaxEntries : Z;
}.

Record knowsToolFactory : Type := {
  client : knowsClient;
  defaultDataScope : list string;
  batchConcurrency : Z;
}.

(** The names of the thirteen tools [NewKnowsTools] returns, in order. *)
Definition knowsToolNames : list string :=
  [ "knows_ai_search"; "knows_answer"; "knows_batch_answer";
    "knows_evidence_summary"; "knows_evidence_highlight";
    "knows_get_paper_en"; "knows_get_paper_cn"; "knows_get_guide";
    "knows_get_meeting"; "knows_auto_tagging"; "knows_list_question";
    "knows_list_interpretation"; "knows_batch_get_evidence_details" ].

Record knowsBatchAnswerRequest : Type := {
  QuestionID : string;
  AnswerType : string;
}.

Record knowsBatchEvidenceRequest : Type := {
  EvidenceID : string;
  Type_ : string;
}.

(** What a batch worker sends on the channel. *)
Record batchResult : Type := {
  index : nat;
  data : gmap string value;
}.

(** How far the worker of one sub-request has come. *)
Inductive phase (P : Type) : Type :=
| waiting
    (** before [sem <- struct{}{}] *)
| fetching (pending : P)
    (** holding a slot of the semaphore, inside its call, after the lookup
        in the cache and before the exchange *)
| ready (row : gmap string value)
    (** holding a slot, its call returned and its row built *)
| sent
    (** after [ch <- batchResult{...}] and the release of the slot *).
Arguments waiting {P}.
Arguments fetching {P} pending.
Arguments ready {P} row.
Arguments sent {P}.

(** What the goroutines of one batch call share, and where each of them is:
    the state they all read and write (the cache of [f.client] for the
    evidence batch), the phase of every worker, the messages on [ch] in the
    order they were sent, and the exchanges made, by worker. *)
Record pool (Sh P : Type) : Type := {
  shared : Sh;
  phases : list (phase P);
  channel : list batchResult;
  traffic : list (nat * list roundTrip);
}.
Arguments shared {Sh P} _.
Arguments phases {Sh P} _.
Arguments channel {Sh P} _.
Arguments traffic {Sh P} _.

(** What the scheduler and the world contribute to one batch call: the
    workers in the order in which the scheduler lets them take their next
    step, and for the worker of each index the world its call runs in and
    the clock readings of that call. *)
Record schedule : Type := {
  steps : list nat;
  worldOf : nat → world;
  clockOf : nat → clock;
}.

Section Workers.
Context {Req Sh P : Type}.
(** The capacity of [sem], the sub-requests, and the call a worker makes, in
    the two parts between which other workers can touch the shared state:
    [start] up to the first access to it, which either ends the call with a
    row or leaves it pending, and [finish] from there to the end. *)
Variable limit : Z.
Variable requests : list Req.
Variable start :
  nat → Req → Sh → Sh * (P + gmap string value) * list roundTrip.
Variable finish :
  nat → Req → P → Sh → Sh * gmap string value * list roundTrip.

Definition holding (ph : phase P) : bool :=
  match ph with
  | fetching _ | ready _ => true
  | waiting | sent => false
  end.

(** A worker that holds no slot of the semaphore. *)
Definition settled (ph : phase P) : Prop := ph = waiting ∨ ph = sent.

(** The number of values buffered in [sem]: one per worker between its
    send on [sem] and its deferred receive. *)
Fixpoint held (phs : list (phase P)) : Z :=
  match phs with
  | [] => 0
  | ph :: rest => (if holding ph then 1 else 0) + held rest
  end.

(** The next step of worker [i], when the scheduler picks it.  A worker
    that waits for the semaphore moves only when a slot is free,
    [held < limit]: it takes the slot and runs [start]; a pending worker
    runs [finish]; a worker whose row is ready sends it on [ch] and gives
    its slot back.  Picking a worker that cannot move, or that has
    finished, changes nothing. *)
Definition stepWorker (st : pool Sh P) (i : nat) : pool Sh P :=
  match requests !! i, phases st !! i with
  | Some req, Some waiting =>
      if held (phases st) <? limit then
        let '(s, r, seen) := start i req (shared st) in
        {| shared := s;
           phases :=
             <[i := match r with
                    | inl pending => fetching pending
                    | inr row => ready row
                    end]> (phases st);
           channel := channel st;
           traffic := traffic st ++ [(i, seen)] |}
      else st
  | Some req, Some (fetching pending) =>
      let '(s, row, seen) := finish i req pending (shared st) in
      {| shared := s;
         phases := <[i := ready row]> (phases st);
         channel := channel st;
         traffic := traffic st ++ [(i, seen)] |}
  | Some req, Some (ready row) =>
      {| shared := shared st;
         phases := <[i := sent]> (phases st);
         channel := channel st ++ [{| index := i; data := row |}];
         traffic := traffic st |}
  | _, _ => st
  end.

(** Every worker in turn, taken through the three steps it has at most. *)
Definition drain (n : nat) : list nat := i ← seq 0 n; [i; i; i].

(** The pool when [wg.Wait()] returns.  The workers take their steps in
    the order of [trace]; [wg.Wait()] returns only when every worker is
    done, so those that [trace] leaves unfinished are then taken to their
    end in the order of their index (twice over: a worker that finds the
    semaphore full the first time finds it free the second time). *)
Definition runWorkers (trace : list nat) (s0 : Sh) : pool Sh P :=
  foldl stepWorker
    {| shared := s0;
       phases := replicate (length requests) waiting;
       channel := [];
       traffic := [] |}
    (trace ++ drain (length requests) ++ drain (length requests)).

(** What holds of a pool throughout a run, for a property [I] of the
    shared state, [R] of what a worker has pending and [Q] of its row:
    every worker that has sent has exactly one message on the channel, with
    its row, and the others have none. *)
Definition poolInv (I : Sh → Prop) (R : nat → P → Prop)
    (Q : nat → gmap string value → Prop) (st : pool Sh P) : Prop :=
  length (phases st) = length requests
  ∧ I (shared st)
  ∧ NoDup (index <$> channel st)
  ∧ ∀ i,
      match phases st !! i with
      | Some (fetching pending) => R i pending ∧ i ∉ index <$> channel st
      | Some (ready row) => Q i row ∧ i ∉ index <$> channel st
      | Some sent =>
          ∃ row, Q i row ∧ {| index := i; data := row |} ∈ channel st
      | Some waiting | None => i ∉ index <$> channel st
      end.

End Workers.

Section Tools.
Context `{GoLibrary}.

(** What [NewKnowsTools] returns.  Every tool of the returned list is a
    closure over the factory, which stands for the list here.  The last
    step before the return, [newKnowsDetailCache], allocates the cache and
    can panic when [CacheMaxEntries] is too large to allocate; [Ok] is the
    return value of a call in which the allocation succeeds. *)
Definition NewKnowsTools (opts : KnowsToolOptions) : result knowsToolFactory :=
  let apiKey := strings.TrimSpace (APIKey opts) in
  if bool_decide (apiKey = EmptyString) then
    Err (errorString "knows api_key is required") else
  let apiBaseURL := strings.TrimSpace (APIBaseURL opts) in
  if bool_decide (apiBaseURL = EmptyString) then
    Err (errorString "knows api_base_url is required") else
  match normalizeDataScopes (DefaultDataScope opts) with
  | Err err => Err (Errorf_w "invalid knows default_data_scope: " err)
  | Ok defaultScope =>
      let defaultScope :=
        if bool_decide (defaultScope = []) then knowsAllDataScopes
        else defaultScope in
      let timeout :=
        if RequestTimeout opts <=? 0 then defaultKnowsRequestTimeout
        else RequestTimeout opts in
      let maxRetries :=
        if MaxRetries opts <? 0 then defaultKnowsMaxRetries
        else MaxRetries opts in
      let retryBackoff :=
        if RetryBackoff opts <=? 0 then defaultKnowsRetryBackoff
        else RetryBackoff opts in
      let batchConcurrency :=
        if BatchConcurrency opts <=? 0 then defaultKnowsBatchLimit
        else BatchConcurrency opts in
      let cacheTTL :=
        if CacheTTL opts <=? 0 then defaultKnowsCacheTTL else CacheTTL opts in
      let cacheEntries :=
        if CacheMaxEntries opts <=? 0 then defaultKnowsCacheEntries
        else CacheMaxEntries opts in
      Ok {| client :=
              {| baseURL := strings.TrimRightByte apiBaseURL "/"%char;
                 apiKey := apiKey;
                 httpTimeout := timeout;
                 maxRetries := maxRetries;
                 retryBackoff := retryBackoff;
                 cache := newKnowsDetailCache cacheTTL cacheEntries |};
            defaultDataScope := defaultScope;
            batchConcurrency := batchConcurrency |}
  end.

(** ** The batch tools *)

(** The loop of [parseBatchAnswerRequests]; [i] is the index of the head of
    [raw]. *)
Fixpoint parseBatchAnswerLoop (raw : list value) (i : Z)
    (out : list knowsBatchAnswerRequest)
  : result (list knowsBatchAnswerRequest) :=
  match raw with
  | [] => Ok out
  | item :: rest =>
      match item with
      | VObj m =>
          let at_i := "requests[" +:+ pretty i +:+ "]: " in
          match getRequiredString m "question_id" with
          | Err err => Err (Errorf_w at_i err)
          | Ok questionID =>
              match getRequiredString m "answer_type" with
              | Err err => Err (Errorf_w at_i err)
              | Ok answerType =>
                  match normalizeAnswerType answerType with
                  | Err err => Err (Errorf_w at_i err)
                  | Ok answerType =>
                      parseBatchAnswerLoop rest (i + 1)
                        (out ++ [{| QuestionID := questionID;
                                    AnswerType := answerType |}])
                  end
              end
          end
      | _ =>
          Err (errorString ("requests[" +:+ pretty i +:+ "] must be an object"))
      end
  end.

Definition parseBatchAnswerRequests (args : gmap string value)
  : result (list knowsBatchAnswerRequest) :=
  raw ← getRequiredArray args "requests";
  out ← parseBatchAnswerLoop raw 0 [];
  if bool_decide (length out = 0%nat)
  then Err (errorString "requests must not be empty")
  else Ok out.

Fixpoint parseBatchEvidenceLoop (raw : list value) (i : Z)
    (out : list knowsBatchEvidenceRequest)
  : result (list knowsBatchEvidenceRequest) :=
  match raw with
  | [] => Ok out
  | item :: rest =>
      match item with
      | VObj m =>
          let at_i := "evidences[" +:+ pretty i +:+ "]: " in
          match getRequiredString m "evidence_id" with
          | Err err => Err (Errorf_w at_i err)
          | Ok evidenceID =>
              match getRequiredString m "type" with
              | Err err => Err (Errorf_w at_i err)
              | Ok evidenceType =>
                  match normalizeDataScope evidenceType with
                  | Err err => Err (Errorf_w at_i err)
                  | Ok evidenceType =>
                      parseBatchEvidenceLoop rest (i + 1)
                        (out ++ [{| EvidenceID := evidenceID;
                                    Type_ := evidenceType |}])
                  end
              end
          end
      | _ =>
          Err (errorString ("evidences[" +:+ pretty i +:+ "] must be an object"))
      end
  end.

Definition parseBatchEvidenceRequests (args : gmap string value)
  : result (list knowsBatchEvidenceRequest) :=
  raw ← getRequiredArray args "evidences";
  out ← parseBatchEvidenceLoop raw 0 [];
  if bool_decide (length out = 0%nat)
  then Err (errorString "evidences must not be empty")
  else Ok out.

(** The map a worker of [knows_batch_answer] builds from its request and
    from what [f.client.answer] returned. *)
Definition answerItem (req : knowsBatchAnswerRequest) (r : result value)
  : gmap string value :=
  let item : gmap string value := {[ "question_id" := VStr (QuestionID req) ]} in
  match r with
  | Err err => <["error" := VStr (Error err)]> (<["status" := VStr "error"]> item)
  | Ok data => <["data" := data]> (<["status" := VStr "success"]> item)
  end.

(** The map a worker of [knows_batch_get_evidence_details] builds. *)
Definition evidenceRow (item : knowsBatchEvidenceRequest) (r : result value)
  : gmap string value :=
  let row : gmap string value :=
    <["type" := VStr (Type_ item)]> {[ "evidence_id" := VStr (EvidenceID item) ]} in
  match r with
  | Err err => <["error" := VStr (Error err)]> (<["status" := VStr "error"]> row)
  | Ok data => <["data" := data]> (<["status" := VStr "success"]> row)
  end.

(** [for item := range ch { results[item.index] = item.data }] over
    [results := make([]map[string]interface{}, n)], whose slots start out as
    the [nil] map, [None]. *)
Definition collect (n : nat) (ch : list batchResult)
  : list (option (gmap string value)) :=
  foldl (λ results item, <[index item := Some (data item)]> results)
    (replicate n None) ch.

(** The call of a worker of [knows_batch_answer]: [f.client.answer] and the
    item built from what it returns.  The call touches nothing the workers
    share, and is never pending. *)
Definition answerWorker (f : knowsToolFactory) (sch : schedule) (i : nat)
    (req : knowsBatchAnswerRequest) (s : unit)
  : unit * (Empty_set + gmap string value) * list roundTrip :=
  let '(r, seen) :=
    answer (client f) (worldOf sch i) (QuestionID req) (AnswerType req) in
  (s, inr (answerItem req r), seen).

Definition answerPending (i : nat) (req : knowsBatchAnswerRequest)
    (pending : Empty_set) (s : unit)
  : unit * gmap string value * list roundTrip :=
  match pending with end.

Definition batchAnswerRun (f : knowsToolFactory) (sch : schedule)
    (requests : list knowsBatchAnswerRequest) : pool unit Empty_set :=
  runWorkers (batchConcurrency f) requests (answerWorker f sch) answerPending
    (steps sch) ().

(** The handler of [knows_batch_answer].  With a [batchConcurrency] that is
    not positive no worker gets past the semaphore and the handler of the
    source does not return; the factories of [NewKnowsTools] have a positive
    one. *)
Definition batchAnswerHandler (f : knowsToolFactory) (sch : schedule)
    (args : gmap string value)
  : result (list (option (gmap string value))) :=
  requests ← parseBatchAnswerRequests args;
  Ok (collect (length requests) (channel (batchAnswerRun f sch requests))).

(** What [fetchEvidenceDetail] dispatches to for an evidence type: the
    cache key, the path and the payload of [getPaperEN], [getPaperCN],
    [getGuide] or [getMeeting]; [None] for the [default] case. *)
Definition detailRequest (evidenceID evidenceType : string)
    (translate : option bool) : option (string * string * gmap string value) :=
  if bool_decide (evidenceType = "PAPER") then
    Some (paperENKey evidenceID translate, "/knows/evidence/get_paper_en",
          detailPayload evidenceID translate)
  else if bool_decide (evidenceType = "PAPER_CN") then
    Some ("PAPER_CN:" +:+ evidenceID +:+ ":false",
          "/knows/evidence/get_paper_cn",
          {[ "evidence_id" := VStr evidenceID ]})
  else if bool_decide (evidenceType = "GUIDE") then
    Some (guideKey evidenceID translate, "/knows/evidence/get_guide",
          detailPayload evidenceID translate)
  else if bool_decide (evidenceType = "MEETING") then
    Some (meetingKey evidenceID translate, "/knows/evidence/get_meeting",
          detailPayload evidenceID translate)
  else None.

(** The call of a worker of [knows_batch_get_evidence_details],
    [f.client.fetchEvidenceDetail], up to and including [c.cache.Get], on
    the shared cache as the worker finds it. *)
Definition evidenceLookup (f : knowsToolFactory) (sch : schedule)
    (translate : option bool) (i : nat) (item : knowsBatchEvidenceRequest)
    (k : knowsDetailCache)
  : knowsDetailCache * (string * string * gmap string value
                        + gmap string value) * list roundTrip :=
  match detailRequest (EvidenceID item) (Type_ item) translate with
  | None =>
      (k,
       inr (evidenceRow item
              (Err (errorString
                      ("unsupported evidence type "
                       +:+ strconv_Quote (Type_ item)
                       +:+ "; allowed: PAPER, PAPER_CN, GUIDE, MEETING")))),
       [])
  | Some (cacheKey, path, payload) =>
      match Get k (nowGet (clockOf sch i)) cacheKey with
      | (cached, true, k1) => (k1, inr (evidenceRow item (Ok cached)), [])
      | (_, false, k1) => (k1, inl (cacheKey, path, payload), [])
      end
  end.

(** The rest of the call after a miss: [c.postJSON] and, when it succeeds,
    [c.cache.Set] on the shared cache as it is by then. *)
Definition evidenceFetch (f : knowsToolFactory) (sch : schedule) (i : nat)
    (item : knowsBatchEvidenceRequest)
    (pending : string * string * gmap string value) (k : knowsDetailCache)
  : knowsDetailCache * gmap string value * list roundTrip :=
  let '(cacheKey, path, payload) := pending in
  match postJSON (client f) (worldOf sch i) path (VObj payload) with
  | (Err err, seen) => (k, evidenceRow item (Err err), seen)
  | (Ok data, seen) =>
      (Set_ k (nowSet (clockOf sch i)) cacheKey data,
       evidenceRow item (Ok data), seen)
  end.

Definition batchGetEvidenceDetailsRun (f : knowsToolFactory) (sch : schedule)
    (evidences : list knowsBatchEvidenceRequest) (translate : option bool)
  : pool knowsDetailCache (string * string * gmap string value) :=
  runWorkers (batchConcurrency f) evidences (evidenceLookup f sch translate)
    (evidenceFetch f sch) (steps sch) (cache (client f)).

(** The handler of [knows_batch_get_evidence_details]. *)
Definition batchGetEvidenceDetailsHandler (f : knowsToolFactory)
    (sch : schedule) (args : gmap string value)
  : result (list (option (gmap string value))) :=
  evidences ← parseBatchEvidenceRequests args;
  translate ← getOptionalBoolPointer args "translate_to_chinese";
  Ok (collect (length evidences)
        (channel (batchGetEvidenceDetailsRun f sch evidences translate))).

(** The cache key of a sub-request of the evidence batch. *)
Definition detailKey (item : knowsBatchEvidenceRequest)
    (translate : option bool) : option string :=
  (λ request, request.1.1)
    <$> detailRequest (EvidenceID item) (Type_ item) translate.

(** The outcome of the call of worker [i] when it finds nothing under its
    key in the cache. *)
Definition ownOutcome (f : knowsToolFactory) (sch : schedule)
    (translate : option bool) (i : nat) (item : knowsBatchEvidenceRequest)
  : result value :=
  (fetchEvidenceDetail
     (withCache (client f)
        (newKnowsDetailCache (ttl (cache (client f)))
           (maxEntries (cache (client f)))))
     (clockOf sch i) (worldOf sch i)
     (EvidenceID item) (Type_ item) translate).1.1.

(** The caches a worker of a batch call can find: with the configuration of
    the cache of [f.client], and in which every entry either was there
    when the call began or holds, under the key of a sub-request of the
    batch, the payload that sub-request's own exchange returned. *)
Definition batchCache (f : knowsToolFactory) (sch : schedule)
    (evidences : list knowsBatchEvidenceRequest) (translate : option bool)
    (k : knowsDetailCache) : Prop :=
  ttl k = ttl (cache (client f))
  ∧ maxEntries k = maxEntries (cache (client f))
  ∧ ∀ key entry,
      entries k !! key = Some entry →
      entries (cache (client f)) !! key = Some entry
      ∨ ∃ j item,
          evidences !! j = Some item
          ∧ detailKey item translate = Some key
          ∧ ownOutcome f sch translate j item = Ok (value_ entry)
          ∧ expiresAt entry
            = nowSet (clockOf sch j) + ttl (cache (client f)).

End Tools.

(** ** Notions the properties are stated with *)

(** A list with every element kept at its first occurrence only. *)
Fixpoint firstOccurrences (l : list string) : list string :=
  match l with
  | [] => []
  | x :: rest => x :: filter (λ y, y ≠ x) (firstOccurrences rest)
  end.

(** A scope after trimming and uppercasing. *)
Definition normalizedScope `{GoLibrary} (s : string) : string :=
  ToUpper (strings.TrimSpace s).

(** The invariant of the cache: [order] lists the keys of [entries], each
    once, and the capacity bounds their number. *)
Definition cacheInv (c : knowsDetailCache) : Prop :=
  NoDup (order c)
  ∧ (∀ k, k ∈ order c ↔ is_Some (entries c !! k))
  ∧ Z.of_nat (size (entries c)) ≤ Z.max (maxEntries c) 0.

(** The entries whose expiry timestamp has not passed at [now]. *)
Definition liveEntries (c : knowsDetailCache) (now : Z)
  : gmap string knowsCacheEntry :=
  filter (λ kv, now ≤ expiresAt kv.2) (entries c).

(** The outcomes of an exchange after which the specification allows
    another attempt: a transport or read error that is neither a
    cancellation nor an expired deadline, or a status from 500 to 599. *)
Definition retryable (rt : roundTrip) : bool :=
  match rt with
  | doError err | doResponse _ (Err err) =>
      negb (errorsIs err ctxCanceled || errorsIs err ctxDeadlineExceeded)
  | doResponse StatusCode (Ok _) =>
      (500 <=? StatusCode) && (StatusCode <=? 599)
  end.

(** ** Concrete inputs *)

(** An instance of the library parameters for concrete runs.

    It is used on ASCII strings only, where [strings.ToUpper] never reads
    the Unicode tables; it quotes strings that need no escaping, decodes
    the response bodies listed in [exampleUnmarshal], and encodes every
    payload as the same text, which the worlds of the concrete runs
    ignore. *)

Definition doubleQuote : string := String "034"%char EmptyString.

(** The body [{"data":null}]. *)
Definition dataNullBody : string :=
  "{" +:+ doubleQuote +:+ "data" +:+ doubleQuote +:+ ":null}".

(** The body [{"data":{"id":"p1"}}]. *)
Definition dataObjectBody : string :=
  "{" +:+ doubleQuote +:+ "data" +:+ doubleQuote +:+ ":{"
  +:+ doubleQuote +:+ "id" +:+ doubleQuote +:+ ":"
  +:+ doubleQuote +:+ "p1" +:+ doubleQuote +:+ "}}".

Definition exampleUnmarshal (body : string) : result value :=
  if bool_decide (body = dataNullBody) then
    Ok (VObj {[ "data" := VNil ]})
  else if bool_decide (body = dataObjectBody) then
    Ok (VObj {[ "data" := VObj {[ "id" := VStr "p1" ]} ]})
  else if bool_decide (body = "[]") then Ok (VArr [])
  else Err (errorString "invalid character").

Definition exampleLibrary : GoLibrary :=
  {| unicode_ToUpper := λ s, s;
     strconv_Quote := λ s, doubleQuote +:+ s +:+ doubleQuote;
     json_Marshal := λ _, Ok "{}";
     json_Unmarshal := exampleUnmarshal |}.

(** Options with a key and a base URL and every numeric setting zero. *)
Definition zeroOptions : KnowsToolOptions :=
  {| APIKey := "test-key"; APIBaseURL := "http://knows.test/";
     DefaultDataScope := [" guide"; "paper"; "GUIDE "];
     RequestTimeout := 0; MaxRetries := 0; RetryBackoff := 0;
     BatchConcurrency := 0; CacheTTL := 0; CacheMaxEntries := 0 |}.

(** Options with an unknown default scope, and options with a blank key. *)
Definition badScopeOptions : KnowsToolOptions :=
  {| APIKey := "test-key"; APIBaseURL := "http://knows.test/";
     DefaultDataScope := ["guide"; "book"];
     RequestTimeout := 0; MaxRetries := 0; RetryBackoff := 0;
     BatchConcurrency := 0; CacheTTL := 0; CacheMaxEntries := 0 |}.

Definition blankKeyOptions : KnowsToolOptions :=
  {| APIKey := "  "; APIBaseURL := "http://knows.test/";
     DefaultDataScope := [];
     RequestTimeout := 0; MaxRetries := 0; RetryBackoff := 0;
     BatchConcurrency := 0; CacheTTL := 0; CacheMaxEntries := 0 |}.

(** A cache of capacity two with a TTL of ten ticks: [a] is set at 0, [b]
    at 1, [a] is set again at 9. *)
Definition refreshedCache : knowsDetailCache :=
  Set_ (Set_ (Set_ (newKnowsDetailCache 10 2) 0 "a" (VStr "first"))
          1 "b" (VStr "second"))
    9 "a" (VStr "again").

(** A world in which requests can be built, attempt [k] is answered by
    [respond k] whatever is sent, and the context stays open. *)
Definition serverWorld (respond : Z → roundTrip) : world :=
  {| NewRequest := λ _, None;
     Do := λ k _ _, respond k;
     ctxDone := λ _, None;
     selectDone := λ _, false |}.

(** A client as [NewKnowsTools] builds it from the defaults. *)
Definition defaultClient : knowsClient :=
  {| baseURL := "http://knows.test";
     apiKey := "test-key";
     httpTimeout := defaultKnowsRequestTimeout;
     maxRetries := defaultKnowsMaxRetries;
     retryBackoff := defaultKnowsRetryBackoff;
     cache := newKnowsDetailCache defaultKnowsCacheTTL defaultKnowsCacheEntries |}.

(** A batch of two sub-requests for each batch tool, a schedule in which the
    second worker starts and sends first and only the first worker's call
    succeeds, and arguments whose request lists are empty. *)
Definition defaultFactory : knowsToolFactory :=
  {| client := defaultClient;
     defaultDataScope := knowsAllDataScopes;
     batchConcurrency := defaultKnowsBatchLimit |}.

Definition batchArgs : gmap string value :=
  <["evidences" :=
      VArr [ VObj (<["type" := VStr "guide"]> {[ "evidence_id" := VStr "g1" ]});
             VObj (<["type" := VStr "PAPER"]> {[ "evidence_id" := VStr "p1" ]}) ]]>
  {[ "requests" :=
      VArr [ VObj (<["answer_type" := VStr " clinical"]>
                     {[ "question_id" := VStr "q1" ]});
             VObj (<["answer_type" := VStr "RESEARCH"]>
                     {[ "question_id" := VStr "q2" ]}) ] ]}.

Definition secondFirstSchedule : schedule :=
  {| steps := [1; 0; 1; 1; 0; 0]%nat;
     worldOf := λ i,
       if bool_decide (i = 0%nat)
       then serverWorld (λ _, doResponse 200 (Ok dataObjectBody))
       else serverWorld (λ _, doResponse 404 (Ok "not found"));
     clockOf := λ _, {| nowGet := 0; nowSet := 5 |} |}.

(** A schedule in which the workers run one after the other and every
    call fails. *)
Definition allFailSchedule : schedule :=
  {| steps := [0; 0; 0; 1; 1; 1]%nat;
     worldOf := λ _, serverWorld (λ _, doResponse 404 (Ok "not found"));
     clockOf := λ _, {| nowGet := 0; nowSet := 5 |} |}.

(** Two sub-requests for the same guide, and a schedule in which the first
    worker runs to its end before the second starts; the first worker's
    exchange is answered with [first], the second worker's is refused. *)
Definition sameGuideArgs : gmap string value :=
  {[ "evidences" :=
      VArr [ VObj (<["type" := VStr "GUIDE"]> {[ "evidence_id" := VStr "g1" ]});
             VObj (<["type" := VStr "GUIDE"]> {[ "evidence_id" := VStr "g1" ]}) ] ]}.

Definition oneAfterTheOther (first : roundTrip) : schedule :=
  {| steps := [0; 0; 0; 1; 1; 1]%nat;
     worldOf := λ i,
       if bool_decide (i = 0%nat) then serverWorld (λ _, first)
       else serverWorld (λ _, doError (errorString "connection refused"));
     clockOf := λ i, {| nowGet := 10 * Z.of_nat i; nowSet := 10 * Z.of_nat i + 5 |} |}.

(** A factory whose cache has room for one entry and holds the guide
    [g1], as after a call of [knows_get_guide] at instant 0; and a batch
    that asks for the paper [p1] and for that guide. *)
Definition fullCacheFactory : knowsToolFactory :=
  {| client :=
       withCache defaultClient
         (Set_ (newKnowsDetailCache defaultKnowsCacheTTL 1) 0 "GUIDE:g1:false"
            (VObj {[ "id" := VStr "p1" ]}));
     defaultDataScope := knowsAllDataScopes;
     batchConcurrency := defaultKnowsBatchLimit |}.

Definition paperThenGuideArgs : gmap string value :=
  {[ "evidences" :=
      VArr [ VObj (<["type" := VStr "PAPER"]> {[ "evidence_id" := VStr "p1" ]});
             VObj (<["type" := VStr "GUIDE"]> {[ "evidence_id" := VStr "g1" ]}) ] ]}.

(** The batch of [batchArgs] with a translation flag that is no boolean. *)
Definition maybeFlagArgs : gmap string value :=
  <["translate_to_chinese" := VStr "maybe"]> batchArgs.

Definition emptyBatchArgs : gmap string value :=
  <["evidences" := VArr []]> {[ "requests" := VArr [] ]}.

(** ** The remaining tools

    The handlers of the tools that are not batch tools, with the helpers
    and the client methods they call. *)

(** A value of a call-argument bag as a Go caller can build it: decoded
    JSON, or a native [[]string], which JSON decoding never produces but
    which [getOptionalStringArray] accepts. *)
Inductive argument : Type :=
| argJSON (v : value)
| argStrings (xs : list string).

(** The view of an argument the helpers written for decoded JSON take:
    none of them accepts a [[]string], as none accepts the array that
    stands for it here. *)
Definition asJSON (a : argument) : value :=
  match a with
  | argJSON v => v
  | argStrings xs => VArr (VStr <$> xs)
  end.

(** A [[]string] placed in a request payload: the [nil] slice is [nil],
    any other slice an array of strings. *)
Definition stringsValue (xs : list string) : value :=
  match xs with
  | [] => VNil
  | _ => VArr (VStr <$> xs)
  end.

Section MoreTools.
Context `{GoLibrary}.

Definition getOptionalString (args : gmap string value) (key : string)
  : result string :=
  match args !! key with
  | None | Some VNil => Ok EmptyString
  | Some (VStr str) => Ok (strings.TrimSpace str)
  | Some _ => Err (errorString (key +:+ " must be a string"))
  end.

(** The [[]string] case of [getOptionalStringArray]: trim, drop the
    blanks. *)
Fixpoint trimmedNonBlank (v : list string) : list string :=
  match v with
  | [] => []
  | item :: rest =>
      let text := strings.TrimSpace item in
      if bool_decide (text = EmptyString) then trimmedNonBlank rest
      else text :: trimmedNonBlank rest
  end.

(** The [[]interface{}] case: the same, failing on the first element that
    is not a string; [i] is the index of the head of [v]. *)
Fixpoint stringElements (key : string) (v : list value) (i : Z)
  : result (list string) :=
  match v with
  | [] => Ok []
  | VStr text :: rest =>
      out ← stringElements key rest (i + 1);
      let text := strings.TrimSpace text in
      if bool_decide (text = EmptyString) then Ok out else Ok (text :: out)
  | _ :: _ =>
      Err (errorString (key +:+ "[" +:+ pretty i +:+ "] must be a string"))
  end.

Definition getOptionalStringArray (args : gmap string argument) (key : string)
  : result (list string) :=
  match args !! key with
  | None | Some (argJSON VNil) => Ok []
  | Some (argStrings v) => Ok (trimmedNonBlank v)
  | Some (argJSON (VArr v)) => stringElements key v 0
  | Some _ => Err (errorString (key +:+ " must be an array of strings"))
  end.

Definition aiSearch (c : knowsClient) (w : world) (question : string)
    (dataScope : list string) : result value * list roundTrip :=
  postJSON c w "/knows/ai_search"
    (VObj (<["data_scope" := stringsValue dataScope]>
             {[ "query" := VStr question ]})).

Definition evidenceSummary (c : knowsClient) (w : world) (evidenceID : string)
  : result value * list roundTrip :=
  postJSON c w "/knows/evidence/summary"
    (VObj {[ "evidence_id" := VStr evidenceID ]}).

Definition evidenceHighlight (c : knowsClient) (w : world)
    (evidenceID : string) : result value * list roundTrip :=
  postJSON c w "/knows/evidence/highlight"
    (VObj {[ "evidence_id" := VStr evidenceID ]}).

(** The payload [autoTagging] sends. *)
Definition autoTaggingPayload (content evidenceID taggingType : string)
  : gmap string value :=
  let payload : gmap string value := {[ "tagging_type" := VStr taggingType ]} in
  let payload :=
    if bool_decide (content ≠ EmptyString)
    then <["content" := VStr content]> payload else payload in
  if bool_decide (evidenceID ≠ EmptyString)
  then <["evidence_id" := VStr evidenceID]> payload else payload.

Definition autoTagging (c : knowsClient) (w : world)
    (content evidenceID taggingType : string)
  : result value * list roundTrip :=
  postJSON c w "/knows/auto_tagging"
    (VObj (autoTaggingPayload content evidenceID taggingType)).

(** What a handler that uses the cache returns: the result, the client
    with the cache as the call leaves it, and the exchanges made.  A handler
    that fails on its arguments leaves the client alone and makes no
    exchange. *)
Definition rejected {A : Type} (c : knowsClient) (err : error)
  : result A * knowsClient * list roundTrip :=
  (Err err, c, []).

(** The handler of [knows_ai_search]. *)
Definition aiSearchHandler (f : knowsToolFactory) (w : world)
    (args : gmap string argument) : result value * list roundTrip :=
  match getRequiredString (asJSON <$> args) "question" with
  | Err err => (Err err, [])
  | Ok question =>
      match getOptionalStringArray args "data_scope" with
      | Err err => (Err err, [])
      | Ok scope =>
          let scope :=
            if bool_decide (length scope = 0%nat) then defaultDataScope f
            else scope in
          match normalizeDataScopes scope with
          | Err err => (Err err, [])
          | Ok normalizedScope =>
              aiSearch (client f) w question normalizedScope
          end
      end
  end.

(** The handler of [knows_answer]. *)
Definition answerHandler (f : knowsToolFactory) (w : world)
    (args : gmap string value) : result value * list roundTrip :=
  match getRequiredString args "question_id" with
  | Err err => (Err err, [])
  | Ok questionID =>
      match getRequiredString args "answer_type" with
      | Err err => (Err err, [])
      | Ok answerType =>
          match normalizeAnswerType answerType with
          | Err err => (Err err, [])
          | Ok answerType => answer (client f) w questionID answerType
          end
      end
  end.

(** The handlers of [knows_evidence_summary] and
    [knows_evidence_highlight]. *)
Definition evidenceSummaryHandler (f : knowsToolFactory) (w : world)
    (args : gmap string value) : result value * list roundTrip :=
  match getRequiredString args "evidence_id" with
  | Err err => (Err err, [])
  | Ok evidenceID => evidenceSummary (client f) w evidenceID
  end.

Definition evidenceHighlightHandler (f : knowsToolFactory) (w : world)
    (args : gmap string value) : result value * list roundTrip :=
  match getRequiredString args "evidence_id" with
  | Err err => (Err err, [])
  | Ok evidenceID => evidenceHighlight (client f) w evidenceID
  end.

(** The handlers of [knows_get_paper_en], [knows_get_paper_cn],
    [knows_get_guide] and [knows_get_meeting]. *)
Definition getPaperENHandler (f : knowsToolFactory) (clk : clock) (w : world)
    (args : gmap string value) : result value * knowsClient * list roundTrip :=
  match getRequiredString args "evidence_id" with
  | Err err => rejected (client f) err
  | Ok evidenceID =>
      match getOptionalBoolPointer args "translate_to_chinese" with
      | Err err => rejected (client f) err
      | Ok translate => getPaperEN (client f) clk w evidenceID translate
      end
  end.

Definition getPaperCNHandler (f : knowsToolFactory) (clk : clock) (w : world)
    (args : gmap string value) : result value * knowsClient * list roundTrip :=
  match getRequiredString args "evidence_id" with
  | Err err => rejected (client f) err
  | Ok evidenceID => getPaperCN (client f) clk w evidenceID
  end.

Definition getGuideHandler (f : knowsToolFactory) (clk : clock) (w : world)
    (args : gmap string value) : result value * knowsClient * list roundTrip :=
  match getRequiredString args "evidence_id" with
  | Err err => rejected (client f) err
  | Ok evidenceID =>
      match getOptionalBoolPointer args "translate_to_chinese" with
      | Err err => rejected (client f) err
      | Ok translate => getGuide (client f) clk w evidenceID translate
      end
  end.

Definition getMeetingHandler (f : knowsToolFactory) (clk : clock) (w : world)
    (args : gmap string value) : result value * knowsClient * list roundTrip :=
  match getRequiredString args "evidence_id" with
  | Err err => rejected (client f) err
  | Ok evidenceID =>
      match getOptionalBoolPointer args "translate_to_chinese" with
      | Err err => rejected (client f) err
      | Ok translate => getMeeting (client f) clk w evidenceID translate
      end
  end.

(** The handler of [knows_auto_tagging]. *)
Definition autoTaggingHandler (f : knowsToolFactory) (w : world)
    (args : gmap string value) : result value * list roundTrip :=
  match getRequiredString args "tagging_type" with
  | Err err => (Err err, [])
  | Ok taggingType =>
      match getOptionalString args "content" with
      | Err err => (Err err, [])
      | Ok content =>
          match getOptionalString args "evidence_id" with
          | Err err => (Err err, [])
          | Ok evidenceID =>
              autoTagging (client f) w content evidenceID taggingType
          end
      end
  end.

End MoreTools.

(** ** Runs of the cache *)

(** One call on the cache, with the instant [time.Now()] reads. *)
Inductive cacheOp : Type :=
| opGet (now : Z) (key : string)
| opSet (now : Z) (key : string) (v : value).

Definition applyOp (c : knowsDetailCache) (op : cacheOp) : knowsDetailCache :=
  match op with
  | opGet now key => (Get c now key).2
  | opSet now key v => Set_ c now key v
  end.

(** The cache after a sequence of calls. *)
Definition runOps (c : knowsDetailCache) (ops : list cacheOp)
  : knowsDetailCache :=
  foldl applyOp c ops.

(** [Set] called once for each item, an instant, a key and a value, in the
    order of the list. *)
Definition itemKey (it : Z * string * value) : string := it.1.2.

Definition setOps (items : list (Z * string * value)) : list cacheOp :=
  (λ it, opSet it.1.1 it.1.2 it.2) <$> items.

(** ** Runs of [postJSON] *)

(** The error the loop of [postJSON] records as [lastErr] for an exchange
    that did not end with a status from 200 to 299. *)
Definition attemptError (path : string) (rt : roundTrip) : error :=
  match rt with
  | doError err => Errorf_w ("request to " +:+ path +:+ " failed: ") err
  | doResponse _ (Err readErr) =>
      Errorf_w ("failed to read response from " +:+ path +:+ ": ") readErr
  | doResponse StatusCode (Ok body) => statusError path StatusCode body
  end.

(** The first [j] exchanges of a world, for a URL and an encoded payload. *)
Definition exchanges (w : world) (url data : string) (j : nat)
  : list roundTrip :=
  (λ i : nat, Do w (Z.of_nat i) url data) <$> seq 0 j.

(** The first [j] attempts all end in a way that allows a retry, and the
    wait after each of them runs to the end. *)
Definition retriedThrough (c : knowsClient) (w : world) (url data : string)
    (j : nat) : Prop :=
  ∀ i : nat, (i < j)%nat →
    retryable (Do w (Z.of_nat i) url data) = true
    ∧ waitRetry (ctxDone w (Z.of_nat i)) (selectDone w (Z.of_nat i))
        (retryBackoff c) (Z.of_nat i) = None.

(** Worlds for concrete runs: a server that is busy once and then
    answers; a context that is cancelled a microsecond into every wait; a
    host that refuses every connection; a URL no request can be built for;
    a transport that reports the cancellation of the context. *)
Definition busyOnceWorld : world :=
  serverWorld (λ k, if k =? 0 then doResponse 503 (Ok "busy")
                    else doResponse 200 (Ok dataObjectBody)).

Definition cancelledWaitWorld : world :=
  {| NewRequest := λ _, None;
     Do := λ _ _ _, doResponse 503 (Ok "busy");
     ctxDone := λ _, Some (1000, ctxCanceled);
     selectDone := λ _, false |}.

Definition refusingWorld : world :=
  serverWorld (λ _, doError (errorString "connection refused")).

Definition unbuildableWorld : world :=
  {| NewRequest := λ _, Some (errorString "missing protocol scheme");
     Do := λ _ _ _, doResponse 200 (Ok EmptyString);
     ctxDone := λ _, None;
     selectDone := λ _, false |}.

Definition cancelledDoWorld : world :=
  serverWorld (λ _, doError (wrapError "Post: context canceled" ctxCanceled)).


(** [n] copies of a byte. *)
Fixpoint repeatByte (c : ascii) (n : nat) : string :=
  match n with
  | O => EmptyString
  | S n' => String c (repeatByte c n')
  end.


Section ParsedElements.
Context `{GoLibrary}.

(** What one well-formed element of [requests] contributes. *)
Definition answerRequestOf (item : value) (req : knowsBatchAnswerRequest)
  : Prop :=
  ∃ m answerType,
    item = VObj m
    ∧ getRequiredString m "question_id" = Ok (QuestionID req)
    ∧ getRequiredString m "answer_type" = Ok answerType
    ∧ normalizeAnswerType answerType = Ok (AnswerType req).

(** What one well-formed element of [evidences] contributes. *)
Definition evidenceRequestOf (item : value) (ev : knowsBatchEvidenceRequest)
  : Prop :=
  ∃ m evidenceType,
    item = VObj m
    ∧ getRequiredString m "evidence_id" = Ok (EvidenceID ev)
    ∧ getRequiredString m "type" = Ok evidenceType
    ∧ normalizeDataScope evidenceType = Ok (Type_ ev).

End ParsedElements.

(** Batch arguments whose second element is not an object. *)
Definition malformedBatchArgs : gmap string value :=
  {[ "requests" :=
      VArr [ VObj (<["answer_type" := VStr "research"]>
                     {[ "question_id" := VStr "q1" ]});
             VStr "q2" ] ]}.

(** Arguments of the single tools for concrete runs. *)
Definition searchArgs : gmap string argument :=
  {[ "question" := argJSON (VStr " What is new? ") ]}.



Definition taggingArgs : gmap string value :=
  <["content" := VStr "   "]>
    (<["evidence_id" := VStr " p1"]> {[ "tagging_type" := VStr "PICO" ]}).

(* ===================================================================== *)
(** * Part II: properties *)
(* ===================================================================== *)

(** An equation between closed terms, checked by evaluating both sides. *)
Ltac by_evaluation :=
  lazymatch goal with |- _ = ?r => vm_cast_no_check (@eq_refl _ r) end.

(** ** Validation helpers *)

Section ValidationFacts.
Context `{GoLibrary}.

Lemma allowed_cases x :
  x ∈ knowsAllowedDataScopes ↔
  x = "PAPER" ∨ x = "PAPER_CN" ∨ x = "GUIDE" ∨ x = "MEETING".
Proof.
  unfold knowsAllowedDataScopes.
  rewrite !elem_of_union, !elem_of_singleton. tauto.
Qed.

Lemma empty_not_allowed : EmptyString ∉ knowsAllowedDataScopes.
Proof. rewrite allowed_cases. intros [|[|[|]]]; discriminate. Qed.

Lemma normalizeDataScope_Ok scope n :
  normalizeDataScope scope = Ok n ↔
  n = normalizedScope scope ∧ n ∈ knowsAllowedDataScopes.
Proof.
  unfold normalizeDataScope, normalizedScope.
  case_bool_decide as Hempty; [|case_bool_decide as Hin].
  - split; [discriminate|]. intros [-> Hin]. rewrite Hempty in Hin.
    by apply empty_not_allowed in Hin.
  - split; [by intros [= <-]|]. by intros [-> _].
  - split; [discriminate|]. by intros [-> ?].
Qed.

Lemma normalizeDataScope_Err scope :
  (∃ e, normalizeDataScope scope = Err e) ↔
  normalizedScope scope ∉ knowsAllowedDataScopes.
Proof.
  unfold normalizeDataScope, normalizedScope.
  case_bool_decide as Hempty; [|case_bool_decide as Hin].
  - split; [|eauto]. intros _. rewrite Hempty. apply empty_not_allowed.
  - split; [by intros [e [=]]|done].
  - split; [done|eauto].
Qed.

Lemma normalizeDataScope_allowed x :
  x ∈ knowsAllowedDataScopes → normalizeDataScope x = Ok x.
Proof.
  rewrite allowed_cases. intros [-> | [-> | [-> | ->]]]; reflexivity.
Qed.

Lemma filter_notin_cons_in (out : list string) n (X : list string) :
  n ∈ out → filter (λ y, y ∉ out) (n :: filter (λ y, y ≠ n) X) = filter (λ y, y ∉ out) X.
Proof.
  intros Hn. rewrite filter_cons_False by (intros ?; done).
  rewrite list_filter_filter. apply list_filter_iff. intros y. split; [tauto|].
  intros Hy. split; [done|]. intros ->. done.
Qed.

Lemma filter_notin_snoc (out : list string) n (X : list string) :
  filter (λ y, y ∉ out ++ [n]) X = filter (λ y, y ∉ out) (filter (λ y, y ≠ n) X).
Proof.
  rewrite list_filter_filter. apply list_filter_iff. intros y.
  rewrite elem_of_app, list_elem_of_singleton. tauto.
Qed.

Lemma normalizeDataScopesLoop_Ok scopes : ∀ out seen res,
  (∀ x, x ∈ seen ↔ x ∈ out) →
  normalizeDataScopesLoop scopes out seen = Ok res →
  res = out ++ filter (λ y, y ∉ out) (firstOccurrences (normalizedScope <$> scopes))
  ∧ ∀ s, s ∈ scopes → normalizedScope s ∈ knowsAllowedDataScopes.
Proof.
  induction scopes as [|scope rest IH]; intros out seen res Hseen; simpl.
  - intros [= <-]. split; [by rewrite app_nil_r|]. by intros s ?%elem_of_nil.
  - destruct (normalizeDataScope scope) as [n|e] eqn:Hn; simpl; [|discriminate].
    apply normalizeDataScope_Ok in Hn as [-> Hin].
    case_bool_decide as Hs; intros Hloop.
    + apply IH in Hloop as [-> Hall]; [|done]. split.
      * f_equal. symmetry. apply filter_notin_cons_in. by apply Hseen.
      * intros s [->|?]%elem_of_cons; auto.
    + apply IH in Hloop as [-> Hall].
      * split; [|intros s [->|?]%elem_of_cons; auto].
        rewrite <- app_assoc. f_equal. simpl.
        rewrite filter_cons_True by (by rewrite <- Hseen).
        f_equal. apply filter_notin_snoc.
      * intros x. rewrite elem_of_union, elem_of_singleton, elem_of_app,
          list_elem_of_singleton, Hseen. tauto.
Qed.

Lemma firstOccurrences_elem (l : list string) x : x ∈ firstOccurrences l ↔ x ∈ l.
Proof.
  induction l as [|a l IH]; simpl; [done|].
  rewrite !elem_of_cons, list_elem_of_filter, IH.
  destruct (decide (x = a)); tauto.
Qed.

Lemma firstOccurrences_NoDup (l : list string) : NoDup (firstOccurrences l).
Proof.
  induction l as [|a l IH]; simpl; [constructor|].
  constructor; [|by apply NoDup_filter].
  rewrite list_elem_of_filter. tauto.
Qed.

Lemma filter_notin_nil (X : list string) : filter (λ y, y ∉ []) X = X.
Proof.
  induction X as [|a X IH]; [done|].
  rewrite filter_cons_True by apply not_elem_of_nil. by rewrite IH.
Qed.

Lemma normalizeDataScopesLoop_allowed l : ∀ out seen,
  NoDup l → (∀ x, x ∈ l → x ∈ knowsAllowedDataScopes ∧ x ∉ seen) →
  normalizeDataScopesLoop l out seen = Ok (out ++ l).
Proof.
  induction l as [|a l IH]; intros out seen Hnd Hall; simpl.
  - by rewrite app_nil_r.
  - apply NoDup_cons in Hnd as [Ha Hnd].
    destruct (Hall a) as [Hin Hseen]; [left|].
    rewrite (normalizeDataScope_allowed a Hin). simpl.
    rewrite bool_decide_eq_false_2 by done.
    rewrite IH; [by rewrite <- app_assoc|done|].
    intros x Hx. destruct (Hall x) as [? ?]; [by right|]. split; [done|].
    rewrite elem_of_union, elem_of_singleton. intros [->|?]; done.
Qed.

(** C10: a scope list that normalizes successfully comes out as the
    trimmed and uppercased scopes at their first occurrences, so without
    duplicates and inside the allowed set, and normalizing the output again
    returns it unchanged. *)
Theorem normalizeDataScopes_dedup_idempotent (scopes out : list string) :
  normalizeDataScopes scopes = Ok out →
  out = firstOccurrences (normalizedScope <$> scopes)
  ∧ NoDup out
  ∧ (∀ x, x ∈ out → x ∈ knowsAllowedDataScopes)
  ∧ normalizeDataScopes out = Ok out.
Proof.
  intros Hn.
  assert (out = firstOccurrences (normalizedScope <$> scopes)
          ∧ ∀ s, s ∈ scopes → normalizedScope s ∈ knowsAllowedDataScopes)
    as [-> Hall].
  { destruct scopes as [|s rest]; [injection Hn as <-; split; [done|]; by intros ? ?%elem_of_nil|].
    unfold normalizeDataScopes in Hn.
    apply normalizeDataScopesLoop_Ok in Hn as [-> Hall]; [|intros x; rewrite elem_of_nil; set_solver].
    split; [|done]. simpl app. apply filter_notin_nil. }
  assert (∀ x, x ∈ firstOccurrences (normalizedScope <$> scopes) → x ∈ knowsAllowedDataScopes) as Hallowed.
  { intros x. rewrite firstOccurrences_elem, list_elem_of_fmap. intros (s & -> & Hs). auto. }
  split; [done|]. split; [apply firstOccurrences_NoDup|]. split; [done|].
  pose proof (firstOccurrences_NoDup (normalizedScope <$> scopes)) as Hnd.
  destruct (firstOccurrences (normalizedScope <$> scopes)) as [|a l] eqn:E; [done|].
  unfold normalizeDataScopes.
  rewrite normalizeDataScopesLoop_allowed; [done|done|].
  intros x Hx. split; [auto|apply not_elem_of_empty].
Qed.

Lemma normalizeDataScopesLoop_Err scopes : ∀ out seen,
  (∃ e, normalizeDataScopesLoop scopes out seen = Err e) ↔
  ∃ s, s ∈ scopes ∧ normalizedScope s ∉ knowsAllowedDataScopes.
Proof.
  induction scopes as [|scope rest IH]; intros out seen; simpl.
  - split; [by intros [e [=]]|]. by intros (s & ?%elem_of_nil & _).
  - destruct (normalizeDataScope scope) as [n|e] eqn:Hn; simpl.
    + apply normalizeDataScope_Ok in Hn as [-> Hin].
      assert ((∃ s, s ∈ scope :: rest ∧ normalizedScope s ∉ knowsAllowedDataScopes)
              ↔ ∃ s, s ∈ rest ∧ normalizedScope s ∉ knowsAllowedDataScopes) as ->.
      { split; intros (s & Hs & Hbad).
        - apply elem_of_cons in Hs as [->|Hs]; [done|eauto].
        - exists s. split; [by right|done]. }
      case_bool_decide; apply IH.
    + split; [|eauto]. intros _. exists scope. split; [left|].
      apply normalizeDataScope_Err. eauto.
Qed.

Lemma normalizeDataScopes_Err scopes :
  (∃ e, normalizeDataScopes scopes = Err e) ↔
  ∃ s, s ∈ scopes ∧ normalizedScope s ∉ knowsAllowedDataScopes.
Proof.
  destruct scopes as [|s rest].
  - split; [by intros [e [=]]|]. by intros (s & ?%elem_of_nil & _).
  - apply normalizeDataScopesLoop_Err.
Qed.

End ValidationFacts.

(** ** Construction *)

Section ConstructionFacts.
Context `{GoLibrary}.

(** C5, as the code has it: construction returns an error exactly when
    the trimmed API key is empty, the trimmed base URL is empty, or some
    default scope is, after trimming and uppercasing, outside the allowed
    set; and in the tool set it returns, a request timeout, retry backoff,
    batch concurrency, cache TTL or cache size that is not positive is
    replaced by its default, and a retry count is replaced by its default
    only when it is negative. *)
Theorem NewKnowsTools_fails_iff_and_defaults (opts : KnowsToolOptions) :
  ((∃ e, NewKnowsTools opts = Err e) ↔
     strings.TrimSpace (APIKey opts) = EmptyString
     ∨ strings.TrimSpace (APIBaseURL opts) = EmptyString
     ∨ ∃ s, s ∈ DefaultDataScope opts
            ∧ normalizedScope s ∉ knowsAllowedDataScopes)
  ∧ ∀ f, NewKnowsTools opts = Ok f →
      httpTimeout (client f)
        = (if RequestTimeout opts <=? 0 then defaultKnowsRequestTimeout
           else RequestTimeout opts)
      ∧ maxRetries (client f)
        = (if MaxRetries opts <? 0 then defaultKnowsMaxRetries
           else MaxRetries opts)
      ∧ retryBackoff (client f)
        = (if RetryBackoff opts <=? 0 then defaultKnowsRetryBackoff
           else RetryBackoff opts)
      ∧ batchConcurrency f
        = (if BatchConcurrency opts <=? 0 then defaultKnowsBatchLimit
           else BatchConcurrency opts)
      ∧ ttl (cache (client f))
        = (if CacheTTL opts <=? 0 then defaultKnowsCacheTTL else CacheTTL opts)
      ∧ maxEntries (cache (client f))
        = (if CacheMaxEntries opts <=? 0 then defaultKnowsCacheEntries
           else CacheMaxEntries opts).
Proof.
  split.
  - unfold NewKnowsTools.
    case_bool_decide as Hkey; [split; eauto|].
    case_bool_decide as Hurl; [split; eauto|].
    pose proof (normalizeDataScopes_Err (DefaultDataScope opts)) as Hscopes.
    destruct (normalizeDataScopes (DefaultDataScope opts)) as [scope|e].
    + split; [by intros [e [=]]|].
      intros [?|[?|Hbad]]; [done..|]. apply Hscopes in Hbad as [e [=]].
    + split; [|eauto]. intros _. right. right. apply Hscopes. eauto.
  - intros f. unfold NewKnowsTools.
    case_bool_decide; [discriminate|]. case_bool_decide; [discriminate|].
    destruct (normalizeDataScopes (DefaultDataScope opts)); [|discriminate].
    by intros [= <-].
Qed.

End ConstructionFacts.

Lemma normalizeDataScopes_dedup_idempotent_witness :
  let out := ["GUIDE"; "PAPER"] in
  @normalizeDataScopes exampleLibrary [" guide"; "paper"; "GUIDE "] = Ok out
  ∧ NoDup out
  ∧ @normalizeDataScopes exampleLibrary out = Ok out.
Proof.
  assert (@normalizeDataScopes exampleLibrary [" guide"; "paper"; "GUIDE "]
          = Ok ["GUIDE"; "PAPER"]) as Hrun by reflexivity.
  split; [exact Hrun|].
  destruct (@normalizeDataScopes_dedup_idempotent exampleLibrary _ _ Hrun)
    as (_ & Hnd & _ & Hidem).
  split; [exact Hnd|exact Hidem].
Defined.

(** C5 as the specification words it fails: a retry count of zero is not
    positive, and construction keeps it instead of the default of three;
    and a scope written [" guide"], which is not one of the four allowed
    strings, is accepted, because scopes are trimmed and uppercased
    first. *)
Lemma NewKnowsTools_keeps_zero_retries :
  ∃ f, @NewKnowsTools exampleLibrary zeroOptions = Ok f
       ∧ MaxRetries zeroOptions <= 0
       ∧ maxRetries (client f) = 0
       ∧ maxRetries (client f) ≠ defaultKnowsMaxRetries
       ∧ " guide" ∈ DefaultDataScope zeroOptions
       ∧ " guide" ∉ knowsAllowedDataScopes.
Proof.
  eexists. split; [reflexivity|]. simpl.
  split; [lia|]. split; [done|]. split; [done|]. split; [left|].
  rewrite allowed_cases. intros [|[|[|]]]; discriminate.
Qed.

Lemma NewKnowsTools_fails_iff_and_defaults_witness :
  (∃ f, @NewKnowsTools exampleLibrary zeroOptions = Ok f
        ∧ httpTimeout (client f) = defaultKnowsRequestTimeout
        ∧ maxRetries (client f) = 0
        ∧ maxEntries (cache (client f)) = defaultKnowsCacheEntries)
  ∧ (∃ e, @NewKnowsTools exampleLibrary blankKeyOptions = Err e)
  ∧ (∃ e, @NewKnowsTools exampleLibrary badScopeOptions = Err e).
Proof.
  split; [|split].
  - assert (∃ f, @NewKnowsTools exampleLibrary zeroOptions = Ok f) as [f Hf]
      by (eexists; reflexivity).
    exists f. split; [exact Hf|].
    destruct (@NewKnowsTools_fails_iff_and_defaults exampleLibrary zeroOptions)
      as (_ & Hfields).
    destruct (Hfields f Hf) as (Ht & Hr & _ & _ & _ & Hm).
    split; [exact Ht|]. split; [exact Hr|exact Hm].
  - destruct (@NewKnowsTools_fails_iff_and_defaults exampleLibrary
                blankKeyOptions) as ([_ Hfails] & _).
    apply Hfails. left. reflexivity.
  - destruct (@NewKnowsTools_fails_iff_and_defaults exampleLibrary
                badScopeOptions) as ([_ Hfails] & _).
    apply Hfails. right. right. exists "book". split.
    + right. left.
    + apply (bool_decide_unpack _). vm_compute. exact I.
Defined.

(** ** The detail cache *)

Section CacheFacts.
Implicit Types (c : knowsDetailCache) (k key : string) (v : value).

Lemma newKnowsDetailCache_inv t n : cacheInv (newKnowsDetailCache t n).
Proof.
  unfold cacheInv; simpl. split; [constructor|]. split.
  - intros k. rewrite lookup_empty, elem_of_nil. split; [done|by intros [? ?]].
  - rewrite map_size_empty. lia.
Qed.

Lemma removeFirst_elem key (ord : list string) x :
  NoDup ord → x ∈ removeFirst key ord ↔ x ∈ ord ∧ x ≠ key.
Proof.
  induction ord as [|a ord IH]; simpl; intros Hnd.
  - rewrite elem_of_nil. tauto.
  - apply NoDup_cons in Hnd as [Ha Hnd]. case_bool_decide as Hk.
    + subst a. rewrite elem_of_cons. split; [|tauto].
      intros Hx. split; [by right|]. by intros ->.
    + rewrite !elem_of_cons, IH by done. split; [|tauto].
      intros [->|[? ?]]; tauto.
Qed.

Lemma removeFirst_NoDup key (ord : list string) :
  NoDup ord → NoDup (removeFirst key ord).
Proof.
  induction ord as [|a ord IH]; simpl; intros Hnd; [done|].
  apply NoDup_cons in Hnd as [Ha Hnd]. case_bool_decide; [done|].
  apply NoDup_cons. split; [|auto]. rewrite removeFirst_elem by done. tauto.
Qed.

Lemma deleteLocked_inv c key : cacheInv c → cacheInv (deleteLocked c key).
Proof.
  intros (Hnd & Hdom & Hsize). unfold cacheInv; simpl.
  split; [by apply removeFirst_NoDup|]. split.
  - intros k. rewrite removeFirst_elem, Hdom by done.
    destruct (decide (k = key)) as [->|Hne].
    + rewrite lookup_delete_eq. split; [tauto|by intros [? ?]].
    + rewrite lookup_delete_ne by done. tauto.
  - pose proof (map_size_delete key (entries c)) as Hd.
    destruct (entries c !! key); simpl in Hd; lia.
Qed.

Lemma Get_inv c now key : cacheInv c → cacheInv (Get c now key).2.
Proof.
  intros Hinv. unfold Get. destruct (entries c !! key) as [e|]; [|done].
  destruct (expiresAt e <? now); [|done]. by apply deleteLocked_inv.
Qed.

Lemma evictOldest_spec (cap : Z) (ord : list string) :
  ∀ es : gmap string knowsCacheEntry,
  NoDup ord → (∀ k, k ∈ ord ↔ is_Some (es !! k)) →
  NoDup (evictOldest cap es ord).2
  ∧ (∀ k, k ∈ (evictOldest cap es ord).2
          ↔ is_Some ((evictOldest cap es ord).1 !! k))
  ∧ (0 < cap → Z.of_nat (size (evictOldest cap es ord).1) < cap)
  ∧ (evictOldest cap es ord).1 ⊆ es.
Proof.
  induction ord as [|oldest rest IH]; intros es Hnd Hdom; simpl.
  - split; [done|]. split; [done|]. split; [|done]. intros Hcap.
    assert (es = ∅) as ->.
    { apply map_eq. intros k. rewrite lookup_empty.
      destruct (es !! k) eqn:E; [|done].
      assert (k ∈ @nil string) as ?%elem_of_nil by (apply Hdom; eauto). done. }
    rewrite map_size_empty. lia.
  - destruct (cap <=? Z.of_nat (size es)) eqn:Hfull; simpl.
    + apply NoDup_cons in Hnd as [Hold Hnd].
      destruct (IH (delete oldest es)) as (? & ? & ? & Hsub); [done| |].
      { intros k. destruct (decide (k = oldest)) as [->|Hne].
        * rewrite lookup_delete_eq. split; [done|by intros [? ?]].
        * rewrite lookup_delete_ne by done. rewrite <- Hdom, elem_of_cons. tauto. }
      split; [done|]. split; [done|]. split; [done|].
      etrans; [exact Hsub|apply delete_subseteq].
    + split; [done|]. split; [done|]. split; [lia|done].
Qed.

(** At exactly full capacity one pass of the loop makes room. *)
Lemma evictOldest_full (cap : Z) (es : gmap string knowsCacheEntry) oldest rest :
  is_Some (es !! oldest) → Z.of_nat (size es) = cap →
  evictOldest cap es (oldest :: rest) = (delete oldest es, rest).
Proof.
  intros Hold Hsize. simpl.
  rewrite (proj2 (Z.leb_le _ _)) by lia.
  assert (size es ≠ 0%nat) as Hne.
  { intros E. apply map_size_empty_inv in E. subst es.
    rewrite lookup_empty in Hold. by destruct Hold. }
  pose proof (map_size_delete_Some oldest es Hold) as Hd.
  destruct rest as [|next rest]; simpl; [done|].
  rewrite (proj2 (Z.leb_gt _ _)) by lia. done.
Qed.

Lemma evictOldest_room (cap : Z) (es : gmap string knowsCacheEntry) ord :
  Z.of_nat (size es) < cap → evictOldest cap es ord = (es, ord).
Proof.
  intros Hroom. destruct ord as [|a ord]; simpl; [done|].
  by rewrite (proj2 (Z.leb_gt _ _)) by lia.
Qed.

Lemma Set_inv c now key v : cacheInv c → cacheInv (Set_ c now key v).
Proof.
  intros (Hnd & Hdom & Hsize). unfold Set_.
  destruct (maxEntries c <=? 0) eqn:Hcap; [done|].
  apply Z.leb_gt in Hcap.
  destruct (entries c !! key) as [e|] eqn:Hkey.
  - unfold cacheInv; simpl. split; [done|]. split.
    + intros k. destruct (decide (k = key)) as [->|Hne].
      * rewrite lookup_insert_eq, Hdom, Hkey. done.
      * rewrite lookup_insert_ne by done. apply Hdom.
    + rewrite map_size_insert_Some by eauto. done.
  - pose proof (evictOldest_spec (maxEntries c) (order c) (entries c) Hnd Hdom)
      as (Hnd' & Hdom' & Hroom & Hsub).
    destruct (evictOldest (maxEntries c) (entries c) (order c)) as [es ord] eqn:E.
    simpl in *. unfold cacheInv; simpl.
    assert (es !! key = None) as Hfresh.
    { destruct (es !! key) eqn:Hes; [|done].
      eapply lookup_weaken in Hes; [|exact Hsub]. congruence. }
    split; [|split].
    + apply NoDup_app. split; [done|]. split; [|apply NoDup_singleton].
      intros x Hx ->%list_elem_of_singleton. apply Hdom' in Hx.
      rewrite Hfresh in Hx. by destruct Hx.
    + intros k. rewrite elem_of_app, list_elem_of_singleton.
      destruct (decide (k = key)) as [->|Hne].
      * rewrite lookup_insert_eq. split; [eauto|tauto].
      * rewrite lookup_insert_ne by done. rewrite Hdom'. tauto.
    + rewrite map_size_insert_None by done. specialize (Hroom Hcap). lia.
Qed.

Lemma Set_entries c now key v :
  0 < maxEntries c →
  entries (Set_ c now key v) !! key
  = Some {| value_ := v; expiresAt := now + ttl c |}
  ∧ ttl (Set_ c now key v) = ttl c
  ∧ maxEntries (Set_ c now key v) = maxEntries c.
Proof.
  intros Hcap. unfold Set_. rewrite (proj2 (Z.leb_gt _ _)) by done.
  destruct (entries c !! key); [|destruct (evictOldest _ _ _)]; simpl;
    by rewrite lookup_insert_eq.
Qed.

Lemma Get_hit c now key e :
  entries c !! key = Some e → now ≤ expiresAt e →
  Get c now key = (value_ e, true, c).
Proof.
  intros He Hlive. unfold Get. rewrite He.
  by rewrite (proj2 (Z.ltb_ge _ _)) by done.
Qed.

Lemma Get_expired c now key e :
  entries c !! key = Some e → expiresAt e < now →
  Get c now key = (VNil, false, deleteLocked c key).
Proof.
  intros He Hdead. unfold Get. rewrite He.
  by rewrite (proj2 (Z.ltb_lt _ _)) by done.
Qed.

Lemma Get_found c now key v c' :
  Get c now key = (v, true, c') →
  c' = c ∧ ∃ e, entries c !! key = Some e ∧ value_ e = v ∧ now ≤ expiresAt e.
Proof.
  unfold Get. destruct (entries c !! key) as [e|]; [|discriminate].
  destruct (expiresAt e <? now) eqn:Hnow; [discriminate|].
  apply Z.ltb_ge in Hnow. intros [= <- <-]. eauto.
Qed.

Lemma Get_after_Set c tSet now key v :
  0 < maxEntries c → now ≤ tSet + ttl c →
  Get (Set_ c tSet key v) now key = (v, true, Set_ c tSet key v).
Proof.
  intros Hcap Hnow. destruct (Set_entries c tSet key v Hcap) as (He & _ & _).
  by rewrite (Get_hit _ _ _ _ He).
Qed.

(** C3, as the code has it: on a cache of positive capacity, a [Get]
    directly after [Set] returns the value as long as the expiry timestamp
    has not passed; once it has passed, [Get] reports the key as absent and
    removes it from the entries and from the insertion order, after which
    it no longer counts toward the capacity; and [Get] never returns an
    entry whose expiry timestamp has passed. *)
Theorem cache_get_after_set_and_expiry c key v (tSet now : Z) :
  cacheInv c → 0 < maxEntries c →
  let c1 := Set_ c tSet key v in
  (now ≤ tSet + ttl c → Get c1 now key = (v, true, c1))
  ∧ (tSet + ttl c < now →
       ∃ c2, Get c1 now key = (VNil, false, c2)
             ∧ entries c2 !! key = None
             ∧ (key ∉ order c2)
             ∧ S (size (entries c2)) = size (entries c1)
             ∧ (∀ k, k ≠ key → entries c2 !! k = entries c1 !! k)
             ∧ cacheInv c2)
  ∧ (∀ c0 t k v0 c0',
       Get c0 t k = (v0, true, c0') →
       ∃ e, entries c0 !! k = Some e ∧ value_ e = v0 ∧ t ≤ expiresAt e).
Proof.
  intros Hinv Hcap c1. split; [|split].
  - by apply Get_after_Set.
  - intros Hdead. destruct (Set_entries c tSet key v Hcap) as (He & _ & _).
    fold c1 in He. exists (deleteLocked c1 key).
    assert (cacheInv c1) as Hinv1 by (apply Set_inv; done).
    split; [by apply (Get_expired _ _ _ _ He)|]. simpl.
    split; [apply lookup_delete_eq|]. split; [|split; [|split]].
    + destruct Hinv1 as (Hnd & _ & _). rewrite removeFirst_elem by done. tauto.
    + rewrite map_size_delete_Some by eauto.
      assert (size (entries c1) ≠ 0%nat); [|lia].
      intros E%map_size_empty_inv. by rewrite E, lookup_empty in He.
    + intros k Hk. by apply lookup_delete_ne.
    + by apply deleteLocked_inv.
  - intros c0 t k v0 c0' Hget. by apply Get_found in Hget as [_ ?].
Qed.

(** C3 as the specification words it fails: at tick 12 the entry of [b]
    has outlived its TTL without having been read; it still fills a slot,
    so that setting [c] evicts [a], whose TTL has not elapsed, and keeps
    [b]. *)
Lemma expired_entry_still_counts :
  let c := refreshedCache in
  (∃ e, entries c !! "b" = Some e ∧ expiresAt e < 12)
  ∧ (∃ e, entries c !! "a" = Some e ∧ 12 ≤ expiresAt e)
  ∧ size (liveEntries c 12) = 1%nat
  ∧ maxEntries c = 2
  ∧ entries (Set_ c 12 "c" (VStr "third")) !! "a" = None
  ∧ is_Some (entries (Set_ c 12 "c" (VStr "third")) !! "b")
  ∧ Get (Set_ c 12 "c" (VStr "third")) 12 "a"
    = (VNil, false, Set_ c 12 "c" (VStr "third")).
Proof.
  cbv zeta. split; [|split; [|split; [|split; [|split; [|split]]]]].
  - eexists. split; [vm_compute; reflexivity|]. simpl. lia.
  - eexists. split; [vm_compute; reflexivity|]. simpl. lia.
  - vm_compute. reflexivity.
  - reflexivity.
  - vm_compute. reflexivity.
  - eexists. vm_compute. reflexivity.
  - vm_compute. reflexivity.
Qed.

Lemma cache_get_after_set_and_expiry_witness :
  let c := newKnowsDetailCache 10 2 in
  Get (Set_ c 0 "a" (VStr "first")) 10 "a"
  = (VStr "first", true, Set_ c 0 "a" (VStr "first"))
  ∧ ∃ c2, Get (Set_ c 0 "a" (VStr "first")) 11 "a" = (VNil, false, c2)
          ∧ entries c2 !! "a" = None.
Proof.
  cbv zeta.
  destruct (cache_get_after_set_and_expiry (newKnowsDetailCache 10 2) "a"
              (VStr "first") 0 10 (newKnowsDetailCache_inv 10 2) eq_refl)
    as (Hlive & _ & _).
  destruct (cache_get_after_set_and_expiry (newKnowsDetailCache 10 2) "a"
              (VStr "first") 0 11 (newKnowsDetailCache_inv 10 2) eq_refl)
    as (_ & Hdead & _).
  split.
  - apply Hlive. simpl. lia.
  - destruct Hdead as (c2 & Hget & Hgone & _); [simpl; lia|]. eauto.
Defined.

Lemma liveEntries_full c now :
  cacheInv c → 0 < maxEntries c →
  Z.of_nat (size (liveEntries c now)) = maxEntries c →
  Z.of_nat (size (entries c)) = maxEntries c.
Proof.
  intros (_ & _ & Hsize) Hcap Hlive.
  pose proof (map_size_filter (λ kv, now ≤ expiresAt kv.2) (entries c)) as Hle.
  unfold liveEntries in Hlive. lia.
Qed.

(** C4: on a cache that holds [maxEntries] live entries, [Set] on an
    absent key removes exactly the head of the insertion order, appends the
    new key, which is then retrievable, and leaves the number of entries at
    [maxEntries]; [Set] on a present key replaces its value and expiry and
    leaves the insertion order alone; a [Get] that finds its key changes
    nothing; the invariant, and with it the capacity bound, is kept.  The
    head of the insertion order is the key inserted first: below the
    capacity [Set] on an absent key appends it and removes nothing. *)
Theorem set_at_capacity_evicts_first_inserted c key v (now : Z) :
  cacheInv c → 0 < maxEntries c →
  let c' := Set_ c now key v in
  let entry := {| value_ := v; expiresAt := now + ttl c |} in
  (Z.of_nat (size (liveEntries c now)) = maxEntries c →
   entries c !! key = None →
   ∃ oldest rest,
     order c = oldest :: rest
     ∧ order c' = rest ++ [key]
     ∧ entries c' = <[key := entry]> (delete oldest (entries c))
     ∧ entries c' !! oldest = None
     ∧ (∀ k, k ≠ oldest → k ≠ key → entries c' !! k = entries c !! k)
     ∧ (∀ t, t ≤ now + ttl c → Get c' t key = (v, true, c'))
     ∧ Z.of_nat (size (entries c')) = maxEntries c)
  ∧ (is_Some (entries c !! key) →
     order c' = order c ∧ entries c' = <[key := entry]> (entries c))
  ∧ (Z.of_nat (size (entries c)) < maxEntries c →
     entries c !! key = None →
     order c' = order c ++ [key] ∧ entries c' = <[key := entry]> (entries c))
  ∧ (∀ t k v0 c0, Get c t k = (v0, true, c0) → c0 = c)
  ∧ cacheInv c'
  ∧ Z.of_nat (size (entries c')) ≤ maxEntries c.
Proof.
  intros Hinv Hcap c' entry.
  assert (cacheInv c') as Hinv' by (apply Set_inv; done).
  split; [|split; [|split; [|split; [|split]]]]; [| | | |done|].
  - intros Hlive Hfresh.
    pose proof (liveEntries_full c now Hinv Hcap Hlive) as Hfull.
    destruct Hinv as (Hnd & Hdom & _).
    destruct (order c) as [|oldest rest] eqn:Hord.
    { assert (entries c = ∅) as Hempty.
      { apply map_eq. intros k. rewrite lookup_empty.
        destruct (entries c !! k) eqn:E; [|done].
        assert (k ∈ @nil string) as ?%elem_of_nil by (apply Hdom; eauto). done. }
      rewrite Hempty, map_size_empty in Hfull. lia. }
    assert (is_Some (entries c !! oldest)) as Hold by (apply Hdom; left).
    assert (oldest ≠ key) as Hne by (intros ->; rewrite Hfresh in Hold; by destruct Hold).
    exists oldest, rest. split; [done|].
    assert (order c' = rest ++ [key] ∧
            entries c' = <[key := entry]> (delete oldest (entries c))) as [Ho He].
    { subst c' entry. unfold Set_. rewrite (proj2 (Z.leb_gt _ _)) by done.
      rewrite Hfresh, Hord, (evictOldest_full _ _ _ _ Hold Hfull). done. }
    split; [done|]. split; [done|]. rewrite He. split; [|split; [|split]].
    + rewrite lookup_insert_ne by done. apply lookup_delete_eq.
    + intros k Hk1 Hk2. rewrite lookup_insert_ne by done.
      by rewrite lookup_delete_ne.
    + intros t Ht. by apply Get_after_Set.
    + rewrite map_size_insert_None
        by (rewrite lookup_delete_ne by done; done).
      rewrite map_size_delete_Some by done.
      assert (size (entries c) ≠ 0%nat); [|lia].
      intros E%map_size_empty_inv. rewrite E, lookup_empty in Hold.
      by destruct Hold.
  - intros [e He]. subst c' entry. unfold Set_.
    rewrite (proj2 (Z.leb_gt _ _)) by done. by rewrite He.
  - intros Hroom Hfresh. subst c' entry. unfold Set_.
    rewrite (proj2 (Z.leb_gt _ _)) by done.
    by rewrite Hfresh, evictOldest_room.
  - intros t k v0 c0 Hget. by apply Get_found in Hget as [? _].
  - destruct Hinv' as (_ & _ & Hsize).
    assert (maxEntries c' = maxEntries c) as Hm
      by (by destruct (Set_entries c now key v Hcap) as (_ & _ & ?)).
    rewrite Hm in Hsize. lia.
Qed.

Lemma set_at_capacity_evicts_first_inserted_witness :
  let c := refreshedCache in
  order c = ["a"; "b"]
  ∧ order (Set_ c 9 "c" (VStr "third")) = ["b"; "c"]
  ∧ entries (Set_ c 9 "c" (VStr "third")) !! "a" = None.
Proof.
  cbv zeta.
  assert (cacheInv refreshedCache) as Hinv
    by (repeat apply Set_inv; apply newKnowsDetailCache_inv).
  destruct (set_at_capacity_evicts_first_inserted refreshedCache "c"
              (VStr "third") 9 Hinv eq_refl) as (Hevict & _).
  destruct Hevict as (oldest & rest & Hord & Hord' & _ & Hgone & _).
  - vm_compute. reflexivity.
  - vm_compute. reflexivity.
  - assert (order refreshedCache = ["a"; "b"]) as Hab by (vm_compute; reflexivity).
    rewrite Hab in Hord. injection Hord as <- <-.
    split; [done|]. split; [exact Hord'|exact Hgone].
Defined.

End CacheFacts.

(** ** The HTTP client *)

Section ClientFacts.
Context `{GoLibrary}.
Implicit Types (c : knowsClient) (w : world) (rt : roundTrip).

Lemma shouldRetry_true c attempt statusCode err :
  shouldRetry c attempt statusCode err = true →
  attempt < maxRetries c
  ∧ match err with
    | Some e => errorsIs e ctxCanceled || errorsIs e ctxDeadlineExceeded = false
    | None => 500 ≤ statusCode ≤ 599
    end.
Proof.
  unfold shouldRetry. destruct (maxRetries c <=? attempt) eqn:Hlast; [done|].
  apply Z.leb_gt in Hlast. intros Hretry. split; [done|].
  destruct err as [e|].
  - by destruct (errorsIs e ctxCanceled || errorsIs e ctxDeadlineExceeded).
  - apply andb_true_iff in Hretry as [?%Z.leb_le ?%Z.leb_le]. lia.
Qed.

Lemma retryOrFail_continue c w attempt statusCode err lastErr e :
  retryOrFail c w attempt statusCode err lastErr = loopContinue e →
  shouldRetry c attempt statusCode err = true
  ∧ waitRetry (ctxDone w attempt) (selectDone w attempt) (retryBackoff c) attempt
    = None
  ∧ e = lastErr.
Proof.
  unfold retryOrFail. destruct (shouldRetry _ _ _ _); [|discriminate].
  destruct (waitRetry _ _ _ _); [discriminate|]. by intros [= <-].
Qed.

Lemma postAttempt_seen c w path url data attempt :
  (postAttempt c w path url data attempt).2
  = match NewRequest w url with
    | Some _ => []
    | None => [Do w attempt url data]
    end.
Proof. unfold postAttempt. by destruct (NewRequest w url). Qed.

Lemma postAttempt_continue c w path url data attempt e seen :
  postAttempt c w path url data attempt = (loopContinue e, seen) →
  NewRequest w url = None
  ∧ seen = [Do w attempt url data]
  ∧ retryable (Do w attempt url data) = true
  ∧ attempt < maxRetries c.
Proof.
  unfold postAttempt. destruct (NewRequest w url); [discriminate|].
  intros [= Hstep <-]. split; [done|]. split; [done|].
  destruct (Do w attempt url data) as [err|status [body|readErr]]; simpl.
  - apply retryOrFail_continue in Hstep as (Hretry & _ & _).
    apply shouldRetry_true in Hretry as [? ->]. done.
  - destruct ((status <? 200) || (300 <=? status)); [|discriminate].
    apply retryOrFail_continue in Hstep as (Hretry & _ & _).
    apply shouldRetry_true in Hretry as [? ?]. split; [|done].
    apply andb_true_iff. split; apply Z.leb_le; lia.
  - apply retryOrFail_continue in Hstep as (Hretry & _ & _).
    apply shouldRetry_true in Hretry as [? ->]. done.
Qed.

Lemma postLoop_nonempty c w path url data n attempt lastErr :
  NewRequest w url = None → n ≠ 0%nat →
  (postLoop c w path url data n attempt lastErr).2 ≠ [].
Proof.
  intros Hreq Hn. destruct n as [|n]; [done|]. simpl.
  pose proof (postAttempt_seen c w path url data attempt) as Hseen.
  rewrite Hreq in Hseen.
  destruct (postAttempt c w path url data attempt) as [[r|e] seen];
    simpl in Hseen; subst seen; [done|].
  by destruct (postLoop c w path url data n (attempt + 1) (Some e)).
Qed.

(** The exchanges of a run: the one at position [j] is attempt
    [attempt + j]; every one but the last was retryable; the last one ended
    its iteration with the result of the run. *)
Lemma postLoop_spec c w path url data n : ∀ attempt lastErr r seen,
  maxRetries c + 1 ≤ attempt + Z.of_nat n →
  postLoop c w path url data n attempt lastErr = (r, seen) →
  (length seen ≤ n)%nat
  ∧ ∀ j rt, seen !! j = Some rt →
      rt = Do w (attempt + Z.of_nat j) url data
      ∧ NewRequest w url = None
      ∧ ((S j < length seen)%nat → retryable rt = true)
      ∧ ((S j = length seen)%nat →
         postAttempt c w path url data (attempt + Z.of_nat j)
         = (loopReturn r, [rt])).
Proof.
  induction n as [|n IH]; intros attempt lastErr r seen Hn; simpl.
  { intros [= <- <-]. split; [done|]. intros j rt Hj; by rewrite lookup_nil in Hj. }
  destruct (postAttempt c w path url data attempt) as [[r0|e] seen0] eqn:Hstep.
  - intros [= <- <-].
    pose proof (postAttempt_seen c w path url data attempt) as Hseen.
    rewrite Hstep in Hseen. simpl in Hseen.
    destruct (NewRequest w url) eqn:Hreq; subst seen0.
    { split; [simpl; lia|]. intros j rt Hj; by rewrite lookup_nil in Hj. }
    split; [simpl; lia|]. intros [|j] rt; [|intros Hj; simpl in Hj; by rewrite lookup_nil in Hj].
    intros [= <-]. rewrite Z.add_0_r. split; [done|]. split; [done|].
    split; [simpl; lia|]. by intros _.
  - apply postAttempt_continue in Hstep as (Hreq & -> & Hretry & Hmore).
    destruct (postLoop c w path url data n (attempt + 1) (Some e))
      as [r1 later] eqn:Hloop.
    intros [= <- <-].
    pose proof (postLoop_nonempty c w path url data n (attempt + 1) (Some e)
                  Hreq) as Hne.
    rewrite Hloop in Hne. simpl in Hne.
    apply IH in Hloop as [Hlen Hlater]; [|lia].
    split; [simpl; lia|]. intros [|j] rt; simpl.
    + intros [= <-]. rewrite Z.add_0_r. split; [done|]. split; [done|].
      split; [done|]. intros Hlast. destruct later; [|simpl in Hlast; lia].
      destruct Hne; [lia|done].
    + intros Hj. destruct (Hlater j rt Hj) as (-> & _ & Hmid & Hlast).
      replace (attempt + Z.of_nat (S j)) with (attempt + 1 + Z.of_nat j) by lia.
      split; [done|]. split; [done|]. split; [intros ?; apply Hmid; lia|].
      intros ?; apply Hlast; lia.
Qed.


Lemma postJSON_spec c w path payload r seen :
  postJSON c w path payload = (r, seen) →
  (length seen ≤ Z.to_nat (maxRetries c + 1))%nat
  ∧ ∀ j rt, seen !! j = Some rt →
      ∃ data,
        rt = Do w (Z.of_nat j) (baseURL c +:+ path) data
        ∧ ((S j < length seen)%nat → retryable rt = true)
        ∧ ((S j = length seen)%nat →
           postAttempt c w path (baseURL c +:+ path) data (Z.of_nat j)
           = (loopReturn r, [rt])).
Proof.
  unfold postJSON.
  destruct (json_Marshal (if isNil payload then VObj ∅ else payload))
    as [data|err].
  - intros Hloop. apply postLoop_spec in Hloop as [Hlen Hseen]; [|lia].
    split; [done|]. intros j rt Hj. exists data.
    destruct (Hseen j rt Hj) as (? & _ & ? & ?). done.
  - intros [= <- <-]. split; [simpl; lia|].
    intros j rt Hj. by rewrite lookup_nil in Hj.
Qed.

(** An exchange after which no retry is allowed is the last one. *)
Lemma postJSON_final c w path payload r seen j rt :
  postJSON c w path payload = (r, seen) →
  seen !! j = Some rt → retryable rt = false →
  length seen = S j
  ∧ ∃ data, postAttempt c w path (baseURL c +:+ path) data (Z.of_nat j)
            = (loopReturn r, [rt]).
Proof.
  intros Hrun Hj Hfinal.
  destruct (postJSON_spec _ _ _ _ _ _ Hrun) as [_ Hseen].
  destruct (Hseen j rt Hj) as (data & _ & Hmid & Hlast).
  pose proof (lookup_lt_Some _ _ _ Hj) as Hlt.
  assert (length seen = S j) as Hlen.
  { destruct (decide (S j < length seen)%nat) as [Hmore|]; [|lia].
    rewrite Hmid in Hfinal by done. done. }
  split; [done|]. exists data. by apply Hlast.
Qed.

Lemma postAttempt_inv c w path url data attempt step rt :
  postAttempt c w path url data attempt = (step, [rt]) →
  rt = Do w attempt url data
  ∧ step = match rt with
           | doError err =>
               retryOrFail c w attempt 0 (Some err)
                 (Errorf_w ("request to " +:+ path +:+ " failed: ") err)
           | doResponse StatusCode (Err readErr) =>
               retryOrFail c w attempt StatusCode (Some readErr)
                 (Errorf_w ("failed to read response from " +:+ path +:+ ": ")
                    readErr)
           | doResponse StatusCode (Ok body) =>
               if (StatusCode <? 200) || (300 <=? StatusCode) then
                 retryOrFail c w attempt StatusCode None
                   (statusError path StatusCode body)
               else loopReturn (decodeResponse path body)
           end.
Proof.
  unfold postAttempt. destruct (NewRequest w url); [discriminate|].
  by intros [= <- <-].
Qed.

Lemma retryOrFail_stop c w attempt statusCode err lastErr :
  shouldRetry c attempt statusCode err = false →
  retryOrFail c w attempt statusCode err lastErr = loopReturn (Err lastErr).
Proof. unfold retryOrFail. by intros ->. Qed.

Lemma shouldRetry_cancelled c attempt statusCode err :
  errorsIs err ctxCanceled || errorsIs err ctxDeadlineExceeded = true →
  shouldRetry c attempt statusCode (Some err) = false.
Proof. unfold shouldRetry. intros ->. by destruct (maxRetries c <=? attempt). Qed.

Lemma shouldRetry_status c attempt statusCode :
  ¬ (500 ≤ statusCode ≤ 599) → shouldRetry c attempt statusCode None = false.
Proof.
  unfold shouldRetry. intros Hs. destruct (maxRetries c <=? attempt); [done|].
  apply andb_false_iff.
  destruct (decide (500 ≤ statusCode)); [right|left]; [apply Z.leb_gt|apply Z.leb_gt]; lia.
Qed.




(** C6, as the code has it: an exchange that ends with a status from 200
    to 299 is the last one of the call; a body that is empty after trimming
    gives the empty object; any other body is decoded, and the result is the
    value of the top-level [data] field when the decoded value is an object
    that has this field with a value other than [nil], and the decoded
    value itself otherwise. *)
Theorem postJSON_success_body c w path payload r seen j StatusCode body :
  postJSON c w path payload = (r, seen) →
  seen !! j = Some (doResponse StatusCode (Ok body)) →
  200 ≤ StatusCode < 300 →
  length seen = S j
  ∧ (strings.TrimSpace body = EmptyString → r = Ok (VObj ∅))
  ∧ (strings.TrimSpace body ≠ EmptyString → ∀ raw, json_Unmarshal body = Ok raw →
       (∀ obj nested, raw = VObj obj → obj !! "data" = Some nested →
          nested ≠ VNil → r = Ok nested)
       ∧ (∀ obj, raw = VObj obj → obj !! "data" = Some VNil → r = Ok raw)
       ∧ (∀ obj, raw = VObj obj → obj !! "data" = None → r = Ok raw)
       ∧ ((∀ obj, raw ≠ VObj obj) → r = Ok raw)).
Proof.
  intros Hrun Hj Hstatus.
  destruct (postJSON_final _ _ _ _ _ _ j _ Hrun Hj) as (Hlast & data & Hstep).
  { simpl. apply andb_false_iff. left. apply Z.leb_gt. lia. }
  split; [done|].
  apply postAttempt_inv in Hstep as [_ Hstep].
  replace ((StatusCode <? 200) || (300 <=? StatusCode)) with false in Hstep
    by (symmetry; apply orb_false_iff; split; [apply Z.ltb_ge|apply Z.leb_gt]; lia).
  injection Hstep as Hr. unfold decodeResponse in Hr. split.
  - intros Hblank. by rewrite bool_decide_eq_true_2 in Hr.
  - intros Hbody raw Hraw. rewrite bool_decide_eq_false_2, Hraw in Hr by done.
    split; [|split; [|split]].
    + intros obj nested -> Hdata Hnested. rewrite Hdata in Hr.
      by destruct nested.
    + intros obj -> Hdata. by rewrite Hdata in Hr.
    + intros obj -> Hdata. by rewrite Hdata in Hr.
    + intros Hother. destruct raw; try done. by destruct (Hother m).
Qed.

Lemma wrap64_small z : - 2 ^ 63 ≤ z < 2 ^ 63 → wrap64 z = z.
Proof. intros Hz. unfold wrap64. rewrite Z.mod_small; lia. Qed.

(** Where the product stays inside [int64], the delay is the capped
    exponential the specification gives. *)
Lemma retryDelay_in_range baseDelay attempt :
  0 ≤ attempt < 63 → 0 ≤ baseDelay → baseDelay * 2 ^ attempt < 2 ^ 63 →
  retryDelay baseDelay attempt = Z.min (baseDelay * 2 ^ attempt) (8 * Second).
Proof.
  intros Hattempt Hbase Hfit. unfold retryDelay.
  rewrite Z.shiftl_1_l.
  assert (0 < 2 ^ attempt < 2 ^ 63) as Hpow.
  { split; [apply Z.pow_pos_nonneg; lia|apply Z.pow_lt_mono_r; lia]. }
  rewrite (wrap64_small (2 ^ attempt)) by lia.
  rewrite wrap64_small by nia.
  destruct (8 * Second <? baseDelay * 2 ^ attempt) eqn:Hcap.
  - apply Z.ltb_lt in Hcap. lia.
  - apply Z.ltb_ge in Hcap. lia.
Qed.

(** A context that is done before the timer fires ends the wait with its
    error. *)
Lemma waitRetry_cancelled d err tie baseDelay attempt :
  Z.max d 0 < retryDelay baseDelay attempt →
  waitRetry (Some (d, err)) tie baseDelay attempt = Some err.
Proof.
  intros Hfirst. unfold waitRetry.
  rewrite (proj2 (Z.ltb_lt _ _)) by lia. done.
Qed.

(** C7, at the failing input: with the default backoff of 500 ms the
    product for attempt 35 leaves [int64] and wraps to a negative duration,
    where the specification gives eight seconds; the timer then fires at
    once, so that a context cancelled one nanosecond into the wait no longer
    ends it. *)
Theorem retryDelay_wraps_at_attempt_35 :
  retryDelay defaultKnowsRetryBackoff 35 = -1266874889709551616
  ∧ Z.min (defaultKnowsRetryBackoff * 2 ^ 35) (8 * Second) = 8 * Second
  ∧ retryDelay defaultKnowsRetryBackoff 34 = 8 * Second
  ∧ waitRetry (Some (1, ctxCanceled)) false defaultKnowsRetryBackoff 35 = None.
Proof. repeat split; vm_compute; reflexivity. Qed.

End ClientFacts.

(** C6 as the specification words it fails: for the body [{"data":null}]
    the decoded object has a [data] field, and the call returns the whole
    object, not the value of the field. *)
Lemma postJSON_keeps_envelope_of_null_data :
  let w := serverWorld (λ _, doResponse 200 (Ok dataNullBody)) in
  let run := @postJSON exampleLibrary defaultClient w "/knows/answer" VNil in
  json_Unmarshal (GoLibrary := exampleLibrary) dataNullBody
  = Ok (VObj {[ "data" := VNil ]})
  ∧ run.2 = [doResponse 200 (Ok dataNullBody)]
  ∧ run.1 = Ok (VObj {[ "data" := VNil ]})
  ∧ run.1 ≠ Ok VNil.
Proof.
  cbv zeta. split; [vm_compute; reflexivity|].
  split; [vm_compute; reflexivity|].
  assert ((@postJSON exampleLibrary defaultClient
             (serverWorld (λ _, doResponse 200 (Ok dataNullBody)))
             "/knows/answer" VNil).1 = Ok (VObj {[ "data" := VNil ]})) as Hrun
    by (vm_compute; reflexivity).
  split; [exact Hrun|]. rewrite Hrun. discriminate.
Qed.


Lemma postJSON_success_body_witness :
  let w := serverWorld (λ _, doResponse 200 (Ok dataObjectBody)) in
  let run := @postJSON exampleLibrary defaultClient w "/knows/answer" VNil in
  run.1 = Ok (VObj {[ "id" := VStr "p1" ]}).
Proof.
  cbv zeta.
  set (w := serverWorld (λ _, doResponse 200 (Ok dataObjectBody))).
  set (run := @postJSON exampleLibrary defaultClient w "/knows/answer" VNil).
  assert (run.2 !! 0%nat = Some (doResponse 200 (Ok dataObjectBody))) as Hseen
    by (vm_compute; reflexivity).
  destruct (@postJSON_success_body exampleLibrary defaultClient w
              "/knows/answer" VNil run.1 run.2 0%nat 200 dataObjectBody
              (surjective_pairing run) Hseen) as (_ & _ & Hdecoded); [lia|].
  destruct (Hdecoded (λ E, ltac:(vm_compute in E; discriminate))
              (VObj {[ "data" := VObj {[ "id" := VStr "p1" ]} ]}))
    as (Hnested & _); [vm_compute; reflexivity|].
  apply (Hnested {[ "data" := VObj {[ "id" := VStr "p1" ]} ]}).
  - reflexivity.
  - vm_compute. reflexivity.
  - discriminate.
Defined.

(** ** Cached lookups *)

Section LookupFacts.
Context `{GoLibrary}.
Implicit Types (c : knowsClient) (w : world) (clk : clock).

Lemma Get_config (k : knowsDetailCache) now key :
  ttl (Get k now key).2 = ttl k ∧ maxEntries (Get k now key).2 = maxEntries k.
Proof.
  unfold Get. destruct (entries k !! key) as [e|]; [|done].
  by destruct (expiresAt e <? now).
Qed.


(** A lookup that misses and whose exchange succeeds returns the result
    and stores it; every later lookup of the same key that reads the clock
    no later than the expiry is served from the cache. *)
Lemma cachedPost_miss_then_served c clk w key path payload v k1 data seen :
  0 < maxEntries (cache c) →
  Get (cache c) (nowGet clk) key = (v, false, k1) →
  postJSON c w path (VObj payload) = (Ok data, seen) →
  let c1 := withCache c (Set_ k1 (nowSet clk) key data) in
  cachedPost c clk w key path payload = (Ok data, c1, seen)
  ∧ ∀ clk2 w2 path2 payload2,
      nowGet clk2 ≤ nowSet clk + ttl (cache c) →
      cachedPost c1 clk2 w2 key path2 payload2 = (Ok data, c1, []).
Proof.
  intros Hcap Hget Hpost c1.
  pose proof (Get_config (cache c) (nowGet clk) key) as [Httl Hmax].
  rewrite Hget in Httl, Hmax. simpl in Httl, Hmax.
  split.
  - unfold cachedPost. by rewrite Hget, Hpost.
  - intros clk2 w2 path2 payload2 Hnow. unfold cachedPost, c1. simpl.
    rewrite Get_after_Set by lia. done.
Qed.

(** C9: the lookups of an English paper, a guide and a meeting use the
    cache key [<TYPE>:<id>:false] both when the translation flag is absent
    and when it is [false], while the payload they post has no
    [translate_to_chinese] field in the first case and the field with the
    value [false] in the second.  So when the key has no live entry and
    the exchange of a lookup in either form succeeds, the lookup returns
    the fetched result and stores it under that key, and a lookup of the
    same identifier in either form that reads the clock no later than the
    expiry is served that result from the cache, without an exchange and
    without changing the cache. *)
Theorem absent_and_false_flag_share_cache_key (evidenceID : string) :
  let bare : gmap string value := {[ "evidence_id" := VStr evidenceID ]} in
  let flagged : gmap string value :=
    <["translate_to_chinese" := VBool false]> bare in
  let sent (t : option bool) : value :=
    VObj match t with Some _ => flagged | None => bare end in
  let shares
      (lookup : knowsClient → clock → world → string → option bool →
                result value * knowsClient * list roundTrip)
      (key path : string) : Prop :=
    ∀ c clk w t1 t2 v k1 data seen clk2 w2,
      t1 ∈ [None; Some false] → t2 ∈ [None; Some false] →
      0 < maxEntries (cache c) →
      Get (cache c) (nowGet clk) key = (v, false, k1) →
      postJSON c w path (sent t1) = (Ok data, seen) →
      nowGet clk2 ≤ nowSet clk + ttl (cache c) →
      let c1 := withCache c (Set_ k1 (nowSet clk) key data) in
      lookup c clk w evidenceID t1 = (Ok data, c1, seen)
      ∧ lookup c1 clk2 w2 evidenceID t2 = (Ok data, c1, []) in
  bare !! "translate_to_chinese" = None
  ∧ flagged !! "translate_to_chinese" = Some (VBool false)
  ∧ shares getPaperEN ("PAPER:" +:+ evidenceID +:+ ":false")
      "/knows/evidence/get_paper_en"
  ∧ shares getGuide ("GUIDE:" +:+ evidenceID +:+ ":false")
      "/knows/evidence/get_guide"
  ∧ shares getMeeting ("MEETING:" +:+ evidenceID +:+ ":false")
      "/knows/evidence/get_meeting".
Proof.
  intros bare flagged sent shares.
  split; [done|]. split; [done|].
  assert (∀ t, t ∈ [None; Some false] →
            translateKey t = false
            ∧ VObj (detailPayload evidenceID t) = sent t) as Hforms.
  { intros t Ht. rewrite !elem_of_cons in Ht.
    destruct Ht as [->|[->|?%elem_of_nil]]; done. }
  split; [|split];
    intros c clk w t1 t2 v k1 data seen clk2 w2 Ht1 Ht2 Hcap Hget Hpost Hnow c1;
    destruct (Hforms t1 Ht1) as [Hk1 Hp1]; destruct (Hforms t2 Ht2) as [Hk2 _];
    unfold getPaperEN, getGuide, getMeeting, paperENKey, guideKey, meetingKey;
    rewrite Hk1, Hk2; rewrite <- Hp1 in Hpost;
    destruct (cachedPost_miss_then_served c clk w _ _ _ v k1 data seen
                Hcap Hget Hpost) as [Hfirst Hlater];
    (split; [exact Hfirst|by apply Hlater]).
Qed.

End LookupFacts.

Lemma absent_and_false_flag_share_cache_key_witness :
  let w := serverWorld (λ _, doResponse 200 (Ok dataObjectBody)) in
  let refusing := serverWorld (λ _, doError ctxCanceled) in
  let clk := {| nowGet := 0; nowSet := 5 |} in
  let later := {| nowGet := 100; nowSet := 105 |} in
  let detail := VObj {[ "id" := VStr "p1" ]} in
  let served
      (lookup : knowsClient → clock → world → string → option bool →
                result value * knowsClient * list roundTrip)
      (t1 t2 : option bool) : Prop :=
    let first := lookup defaultClient clk w "e1" t1 in
    first.1.1 = Ok detail
    ∧ first.2 = [doResponse 200 (Ok dataObjectBody)]
    ∧ lookup first.1.2 later refusing "e1" t2 = (Ok detail, first.1.2, []) in
  served (@getPaperEN exampleLibrary) None (Some false)
  ∧ served (@getGuide exampleLibrary) (Some false) None
  ∧ served (@getMeeting exampleLibrary) None (Some false).
Proof.
  cbv zeta.
  destruct (@absent_and_false_flag_share_cache_key exampleLibrary "e1")
    as (_ & _ & Hpaper & Hguide & Hmeeting).
  assert (∀ t, (@postJSON exampleLibrary defaultClient
                  (serverWorld (λ _, doResponse 200 (Ok dataObjectBody)))
                  t.1 t.2)
               = (Ok (VObj {[ "id" := VStr "p1" ]}),
                  [doResponse 200 (Ok dataObjectBody)])) as Hpost.
  { intros [path payload]. simpl. by destruct payload. }
  split; [|split].
  - destruct (Hpaper defaultClient {| nowGet := 0; nowSet := 5 |}
                (serverWorld (λ _, doResponse 200 (Ok dataObjectBody)))
                None (Some false) VNil (cache defaultClient)
                (VObj {[ "id" := VStr "p1" ]})
                [doResponse 200 (Ok dataObjectBody)]
                {| nowGet := 100; nowSet := 105 |}
                (serverWorld (λ _, doError ctxCanceled)))
      as [Hfirst Hsecond].
    + repeat constructor.
    + repeat constructor.
    + reflexivity.
    + reflexivity.
    + exact (Hpost (_, _)).
    + vm_compute. discriminate.
    + rewrite Hfirst. split; [done|]. split; [done|]. exact Hsecond.
  - destruct (Hguide defaultClient {| nowGet := 0; nowSet := 5 |}
                (serverWorld (λ _, doResponse 200 (Ok dataObjectBody)))
                (Some false) None VNil (cache defaultClient)
                (VObj {[ "id" := VStr "p1" ]})
                [doResponse 200 (Ok dataObjectBody)]
                {| nowGet := 100; nowSet := 105 |}
                (serverWorld (λ _, doError ctxCanceled)))
      as [Hfirst Hsecond].
    + repeat constructor.
    + repeat constructor.
    + reflexivity.
    + reflexivity.
    + exact (Hpost (_, _)).
    + vm_compute. discriminate.
    + rewrite Hfirst. split; [done|]. split; [done|]. exact Hsecond.
  - destruct (Hmeeting defaultClient {| nowGet := 0; nowSet := 5 |}
                (serverWorld (λ _, doResponse 200 (Ok dataObjectBody)))
                None (Some false) VNil (cache defaultClient)
                (VObj {[ "id" := VStr "p1" ]})
                [doResponse 200 (Ok dataObjectBody)]
                {| nowGet := 100; nowSet := 105 |}
                (serverWorld (λ _, doError ctxCanceled)))
      as [Hfirst Hsecond].
    + repeat constructor.
    + repeat constructor.
    + reflexivity.
    + reflexivity.
    + exact (Hpost (_, _)).
    + vm_compute. discriminate.
    + rewrite Hfirst. split; [done|]. split; [done|]. exact Hsecond.
Defined.

(** ** The batch tools *)

(** *** The workers of a batch call *)

Section WorkerFacts.
Context {Req Sh P : Type}.
Variable limit : Z.
Variable requests : list Req.
Variable start :
  nat → Req → Sh → Sh * (P + gmap string value) * list roundTrip.
Variable finish :
  nat → Req → P → Sh → Sh * gmap string value * list roundTrip.
Local Notation "'step'" := (stepWorker limit requests start finish).
Implicit Types (st : pool Sh P) (i j : nat).

(** A step of worker [i] changes the phase of worker [i] only, and to the
    phase that follows. *)
Lemma stepWorker_spec st i :
  ∃ ph',
    phases (step st i) = <[i := ph']> (phases st)
    ∧ match requests !! i, phases st !! i with
      | Some _, Some waiting =>
          if held (phases st) <? limit then holding ph' = true
          else ph' = waiting
      | Some _, Some (fetching _) => ∃ row, ph' = ready row
      | Some _, Some (ready _) => ph' = sent
      | _, Some ph => ph' = ph
      | _, None => True
      end.
Proof.
  unfold stepWorker.
  destruct (requests !! i) as [req|], (phases st !! i) as [ph|] eqn:Hph;
    try (exists waiting; split; [|done];
         symmetry; apply list_insert_id'; intros Hlt;
         apply lookup_ge_None in Hph; lia);
    try (exists ph; split; [by rewrite list_insert_id|done]).
  destruct ph as [|pending|row|].
  - destruct (held (phases st) <? limit).
    + destruct (start i req (shared st)) as [[s r] seen]. simpl.
      eexists. split; [done|]. by destruct r.
    + exists waiting. split; [by rewrite list_insert_id|done].
  - destruct (finish i req pending (shared st)) as [[s row] seen]. simpl.
    eexists. split; [done|]. by eexists.
  - eexists. split; [done|]. done.
  - exists sent. split; [by rewrite list_insert_id|done].
Qed.

Lemma stepWorker_length st i :
  length (phases (step st i)) = length (phases st).
Proof.
  destruct (stepWorker_spec st i) as (ph' & -> & _). apply length_insert.
Qed.

Lemma stepWorker_other st i j :
  i ≠ j → phases (step st i) !! j = phases st !! j.
Proof.
  intros Hne. destruct (stepWorker_spec st i) as (ph' & -> & _).
  by apply list_lookup_insert_ne.
Qed.

Lemma stepWorker_sent st i j :
  phases st !! j = Some sent → phases (step st i) !! j = Some sent.
Proof.
  intros Hj. destruct (decide (i = j)) as [->|Hne].
  - destruct (stepWorker_spec st j) as (ph' & -> & Hnext).
    rewrite Hj in Hnext.
    rewrite list_lookup_insert_eq by (by eapply lookup_lt_Some).
    by destruct (requests !! j); subst ph'.
  - by rewrite stepWorker_other.
Qed.

Lemma held_settled (phs : list (phase P)) : Forall settled phs → held phs = 0.
Proof.
  induction 1 as [|ph phs [->| ->] _ IH]; simpl; [done|lia..].
Qed.

(** Three steps of a worker in a row take it to the end, unless it waits
    for a slot of the semaphore and none is free. *)
Lemma stepWorker_thrice st i :
  (i < length requests)%nat → length (phases st) = length requests →
  let st' := step (step (step st i) i) i in
  (∀ j, j ≠ i → phases st' !! j = phases st !! j)
  ∧ (phases st' !! i = Some sent
     ∨ phases st' !! i = Some waiting ∧ ¬ held (phases st) < limit).
Proof.
  intros Hi Hlen st'. split.
  { intros j Hne. unfold st'. by rewrite !stepWorker_other. }
  destruct (lookup_lt_is_Some_2 requests i Hi) as [req Hreq].
  assert (∀ st, length (phases st) = length requests →
            ∃ ph, phases st !! i = Some ph) as Hsome.
  { intros st0 Hl. apply lookup_lt_is_Some_2. lia. }
  assert (∀ st ph', length (phases st) = length requests →
            phases (step st i) = <[i := ph']> (phases st) →
            phases (step st i) !! i = Some ph') as Hnew.
  { intros st0 ph' Hl ->. apply list_lookup_insert_eq. lia. }
  (* the worker has passed the semaphore: two steps suffice *)
  assert (∀ st, length (phases st) = length requests →
            (∃ ph, phases st !! i = Some ph ∧ holding ph = true) →
            phases (step (step st i) i) !! i = Some sent) as Hheld.
  { intros st0 Hl (ph & Hph & Hhold).
    destruct (stepWorker_spec st0 i) as (ph1 & E1 & N1).
    rewrite Hreq, Hph in N1.
    pose proof (Hnew _ _ Hl E1) as Hph1.
    assert (length (phases (step st0 i)) = length requests) as Hl1
      by (by rewrite stepWorker_length).
    destruct ph as [|pending|row|]; try discriminate Hhold.
    - destruct N1 as [row ->].
      destruct (stepWorker_spec (step st0 i) i) as (ph2 & E2 & N2).
      rewrite Hreq, Hph1 in N2. subst ph2. by apply Hnew.
    - subst ph1. by apply stepWorker_sent. }
  destruct (Hsome st Hlen) as [ph Hph].
  destruct (stepWorker_spec st i) as (ph1 & E1 & N1).
  rewrite Hreq, Hph in N1.
  pose proof (Hnew _ _ Hlen E1) as Hph1.
  assert (length (phases (step st i)) = length requests) as Hl1
    by (by rewrite stepWorker_length).
  destruct ph as [|pending|row|].
  - destruct (held (phases st) <? limit) eqn:Hfree.
    + left. unfold st'. apply Hheld; [done|]. by exists ph1.
    + right. apply Z.ltb_ge in Hfree. split; [|lia]. subst ph1.
      assert (step st i = st) as E.
      { unfold stepWorker. rewrite Hreq, Hph.
        by rewrite (proj2 (Z.ltb_ge _ _)) by lia. }
      unfold st'. by rewrite !E.
  - left. unfold st'. apply stepWorker_sent. apply Hheld; [done|].
    by exists (fetching pending).
  - left. unfold st'. apply stepWorker_sent. apply Hheld; [done|].
    by exists (ready row).
  - left. unfold st'. subst ph1. by do 2 apply stepWorker_sent.
Qed.

Lemma foldl_stepWorker_length st (l : list nat) :
  length (phases (foldl step st l)) = length (phases st).
Proof.
  revert st. induction l as [|i l IH]; intros st; simpl; [done|].
  by rewrite IH, stepWorker_length.
Qed.

Lemma foldl_stepWorker_sent st (l : list nat) j :
  phases st !! j = Some sent → phases (foldl step st l) !! j = Some sent.
Proof.
  revert st. induction l as [|i l IH]; intros st Hj; simpl; [done|].
  by apply IH, stepWorker_sent.
Qed.

Lemma foldl_stepWorker_other st (l : list nat) j :
  j ∉ l → phases (foldl step st l) !! j = phases st !! j.
Proof.
  revert st. induction l as [|i l IH]; intros st Hj; simpl; [done|].
  apply not_elem_of_cons in Hj as [Hne Hj].
  rewrite IH by done. by apply stepWorker_other.
Qed.

Lemma drain_S n : drain (S n) = drain n ++ [n; n; n].
Proof.
  unfold drain. rewrite seq_S. simpl.
  by rewrite bind_app.
Qed.

(** After one round every worker has sent or is still waiting. *)
Lemma drain_settles n : ∀ st,
  (n ≤ length requests)%nat → length (phases st) = length requests →
  ∀ i, (i < n)%nat →
    phases (foldl step st (drain n)) !! i = Some sent
    ∨ phases (foldl step st (drain n)) !! i = Some waiting.
Proof.
  induction n as [|n IH]; intros st Hn Hlen i Hi; [lia|].
  rewrite drain_S, foldl_app.
  set (st1 := foldl step st (drain n)).
  assert (length (phases st1) = length requests) as Hl1
    by (unfold st1; by rewrite foldl_stepWorker_length).
  destruct (stepWorker_thrice st1 n) as [Hother Hn']; [lia|done|].
  simpl. destruct (decide (i = n)) as [->|Hne].
  - destruct Hn' as [?|[? _]]; [by left|by right].
  - rewrite Hother by done. apply IH; [lia|done|lia].
Qed.

(** A round that starts with the semaphore empty ends with every worker
    done. *)
Lemma drain_finishes n : ∀ st,
  0 < limit →
  (n ≤ length requests)%nat → length (phases st) = length requests →
  Forall settled (phases st) →
  Forall settled (phases (foldl step st (drain n)))
  ∧ ∀ i, (i < n)%nat → phases (foldl step st (drain n)) !! i = Some sent.
Proof.
  induction n as [|n IH]; intros st Hlimit Hn Hlen Hset.
  { split; [done|]. intros i Hi. lia. }
  rewrite drain_S, foldl_app.
  set (st1 := foldl step st (drain n)).
  destruct (IH st Hlimit) as [Hset1 Hsent1]; [lia|done|done|].
  fold st1 in Hset1, Hsent1.
  assert (length (phases st1) = length requests) as Hl1
    by (unfold st1; by rewrite foldl_stepWorker_length).
  destruct (stepWorker_thrice st1 n) as [Hother Hn']; [lia|done|].
  simpl.
  assert (phases (step (step (step st1 n) n) n) !! n = Some sent) as Hdone.
  { destruct Hn' as [?|[_ Hfull]]; [done|].
    rewrite held_settled in Hfull by done. lia. }
  split.
  - apply Forall_lookup. intros j ph Hj.
    destruct (decide (j = n)) as [->|Hne].
    + rewrite Hdone in Hj. injection Hj as <-. by right.
    + rewrite Hother in Hj by done.
      by apply (Forall_lookup_1 _ _ _ _ Hset1 Hj).
  - intros i Hi. destruct (decide (i = n)) as [->|Hne]; [done|].
    rewrite Hother by done. apply Hsent1. lia.
Qed.

(** When [wg.Wait()] returns, every worker has sent. *)
Lemma runWorkers_all_sent trace s0 i :
  0 < limit → (i < length requests)%nat →
  phases (runWorkers limit requests start finish trace s0) !! i = Some sent.
Proof.
  intros Hlimit Hi. unfold runWorkers. rewrite !foldl_app.
  set (st1 := foldl step _ trace).
  assert (length (phases st1) = length requests) as Hl1.
  { unfold st1. rewrite foldl_stepWorker_length. simpl.
    apply length_replicate. }
  set (st2 := foldl step st1 (drain (length requests))).
  assert (length (phases st2) = length requests) as Hl2
    by (unfold st2; by rewrite foldl_stepWorker_length).
  assert (Forall settled (phases st2)) as Hset.
  { apply Forall_lookup. intros j ph Hj.
    pose proof (lookup_lt_Some _ _ _ Hj) as Hlt.
    destruct (drain_settles (length requests) st1 (le_n _) Hl1 j) as [E|E];
      [lia| |]; fold st2 in E; rewrite E in Hj; injection Hj as <-;
      [by right|by left]. }
  by apply (drain_finishes (length requests) st2 Hlimit (le_n _) Hl2 Hset).
Qed.

(** The invariant of a run. *)
Lemma stepWorker_inv (I : Sh → Prop) (R : nat → P → Prop)
    (Q : nat → gmap string value → Prop) :
  (∀ i req s s' r seen,
     requests !! i = Some req → I s → start i req s = (s', r, seen) →
     I s' ∧ match r with inl pending => R i pending | inr row => Q i row end) →
  (∀ i req pending s s' row seen,
     requests !! i = Some req → I s → R i pending →
     finish i req pending s = (s', row, seen) → I s' ∧ Q i row) →
  ∀ st i,
    poolInv requests I R Q st → poolInv requests I R Q (step st i).
Proof.
  intros Hstart Hfinish st i (Hlen & HI & Hnd & Hph).
  unfold stepWorker.
  destruct (requests !! i) as [req|] eqn:Hreq; [|done].
  destruct (phases st !! i) as [[|pending|row|]|] eqn:Hi; [| | |done..].
  - destruct (held (phases st) <? limit); [|done].
    destruct (start i req (shared st)) as [[s r] seen] eqn:Hs.
    destruct (Hstart _ _ _ _ _ _ Hreq HI Hs) as [HI' Hr].
    pose proof (Hph i) as Hfree. rewrite Hi in Hfree.
    unfold poolInv; simpl.
    split; [by rewrite length_insert|]. split; [done|]. split; [done|].
    intros j. destruct (decide (j = i)) as [->|Hne].
    + rewrite list_lookup_insert_eq by (by eapply lookup_lt_Some).
      by destruct r.
    + rewrite list_lookup_insert_ne by done. apply Hph.
  - destruct (finish i req pending (shared st)) as [[s row] seen] eqn:Hf.
    pose proof (Hph i) as Hmine. rewrite Hi in Hmine.
    destruct Hmine as [HR Hfree].
    destruct (Hfinish _ _ _ _ _ _ _ Hreq HI HR Hf) as [HI' HQ].
    unfold poolInv; simpl.
    split; [by rewrite length_insert|]. split; [done|]. split; [done|].
    intros j. destruct (decide (j = i)) as [->|Hne].
    + by rewrite list_lookup_insert_eq by (by eapply lookup_lt_Some).
    + rewrite list_lookup_insert_ne by done. apply Hph.
  - pose proof (Hph i) as Hmine. rewrite Hi in Hmine.
    destruct Hmine as [HQ Hfree].
    unfold poolInv; simpl.
    split; [by rewrite length_insert|]. split; [done|].
    rewrite fmap_app. simpl.
    split.
    { apply NoDup_app. split; [done|]. split; [|apply NoDup_singleton].
      intros x Hx ->%list_elem_of_singleton. done. }
    intros j. destruct (decide (j = i)) as [->|Hne].
    + rewrite list_lookup_insert_eq by (by eapply lookup_lt_Some).
      exists row. split; [done|]. apply elem_of_app. right.
      by apply list_elem_of_singleton.
    + rewrite list_lookup_insert_ne by done.
      pose proof (Hph j) as Hj.
      assert (j ∉ index <$> channel st → j ∉ (index <$> channel st) ++ [i])
        as Hkeep.
      { intros Hout [?|?%list_elem_of_singleton]%elem_of_app; done. }
      destruct (phases st !! j) as [[|p|r|]|]; try (by apply Hkeep).
      * destruct Hj as [? ?]. split; [done|by apply Hkeep].
      * destruct Hj as [? ?]. split; [done|by apply Hkeep].
      * destruct Hj as (r & ? & ?). exists r. split; [done|].
        apply elem_of_app. by left.
Qed.

Lemma foldl_stepWorker_inv (I : Sh → Prop) (R : nat → P → Prop)
    (Q : nat → gmap string value → Prop) (l : list nat) :
  (∀ st i, poolInv requests I R Q st → poolInv requests I R Q (step st i)) →
  ∀ st, poolInv requests I R Q st → poolInv requests I R Q (foldl step st l).
Proof.
  intros Hstep. induction l as [|i l IH]; intros st Hst; simpl; [done|].
  by apply IH, Hstep.
Qed.

End WorkerFacts.

(** *** The two batch tools *)

Section BatchFacts.
Context `{GoLibrary}.

Lemma collect_length n (ch : list batchResult) : length (collect n ch) = n.
Proof.
  unfold collect. rewrite <- (length_replicate n (@None (gmap string value))) at 2.
  generalize (replicate n (@None (gmap string value))).
  induction ch as [|item ch IH]; intros acc; simpl; [done|].
  by rewrite IH, length_insert.
Qed.

(** What the receiving loop leaves in slot [i]: the message with index [i],
    wherever it is on the channel. *)
Lemma collect_lookup n (ch : list batchResult) i row :
  NoDup (index <$> ch) → {| index := i; data := row |} ∈ ch → (i < n)%nat →
  collect n ch !! i = Some (Some row).
Proof.
  intros Hnd Hin Hi. unfold collect.
  assert (length (replicate n (@None (gmap string value))) = n) as Hlen
    by apply length_replicate.
  revert Hnd Hin Hlen. generalize (replicate n (@None (gmap string value))).
  induction ch as [|m ch IH]; intros acc Hnd Hin Hlen; simpl.
  { by apply elem_of_nil in Hin. }
  rewrite fmap_cons in Hnd. apply NoDup_cons in Hnd as [Hm Hnd].
  apply elem_of_cons in Hin as [<-|Hin].
  - simpl in *. clear IH.
    assert (∀ (l : list batchResult) (acc' : list (option (gmap string value))),
              i ∉ index <$> l →
              foldl (λ results item, <[index item := Some (data item)]> results)
                acc' l !! i = acc' !! i) as Hkeep.
    { induction l as [|m l IHl]; intros acc' Hout; simpl; [done|].
      rewrite fmap_cons in Hout. apply not_elem_of_cons in Hout as [Hne Hout].
      rewrite IHl by done. by apply list_lookup_insert_ne. }
    rewrite Hkeep by done. apply list_lookup_insert_eq. lia.
  - apply IH; [done|done|]. by rewrite length_insert.
Qed.

Lemma answerItem_lookup req r :
  answerItem req r !! "question_id" = Some (VStr (QuestionID req))
  ∧ match r with
    | Ok payload =>
        answerItem req r !! "status" = Some (VStr "success")
        ∧ answerItem req r !! "data" = Some payload
        ∧ answerItem req r !! "error" = None
    | Err err =>
        answerItem req r !! "status" = Some (VStr "error")
        ∧ answerItem req r !! "error" = Some (VStr (Error err))
        ∧ answerItem req r !! "data" = None
    end.
Proof. destruct r; done. Qed.

Lemma evidenceRow_lookup item r :
  evidenceRow item r !! "evidence_id" = Some (VStr (EvidenceID item))
  ∧ evidenceRow item r !! "type" = Some (VStr (Type_ item))
  ∧ match r with
    | Ok payload =>
        evidenceRow item r !! "status" = Some (VStr "success")
        ∧ evidenceRow item r !! "data" = Some payload
        ∧ evidenceRow item r !! "error" = None
    | Err err =>
        evidenceRow item r !! "status" = Some (VStr "error")
        ∧ evidenceRow item r !! "error" = Some (VStr (Error err))
        ∧ evidenceRow item r !! "data" = None
    end.
Proof. destruct r; done. Qed.


Lemma postAttempt_withCache c k w path url data attempt :
  postAttempt (withCache c k) w path url data attempt
  = postAttempt c w path url data attempt.
Proof. reflexivity. Qed.

Lemma postLoop_withCache c k w path url data n : ∀ attempt lastErr,
  postLoop (withCache c k) w path url data n attempt lastErr
  = postLoop c w path url data n attempt lastErr.
Proof.
  induction n as [|n IH]; intros attempt lastErr; simpl; [done|].
  rewrite postAttempt_withCache.
  destruct (postAttempt c w path url data attempt) as [[r|e] seen]; [done|].
  by rewrite IH.
Qed.

(** The exchanges of a call do not depend on what the cache holds. *)
Lemma postJSON_withCache c k w path payload :
  postJSON (withCache c k) w path payload = postJSON c w path payload.
Proof.
  unfold postJSON.
  destruct (json_Marshal (if isNil payload then VObj ∅ else payload)); [|done].
  apply postLoop_withCache.
Qed.

Lemma fetchEvidenceDetail_detailRequest c clk w evidenceID evidenceType
    translate :
  fetchEvidenceDetail c clk w evidenceID evidenceType translate
  = match detailRequest evidenceID evidenceType translate with
    | Some (cacheKey, path, payload) => cachedPost c clk w cacheKey path payload
    | None =>
        (Err (errorString
                ("unsupported evidence type " +:+ strconv_Quote evidenceType
                 +:+ "; allowed: PAPER, PAPER_CN, GUIDE, MEETING")),
         c, [])
    end.
Proof.
  unfold fetchEvidenceDetail, detailRequest.
  by repeat case_bool_decide.
Qed.

(** A worker of the evidence batch that no other worker interrupts does
    what [fetchEvidenceDetail] does on the cache it finds: the same
    outcome, the same cache afterwards and the same exchanges. *)
Lemma evidence_worker_uninterrupted f sch translate i item k :
  let call :=
    fetchEvidenceDetail (withCache (client f) k) (clockOf sch i)
      (worldOf sch i) (EvidenceID item) (Type_ item) translate in
  match evidenceLookup f sch translate i item k with
  | (k1, inr row, seen) =>
      row = evidenceRow item call.1.1 ∧ k1 = cache call.1.2 ∧ seen = call.2
  | (k1, inl pending, _) =>
      evidenceFetch f sch i item pending k1
      = (cache call.1.2, evidenceRow item call.1.1, call.2)
  end.
Proof.
  cbv zeta. rewrite fetchEvidenceDetail_detailRequest. unfold evidenceLookup.
  destruct (detailRequest (EvidenceID item) (Type_ item) translate)
    as [[[key path] payload]|]; [|done].
  unfold cachedPost. simpl.
  destruct (Get k (nowGet (clockOf sch i)) key) as [[cached ok] k1].
  destruct ok; [done|].
  unfold evidenceFetch. rewrite postJSON_withCache.
  by destruct (postJSON (client f) (worldOf sch i) path (VObj payload))
    as [[data|err] seen].
Qed.
(** On a cache that has nothing under the key, the outcome of a lookup is
    that of its exchange. *)
Lemma ownOutcome_spec f sch translate i item :
  ownOutcome f sch translate i item
  = match detailRequest (EvidenceID item) (Type_ item) translate with
    | Some (_, path, payload) =>
        (postJSON (client f) (worldOf sch i) path (VObj payload)).1
    | None =>
        Err (errorString
               ("unsupported evidence type " +:+ strconv_Quote (Type_ item)
                +:+ "; allowed: PAPER, PAPER_CN, GUIDE, MEETING"))
    end.
Proof.
  unfold ownOutcome. rewrite fetchEvidenceDetail_detailRequest.
  destruct (detailRequest _ _ _) as [[[key path] payload]|]; [|done].
  unfold cachedPost. simpl. unfold Get. simpl. rewrite lookup_empty.
  rewrite postJSON_withCache.
  by destruct (postJSON (client f) (worldOf sch i) path (VObj payload))
    as [[data|err] seen].
Qed.

Lemma evictOldest_subseteq (cap : Z) (ord : list string) :
  ∀ es : gmap string knowsCacheEntry, (evictOldest cap es ord).1 ⊆ es.
Proof.
  induction ord as [|oldest rest IH]; intros es; simpl; [done|].
  destruct (cap <=? Z.of_nat (size es)); [|done].
  etrans; [apply IH|]. apply delete_subseteq.
Qed.

Lemma Set_lookup_inv k now key v key' e :
  entries (Set_ k now key v) !! key' = Some e →
  key' = key ∧ e = {| value_ := v; expiresAt := now + ttl k |}
  ∨ entries k !! key' = Some e.
Proof.
  unfold Set_. destruct (maxEntries k <=? 0); [by right|].
  destruct (decide (key' = key)) as [->|Hne].
  - intros He. left. split; [done|].
    destruct (entries k !! key); [|destruct (evictOldest _ _ _)];
      simpl in He; rewrite lookup_insert_eq in He; by injection He.
  - intros He. right.
    destruct (entries k !! key).
    + simpl in He. by rewrite lookup_insert_ne in He.
    + pose proof (evictOldest_subseteq (maxEntries k) (order k) (entries k))
        as Hsub.
      destruct (evictOldest _ _ _) as [es ord]. simpl in *.
      rewrite lookup_insert_ne in He by done.
      by apply (lookup_weaken _ _ _ _ He Hsub).
Qed.

Lemma Set_keeps_config k now key v :
  ttl (Set_ k now key v) = ttl k
  ∧ maxEntries (Set_ k now key v) = maxEntries k.
Proof.
  unfold Set_. destruct (maxEntries k <=? 0); [done|].
  by destruct (entries k !! key); [|destruct (evictOldest _ _ _)].
Qed.

Lemma Get_lookup_inv k now key key' e :
  entries (Get k now key).2 !! key' = Some e → entries k !! key' = Some e.
Proof.
  unfold Get. destruct (entries k !! key) as [e0|]; [|done].
  destruct (expiresAt e0 <? now); [|done]. simpl.
  intros He. by apply lookup_delete_Some in He as [_ He].
Qed.

Lemma batchCache_Get f sch evidences translate k now key :
  batchCache f sch evidences translate k →
  batchCache f sch evidences translate (Get k now key).2.
Proof.
  intros (Httl & Hmax & Hentries).
  destruct (Get_config k now key) as [Httl' Hmax'].
  split; [congruence|]. split; [congruence|].
  intros key' e He. apply Hentries. by apply Get_lookup_inv in He.
Qed.

Lemma batchCache_start f :
  ∀ sch evidences translate,
    batchCache f sch evidences translate (cache (client f)).
Proof. intros. split; [done|]. split; [done|]. intros key e He. by left. Qed.

(** What the workers of an evidence batch keep true of the shared cache,
    and what their rows are. *)
Lemma evidence_rows f sch evidences translate :
  0 < batchConcurrency f →
  ∀ i item, evidences !! i = Some item →
    ∃ k row,
      batchCache f sch evidences translate k
      ∧ collect (length evidences)
          (channel (batchGetEvidenceDetailsRun f sch evidences translate)) !! i
        = Some (Some row)
      ∧ row
        = evidenceRow item
            (fetchEvidenceDetail (withCache (client f) k) (clockOf sch i)
               (worldOf sch i) (EvidenceID item) (Type_ item) translate).1.1.
Proof.
  intros Hlimit i item Hitem.
  set (I := batchCache f sch evidences translate).
  set (R := λ (i : nat) (pending : string * string * gmap string value),
              ∃ item k,
                evidences !! i = Some item ∧ I k
                ∧ detailRequest (EvidenceID item) (Type_ item) translate
                  = Some pending
                ∧ (Get k (nowGet (clockOf sch i)) pending.1.1).1.2 = false).
  set (Q := λ (i : nat) (row : gmap string value),
              ∃ item k,
                evidences !! i = Some item ∧ I k
                ∧ row
                  = evidenceRow item
                      (fetchEvidenceDetail (withCache (client f) k)
                         (clockOf sch i) (worldOf sch i)
                         (EvidenceID item) (Type_ item) translate).1.1).
  assert (poolInv evidences I R Q
            (batchGetEvidenceDetailsRun f sch evidences translate)) as Hinv.
  { unfold batchGetEvidenceDetailsRun, runWorkers.
    apply foldl_stepWorker_inv.
    - apply stepWorker_inv.
      + (* the lookup *)
        intros j it k k' r seen Hit HI. unfold evidenceLookup.
        destruct (detailRequest (EvidenceID it) (Type_ it) translate)
          as [[[key path] payload]|] eqn:Hreq.
        * pose proof (batchCache_Get f sch evidences translate k
                        (nowGet (clockOf sch j)) key HI) as HI1.
          destruct (Get k (nowGet (clockOf sch j)) key)
            as [[cached ok] k1] eqn:Hget.
          destruct ok; intros [= <- <- <-]; (split; [exact HI1|]).
          -- exists it, k. split; [done|]. split; [done|].
             rewrite fetchEvidenceDetail_detailRequest, Hreq.
             unfold cachedPost. simpl. by rewrite Hget.
          -- exists it, k. split; [done|]. split; [done|]. split; [done|].
             simpl. by rewrite Hget.
        * intros [= <- <- <-]. split; [done|].
          exists it, k. split; [done|]. split; [done|].
          by rewrite fetchEvidenceDetail_detailRequest, Hreq.
      + (* the exchange and the store *)
        intros j it [[key path] payload] k' k'' row seen Hit HI
          (it' & k & Hit' & HIk & Hreq & Hmiss).
        rewrite Hit in Hit'. injection Hit' as <-. simpl in Hmiss.
        unfold evidenceFetch.
        assert ((fetchEvidenceDetail (withCache (client f) k) (clockOf sch j)
                   (worldOf sch j) (EvidenceID it) (Type_ it) translate).1.1
                = (postJSON (client f) (worldOf sch j) path (VObj payload)).1)
          as Hout.
        { rewrite fetchEvidenceDetail_detailRequest, Hreq.
          unfold cachedPost. simpl.
          destruct (Get k (nowGet (clockOf sch j)) key) as [[cached ok] k1].
          simpl in Hmiss. subst ok. rewrite postJSON_withCache.
          by destruct (postJSON (client f) (worldOf sch j) path (VObj payload))
            as [[data|err] seen']. }
        destruct (postJSON (client f) (worldOf sch j) path (VObj payload))
          as [[data|err] seen'] eqn:Hpost; intros [= <- <- <-].
        * split.
          -- destruct HI as (Httl & Hmax & Hentries).
             destruct (Set_keeps_config k' (nowSet (clockOf sch j)) key data)
               as [Httl' Hmax'].
             split; [congruence|]. split; [congruence|].
             intros key' e He.
             apply Set_lookup_inv in He as [[-> ->]|He]; [|by apply Hentries].
             right. exists j, it. split; [done|].
             split; [unfold detailKey; by rewrite Hreq|].
             split; [|by rewrite Httl].
             rewrite ownOutcome_spec, Hreq. by rewrite Hpost.
          -- exists it, k. split; [done|]. split; [done|]. by rewrite Hout.
        * split; [done|].
          exists it, k. split; [done|]. split; [done|]. by rewrite Hout.
    - split; [apply length_replicate|]. split; [apply batchCache_start|].
      split; [apply NoDup_nil_2|].
      intros j. simpl.
      destruct (replicate (length evidences) waiting !! j)
        as [ph|] eqn:Hj; [|apply not_elem_of_nil].
      apply lookup_replicate in Hj as [-> _]. apply not_elem_of_nil. }
  destruct Hinv as (_ & _ & Hnd & Hph).
  pose proof (lookup_lt_Some _ _ _ Hitem) as Hi.
  pose proof (Hph i) as Hmine.
  unfold batchGetEvidenceDetailsRun in Hmine.
  rewrite (runWorkers_all_sent _ _ _ _ _ _ _ Hlimit Hi) in Hmine.
  destruct Hmine as (row & (it & k & Hit & HIk & Hrow) & Hsent).
  rewrite Hitem in Hit. injection Hit as <-.
  exists k, row. split; [done|]. split; [|done].
  by apply collect_lookup.
Qed.

(** The rows of an answer batch. *)
Lemma answer_rows f sch requests :
  0 < batchConcurrency f →
  ∀ i req, requests !! i = Some req →
    collect (length requests) (channel (batchAnswerRun f sch requests)) !! i
    = Some (Some (answerItem req
                    (answer (client f) (worldOf sch i) (QuestionID req)
                       (AnswerType req)).1)).
Proof.
  intros Hlimit i req Hreq.
  set (Q := λ (i : nat) (row : gmap string value),
              ∃ req,
                requests !! i = Some req
                ∧ row
                  = answerItem req
                      (answer (client f) (worldOf sch i) (QuestionID req)
                         (AnswerType req)).1).
  assert (poolInv requests (λ _ : unit, True) (λ _ (_ : Empty_set), False) Q
            (batchAnswerRun f sch requests)) as Hinv.
  { unfold batchAnswerRun, runWorkers.
    apply foldl_stepWorker_inv.
    - apply stepWorker_inv.
      + intros j rq s s' r seen Hrq _. unfold answerWorker.
        destruct (answer (client f) (worldOf sch j) (QuestionID rq)
                    (AnswerType rq)) as [r0 seen0] eqn:Hans.
        intros [= <- <- <-]. split; [done|]. exists rq. split; [done|].
        by rewrite Hans.
      + intros j rq [].
    - split; [apply length_replicate|]. split; [done|].
      split; [apply NoDup_nil_2|].
      intros j. simpl.
      destruct (replicate (length requests) waiting !! j)
        as [ph|] eqn:Hj; [|apply not_elem_of_nil].
      apply lookup_replicate in Hj as [-> _]. apply not_elem_of_nil. }
  destruct Hinv as (_ & _ & Hnd & Hph).
  pose proof (lookup_lt_Some _ _ _ Hreq) as Hi.
  pose proof (Hph i) as Hmine.
  unfold batchAnswerRun in Hmine.
  rewrite (runWorkers_all_sent _ _ _ _ _ _ _ Hlimit Hi) in Hmine.
  destruct Hmine as (row & (rq & Hrq & Hrow) & Hsent).
  rewrite Hreq in Hrq. injection Hrq as <-. subst row.
  by apply collect_lookup.
Qed.

(** A worker whose key is neither in the cache when the call begins nor
    the key of another sub-request gets the outcome of its own exchange,
    whatever the others do. *)
Lemma isolated_outcome f sch evidences translate k i item :
  batchCache f sch evidences translate k →
  evidences !! i = Some item →
  (∀ key, detailKey item translate = Some key →
     entries (cache (client f)) !! key = None
     ∧ ∀ j other, j ≠ i → evidences !! j = Some other →
         detailKey other translate ≠ Some key) →
  (fetchEvidenceDetail (withCache (client f) k) (clockOf sch i)
     (worldOf sch i) (EvidenceID item) (Type_ item) translate).1.1
  = ownOutcome f sch translate i item.
Proof.
  intros (_ & _ & Hentries) Hitem Halone.
  pose proof (ownOutcome_spec f sch translate i item) as Hown.
  rewrite fetchEvidenceDetail_detailRequest.
  unfold detailKey in Halone.
  destruct (detailRequest (EvidenceID item) (Type_ item) translate)
    as [[[key path] payload]|] eqn:Hreq; [|by rewrite Hown].
  destruct (Halone key eq_refl) as [Hfresh Hothers].
  unfold cachedPost. simpl.
  destruct (Get k (nowGet (clockOf sch i)) key) as [[cached ok] k1] eqn:Hget.
  destruct ok.
  - apply Get_found in Hget as (_ & e & He & <- & _).
    destruct (Hentries key e He) as [Hold|(j & other & Hj & Hkey & Hout & _)].
    { by rewrite Hfresh in Hold. }
    destruct (decide (j = i)) as [->|Hne].
    + rewrite Hitem in Hj. injection Hj as <-. by rewrite Hout.
    + destruct (Hothers j other Hne Hj). unfold detailKey. exact Hkey.
  - rewrite postJSON_withCache, Hown.
    by destruct (postJSON (client f) (worldOf sch i) path (VObj payload))
      as [[data|err] seen].
Qed.

Lemma ownOutcome_world f sch sch' translate i item :
  worldOf sch' i = worldOf sch i →
  ownOutcome f sch' translate i item = ownOutcome f sch translate i item.
Proof. intros Hw. rewrite !ownOutcome_spec. by rewrite Hw. Qed.

Lemma parseBatchAnswerLoop_Ok raw : ∀ i out res,
  parseBatchAnswerLoop raw i out = Ok res →
  ∃ new, res = out ++ new ∧ Forall2 answerRequestOf raw new.
Proof.
  induction raw as [|item raw IH]; intros i out res; simpl.
  - intros [= <-]. exists []. by rewrite app_nil_r.
  - destruct item as [| | | |?|m]; try discriminate.
    destruct (getRequiredString m "question_id") as [questionID|] eqn:Hq;
      [|discriminate].
    destruct (getRequiredString m "answer_type") as [answerType|] eqn:Ha;
      [|discriminate].
    destruct (normalizeAnswerType answerType) as [normal|] eqn:Hn;
      [|discriminate].
    intros (new & -> & Hall)%IH.
    exists ({| QuestionID := questionID; AnswerType := normal |} :: new).
    split; [by rewrite <- app_assoc|]. constructor; [|done].
    exists m, answerType. done.
Qed.

Lemma parseBatchEvidenceLoop_Ok raw : ∀ i out res,
  parseBatchEvidenceLoop raw i out = Ok res →
  ∃ new, res = out ++ new ∧ Forall2 evidenceRequestOf raw new.
Proof.
  induction raw as [|item raw IH]; intros i out res; simpl.
  - intros [= <-]. exists []. by rewrite app_nil_r.
  - destruct item as [| | | |?|m]; try discriminate.
    destruct (getRequiredString m "evidence_id") as [evidenceID|] eqn:Hq;
      [|discriminate].
    destruct (getRequiredString m "type") as [evidenceType|] eqn:Ha;
      [|discriminate].
    destruct (normalizeDataScope evidenceType) as [normal|] eqn:Hn;
      [|discriminate].
    intros (new & -> & Hall)%IH.
    exists ({| EvidenceID := evidenceID; Type_ := normal |} :: new).
    split; [by rewrite <- app_assoc|]. constructor; [|done].
    exists m, evidenceType. done.
Qed.

(** The parsed sub-requests are the elements of the argument array, in
    place. *)
Lemma parseBatchAnswerRequests_positions args requests :
  parseBatchAnswerRequests args = Ok requests →
  ∃ raw,
    args !! "requests" = Some (VArr raw) ∧ Forall2 answerRequestOf raw requests.
Proof.
  unfold parseBatchAnswerRequests, getRequiredArray.
  destruct (args !! "requests") as [[| | | |raw|]|]; try discriminate.
  simpl. destruct (parseBatchAnswerLoop raw 0 []) as [out|] eqn:Hloop;
    [|discriminate].
  simpl. case_bool_decide; [discriminate|]. intros [= <-].
  apply parseBatchAnswerLoop_Ok in Hloop as (new & -> & Hall).
  by exists raw.
Qed.

Lemma parseBatchEvidenceRequests_positions args evidences :
  parseBatchEvidenceRequests args = Ok evidences →
  ∃ raw,
    args !! "evidences" = Some (VArr raw)
    ∧ Forall2 evidenceRequestOf raw evidences.
Proof.
  unfold parseBatchEvidenceRequests, getRequiredArray.
  destruct (args !! "evidences") as [[| | | |raw|]|]; try discriminate.
  simpl. destruct (parseBatchEvidenceLoop raw 0 []) as [out|] eqn:Hloop;
    [|discriminate].
  simpl. case_bool_decide; [discriminate|]. intros [= <-].
  apply parseBatchEvidenceLoop_Ok in Hloop as (new & -> & Hall).
  by exists raw.
Qed.

(** C1, as the code has it.  With a positive batch concurrency, when the
    sub-requests parse (and, for the evidence batch, the translation flag
    does: if it does not, the call fails with the error of the flag and
    returns no list), the handler returns a list with one element per
    element of the argument array; whatever the order in which the
    workers take their steps and send, element [i] is the map built from
    sub-request [i], which is parsed from element [i] of the array, and
    from the outcome of its own call: its identifier, and either status
    [success] with the payload, or status [error] with the message and no
    payload.

    In an answer batch the call of worker [i] is an exchange of its own:
    two runs in which worker [i] meets the same world agree on element
    [i], whatever happens to the other workers.

    In an evidence batch the workers share the cache of the client: the
    outcome of worker [i] is that of [fetchEvidenceDetail] on the cache as
    the worker finds it, in which an entry was either there when the call
    began or is the payload that the exchange of a sub-request with that
    key returned.  Two runs in which worker [i] meets the same world agree
    on element [i] when the key of sub-request [i] is not in the cache
    when the call begins and is the key of no other sub-request. *)
Theorem batch_results_follow_input_order (f : knowsToolFactory)
    (args : gmap string value) :
  0 < batchConcurrency f →
  (∀ sch requests,
     parseBatchAnswerRequests args = Ok requests →
     ∃ raw results,
       args !! "requests" = Some (VArr raw)
       ∧ batchAnswerHandler f sch args = Ok results
       ∧ length results = length raw
       ∧ length requests = length raw
       ∧ ∀ i req, requests !! i = Some req →
           let outcome :=
             (answer (client f) (worldOf sch i)
                (QuestionID req) (AnswerType req)).1 in
           ∃ input item,
             raw !! i = Some input
             ∧ answerRequestOf input req
             ∧ results !! i = Some (Some item)
             ∧ item = answerItem req outcome
             ∧ item !! "question_id" = Some (VStr (QuestionID req))
             ∧ match outcome with
               | Ok payload =>
                   item !! "status" = Some (VStr "success")
                   ∧ item !! "data" = Some payload
                   ∧ item !! "error" = None
               | Err err =>
                   item !! "status" = Some (VStr "error")
                   ∧ item !! "error" = Some (VStr (Error err))
                   ∧ item !! "data" = None
               end)
  ∧ (∀ sch evidences translate,
       parseBatchEvidenceRequests args = Ok evidences →
       getOptionalBoolPointer args "translate_to_chinese" = Ok translate →
       ∃ raw results,
         args !! "evidences" = Some (VArr raw)
         ∧ batchGetEvidenceDetailsHandler f sch args = Ok results
         ∧ length results = length raw
         ∧ length evidences = length raw
         ∧ ∀ i ev, evidences !! i = Some ev →
             ∃ input k row,
               let outcome :=
                 (fetchEvidenceDetail (withCache (client f) k)
                    (clockOf sch i) (worldOf sch i)
                    (EvidenceID ev) (Type_ ev) translate).1.1 in
               raw !! i = Some input
               ∧ evidenceRequestOf input ev
               ∧ batchCache f sch evidences translate k
               ∧ results !! i = Some (Some row)
               ∧ row = evidenceRow ev outcome
               ∧ row !! "evidence_id" = Some (VStr (EvidenceID ev))
               ∧ row !! "type" = Some (VStr (Type_ ev))
               ∧ match outcome with
                 | Ok payload =>
                     row !! "status" = Some (VStr "success")
                     ∧ row !! "data" = Some payload
                     ∧ row !! "error" = None
                 | Err err =>
                     row !! "status" = Some (VStr "error")
                     ∧ row !! "error" = Some (VStr (Error err))
                     ∧ row !! "data" = None
                 end)
  ∧ (∀ sch evidences err,
       parseBatchEvidenceRequests args = Ok evidences →
       getOptionalBoolPointer args "translate_to_chinese" = Err err →
       batchGetEvidenceDetailsHandler f sch args = Err err)
  ∧ (∀ sch sch' results results' i,
       worldOf sch' i = worldOf sch i →
       batchAnswerHandler f sch args = Ok results →
       batchAnswerHandler f sch' args = Ok results' →
       results' !! i = results !! i)
  ∧ (∀ sch sch' evidences translate results results' i,
       parseBatchEvidenceRequests args = Ok evidences →
       getOptionalBoolPointer args "translate_to_chinese" = Ok translate →
       worldOf sch' i = worldOf sch i →
       (∀ ev key,
          evidences !! i = Some ev → detailKey ev translate = Some key →
          entries (cache (client f)) !! key = None
          ∧ ∀ j other, j ≠ i → evidences !! j = Some other →
              detailKey other translate ≠ Some key) →
       batchGetEvidenceDetailsHandler f sch args = Ok results →
       batchGetEvidenceDetailsHandler f sch' args = Ok results' →
       results' !! i = results !! i).
Proof.
  intros Hlimit. split; [|split; [|split; [|split]]].
  - intros sch requests Hparse.
    destruct (parseBatchAnswerRequests_positions _ _ Hparse)
      as (raw & Hraw & Hall).
    pose proof (Forall2_length _ _ _ Hall) as Hlen.
    unfold batchAnswerHandler.
    rewrite Hparse. simpl. exists raw. eexists. split; [done|].
    split; [reflexivity|].
    split; [by rewrite collect_length|]. split; [done|].
    intros i req Hreq. cbv zeta.
    destruct (Forall2_lookup_r _ _ _ _ _ Hall Hreq) as (input & Hinput & Hof).
    exists input. eexists. split; [done|]. split; [done|]. split.
    { by apply answer_rows. }
    split; [done|]. apply answerItem_lookup.
  - intros sch evidences translate Hparse Htranslate.
    destruct (parseBatchEvidenceRequests_positions _ _ Hparse)
      as (raw & Hraw & Hall).
    pose proof (Forall2_length _ _ _ Hall) as Hlen.
    unfold batchGetEvidenceDetailsHandler.
    rewrite Hparse. simpl. rewrite Htranslate. simpl.
    exists raw. eexists. split; [done|]. split; [reflexivity|].
    split; [by rewrite collect_length|]. split; [done|].
    intros i ev Hev.
    destruct (Forall2_lookup_r _ _ _ _ _ Hall Hev) as (input & Hinput & Hof).
    destruct (evidence_rows f sch evidences translate Hlimit i ev Hev)
      as (k & row & Hk & Hslot & Hrow).
    exists input, k, row. cbv zeta. split; [done|]. split; [done|].
    split; [done|]. split; [done|].
    split; [done|]. rewrite Hrow. apply evidenceRow_lookup.
  - intros sch evidences err Hparse Htranslate.
    unfold batchGetEvidenceDetailsHandler.
    rewrite Hparse. simpl. by rewrite Htranslate.
  - intros sch sch' results results' i Hworld.
    unfold batchAnswerHandler.
    destruct (parseBatchAnswerRequests args) as [requests|]; [|discriminate].
    simpl. intros [= <-] [= <-].
    destruct (requests !! i) as [req|] eqn:Hreq.
    + rewrite !(answer_rows _ _ _ Hlimit i req Hreq). by rewrite Hworld.
    + apply lookup_ge_None in Hreq.
      rewrite !(proj2 (lookup_ge_None _ _)) by (by rewrite collect_length).
      done.
  - intros sch sch' evidences translate results results' i Hparse Htranslate
      Hworld Halone.
    unfold batchGetEvidenceDetailsHandler. rewrite Hparse. simpl.
    rewrite Htranslate. simpl. intros [= <-] [= <-].
    destruct (evidences !! i) as [ev|] eqn:Hev.
    + destruct (evidence_rows f sch evidences translate Hlimit i ev Hev)
        as (k & row & Hk & -> & ->).
      destruct (evidence_rows f sch' evidences translate Hlimit i ev Hev)
        as (k' & row' & Hk' & -> & ->).
      rewrite (isolated_outcome f sch evidences translate k i ev Hk Hev)
        by (intros key; by apply Halone).
      rewrite (isolated_outcome f sch' evidences translate k' i ev Hk' Hev)
        by (intros key; by apply Halone).
      by rewrite (ownOutcome_world f sch sch').
    + apply lookup_ge_None in Hev.
      rewrite !(proj2 (lookup_ge_None _ _)) by (by rewrite collect_length).
      done.
Qed.


Lemma parseBatchAnswerRequests_nonempty args requests :
  parseBatchAnswerRequests args = Ok requests → (1 ≤ length requests)%nat.
Proof.
  unfold parseBatchAnswerRequests.
  destruct (getRequiredArray args "requests") as [raw|]; [|discriminate].
  simpl. destruct (parseBatchAnswerLoop raw 0 []) as [out|]; [|discriminate].
  simpl. case_bool_decide; [discriminate|]. intros [= <-]. lia.
Qed.

Lemma parseBatchEvidenceRequests_nonempty args evidences :
  parseBatchEvidenceRequests args = Ok evidences → (1 ≤ length evidences)%nat.
Proof.
  unfold parseBatchEvidenceRequests.
  destruct (getRequiredArray args "evidences") as [raw|]; [|discriminate].
  simpl. destruct (parseBatchEvidenceLoop raw 0 []) as [out|]; [|discriminate].
  simpl. case_bool_decide; [discriminate|]. intros [= <-]. lia.
Qed.

(** C8: a request list that is present, is an array and is empty makes
    each batch tool fail with the error that the list must not be empty;
    the error comes from parsing the arguments, for every schedule and
    world, so before any worker is started; and a batch call that returns
    results returns at least one. *)
Theorem empty_batch_is_rejected (f : knowsToolFactory) (sch : schedule)
    (args : gmap string value) :
  (args !! "requests" = Some (VArr []) →
   parseBatchAnswerRequests args
   = Err (errorString "requests must not be empty")
   ∧ batchAnswerHandler f sch args
     = Err (errorString "requests must not be empty"))
  ∧ (args !! "evidences" = Some (VArr []) →
     parseBatchEvidenceRequests args
     = Err (errorString "evidences must not be empty")
     ∧ batchGetEvidenceDetailsHandler f sch args
       = Err (errorString "evidences must not be empty"))
  ∧ (∀ results, batchAnswerHandler f sch args = Ok results →
       (1 ≤ length results)%nat)
  ∧ (∀ results, batchGetEvidenceDetailsHandler f sch args = Ok results →
       (1 ≤ length results)%nat).
Proof.
  split; [|split; [|split]].
  - intros Hargs.
    assert (parseBatchAnswerRequests args
            = Err (errorString "requests must not be empty")) as Hparse.
    { unfold parseBatchAnswerRequests, getRequiredArray. by rewrite Hargs. }
    split; [done|]. unfold batchAnswerHandler. by rewrite Hparse.
  - intros Hargs.
    assert (parseBatchEvidenceRequests args
            = Err (errorString "evidences must not be empty")) as Hparse.
    { unfold parseBatchEvidenceRequests, getRequiredArray. by rewrite Hargs. }
    split; [done|]. unfold batchGetEvidenceDetailsHandler. by rewrite Hparse.
  - intros results. unfold batchAnswerHandler.
    destruct (parseBatchAnswerRequests args) as [requests|] eqn:Hparse;
      [|discriminate].
    simpl. intros [= <-]. rewrite collect_length.
    by apply (parseBatchAnswerRequests_nonempty args).
  - intros results. unfold batchGetEvidenceDetailsHandler.
    destruct (parseBatchEvidenceRequests args) as [evidences|] eqn:Hparse;
      [|discriminate].
    simpl.
    destruct (getOptionalBoolPointer args "translate_to_chinese");
      [|discriminate].
    simpl. intros [= <-]. rewrite collect_length.
    by apply (parseBatchEvidenceRequests_nonempty args).
Qed.

End BatchFacts.

(** C1 as the specification words it fails for the evidence batch, whose
    workers share the cache of the client.  In each pair of runs the first
    worker runs to its end before the second starts, the exchange of the
    second worker is refused, and the two runs differ only in whether the
    exchange of the first worker succeeds.

    Two sub-requests for the same guide: when the first exchange succeeds
    the second worker is served the stored result and both elements report
    success; when it fails, nothing is stored and the second element
    changes to an error.

    A paper and a guide, with a cache of capacity one that holds the
    guide: when the first exchange succeeds, storing the paper evicts the
    guide and the second element is an error; when it fails, the guide
    stays and the second element is a success.

    And a batch whose sub-requests all parse returns no list when the
    translation flag is no boolean. *)
Lemma same_key_failure_reaches_other_element :
  let served := oneAfterTheOther (doResponse 200 (Ok dataObjectBody)) in
  let failing := oneAfterTheOther (doResponse 404 (Ok "not found")) in
  let guide := {| EvidenceID := "g1"; Type_ := "GUIDE" |} in
  let paper := {| EvidenceID := "p1"; Type_ := "PAPER" |} in
  let detail := VObj {[ "id" := VStr "p1" ]} in
  let missing (path : string) :=
    errorString ("request to " +:+ path +:+ " failed with status 404: "
                 +:+ "not found") in
  let refused :=
    Errorf_w "request to /knows/evidence/get_guide failed: "
      (errorString "connection refused") in
  (steps failing = steps served
   ∧ clockOf failing = clockOf served
   ∧ worldOf failing 1%nat = worldOf served 1%nat)
  ∧ (evidenceRow guide (Ok detail) !! "status" = Some (VStr "success")
     ∧ evidenceRow guide (Err refused) !! "status" = Some (VStr "error")
     ∧ evidenceRow guide (Err refused) !! "data" = None)
  ∧ (@parseBatchEvidenceRequests exampleLibrary sameGuideArgs
     = Ok [guide; guide]
     ∧ @batchGetEvidenceDetailsHandler exampleLibrary defaultFactory served
         sameGuideArgs
       = Ok [ Some (evidenceRow guide (Ok detail));
              Some (evidenceRow guide (Ok detail)) ]
     ∧ @batchGetEvidenceDetailsHandler exampleLibrary defaultFactory failing
         sameGuideArgs
       = Ok [ Some (evidenceRow guide
                      (Err (missing "/knows/evidence/get_guide")));
              Some (evidenceRow guide (Err refused)) ])
  ∧ (@parseBatchEvidenceRequests exampleLibrary paperThenGuideArgs
     = Ok [paper; guide]
     ∧ @batchGetEvidenceDetailsHandler exampleLibrary fullCacheFactory served
         paperThenGuideArgs
       = Ok [ Some (evidenceRow paper (Ok detail));
              Some (evidenceRow guide (Err refused)) ]
     ∧ @batchGetEvidenceDetailsHandler exampleLibrary fullCacheFactory failing
         paperThenGuideArgs
       = Ok [ Some (evidenceRow paper
                      (Err (missing "/knows/evidence/get_paper_en")));
              Some (evidenceRow guide (Ok detail)) ])
  ∧ (@parseBatchEvidenceRequests exampleLibrary maybeFlagArgs
     = Ok [guide; paper]
     ∧ @batchGetEvidenceDetailsHandler exampleLibrary defaultFactory
         secondFirstSchedule maybeFlagArgs
       = Err (errorString "translate_to_chinese must be a boolean")).
Proof.
  cbv zeta.
  split; [by repeat split|].
  split; [repeat split; by_evaluation|].
  split; [repeat split; by_evaluation|].
  split; [repeat split; by_evaluation|].
  split; by_evaluation.
Qed.

Lemma batch_results_follow_input_order_witness :
  (∃ results first second,
     @batchAnswerHandler exampleLibrary defaultFactory secondFirstSchedule
       batchArgs = Ok results
     ∧ results = [Some first; Some second]
     ∧ first !! "question_id" = Some (VStr "q1")
     ∧ first !! "status" = Some (VStr "success")
     ∧ second !! "question_id" = Some (VStr "q2")
     ∧ second !! "status" = Some (VStr "error")
     ∧ second !! "data" = None)
  ∧ (∃ results first second,
       @batchGetEvidenceDetailsHandler exampleLibrary defaultFactory
         secondFirstSchedule batchArgs = Ok results
       ∧ results = [Some first; Some second]
       ∧ first !! "evidence_id" = Some (VStr "g1")
       ∧ first !! "status" = Some (VStr "success")
       ∧ second !! "evidence_id" = Some (VStr "p1")
       ∧ second !! "status" = Some (VStr "error")
       ∧ second !! "data" = None)
  ∧ @batchGetEvidenceDetailsHandler exampleLibrary defaultFactory
      secondFirstSchedule maybeFlagArgs
    = Err (errorString "translate_to_chinese must be a boolean")
  ∧ (∃ results results',
       @batchAnswerHandler exampleLibrary defaultFactory secondFirstSchedule
         batchArgs = Ok results
       ∧ @batchAnswerHandler exampleLibrary defaultFactory allFailSchedule
           batchArgs = Ok results'
       ∧ results' !! 1%nat = results !! 1%nat)
  ∧ (∃ results results',
       @batchGetEvidenceDetailsHandler exampleLibrary defaultFactory
         secondFirstSchedule batchArgs = Ok results
       ∧ @batchGetEvidenceDetailsHandler exampleLibrary defaultFactory
           allFailSchedule batchArgs = Ok results'
       ∧ results' !! 1%nat = results !! 1%nat).
Proof.
  assert (0 < batchConcurrency defaultFactory) as Hlimit
    by reflexivity.
  destruct (@batch_results_follow_input_order exampleLibrary defaultFactory
              batchArgs Hlimit)
    as (Hanswer & Hevidence & _ & Hanswers & Hevidences).
  destruct (@batch_results_follow_input_order exampleLibrary defaultFactory
              maybeFlagArgs Hlimit) as (_ & _ & Hflag & _).
  split; [|split; [|split; [|split]]].
  - destruct (Hanswer secondFirstSchedule
                      [ {| QuestionID := "q1"; AnswerType := "CLINICAL" |};
                        {| QuestionID := "q2"; AnswerType := "RESEARCH" |} ])
      as (raw & results & Hraw & Hrun & Hlen & _ & Hitems).
    { by_evaluation. }
    injection Hraw as <-.
    destruct (Hitems 0%nat _ eq_refl)
      as (in0 & first & _ & _ & H0 & _ & Hid0 & _).
    destruct (Hitems 1%nat _ eq_refl)
      as (in1 & second & _ & _ & H1 & _ & Hid1 & _).
    exists results, first, second. split; [exact Hrun|].
    assert (results = [Some first; Some second]) as Hresults.
    { destruct results as [|r0 [|r1 [|r2 rest]]]; try discriminate Hlen.
      simpl in H0, H1. by injection H0 as ->; injection H1 as ->. }
    split; [exact Hresults|].
    assert (@batchAnswerHandler exampleLibrary defaultFactory
              secondFirstSchedule batchArgs
            = Ok [ Some (answerItem
                           {| QuestionID := "q1"; AnswerType := "CLINICAL" |}
                           (Ok (VObj {[ "id" := VStr "p1" ]})));
                   Some (answerItem
                           {| QuestionID := "q2"; AnswerType := "RESEARCH" |}
                           (Err (errorString
                                   ("request to /knows/answer failed "
                                    +:+ "with status 404: not found")))) ])
      as Hvalue by by_evaluation.
    rewrite Hrun, Hresults in Hvalue. injection Hvalue as -> ->.
    split; [exact Hid0|]. split; [by_evaluation|].
    split; [exact Hid1|]. split; by_evaluation.
  - destruct (Hevidence secondFirstSchedule
                        [ {| EvidenceID := "g1"; Type_ := "GUIDE" |};
                          {| EvidenceID := "p1"; Type_ := "PAPER" |} ] None)
      as (raw & results & Hraw & Hrun & Hlen & _ & Hitems).
    { by_evaluation. }
    { by_evaluation. }
    injection Hraw as <-.
    destruct (Hitems 0%nat _ eq_refl)
      as (in0 & k0 & first & _ & _ & _ & H0 & Hrow0 & Hid0 & _ & _).
    destruct (Hitems 1%nat _ eq_refl)
      as (in1 & k1 & second & _ & _ & _ & H1 & Hrow1 & Hid1 & _ & _).
    exists results, first, second. split; [exact Hrun|].
    assert (results = [Some first; Some second]) as Hresults.
    { destruct results as [|r0 [|r1 [|r2 rest]]]; try discriminate Hlen.
      simpl in H0, H1. by injection H0 as ->; injection H1 as ->. }
    split; [exact Hresults|].
    assert (@batchGetEvidenceDetailsHandler exampleLibrary defaultFactory
              secondFirstSchedule batchArgs
            = Ok [ Some (evidenceRow {| EvidenceID := "g1"; Type_ := "GUIDE" |}
                           (Ok (VObj {[ "id" := VStr "p1" ]})));
                   Some (evidenceRow {| EvidenceID := "p1"; Type_ := "PAPER" |}
                           (Err (errorString
                                   ("request to /knows/evidence/get_paper_en "
                                    +:+ "failed with status 404: not found")))) ])
      as Hvalue by by_evaluation.
    rewrite Hrun, Hresults in Hvalue. injection Hvalue as -> ->.
    split; [exact Hid0|]. split; [by_evaluation|].
    split; [exact Hid1|]. split; by_evaluation.
  - apply (Hflag secondFirstSchedule
             [ {| EvidenceID := "g1"; Type_ := "GUIDE" |};
               {| EvidenceID := "p1"; Type_ := "PAPER" |} ]); by_evaluation.
  - set (q1 := {| QuestionID := "q1"; AnswerType := "CLINICAL" |}).
    set (q2 := {| QuestionID := "q2"; AnswerType := "RESEARCH" |}).
    set (missing :=
           @Err value (errorString ("request to /knows/answer failed "
                                    +:+ "with status 404: not found"))).
    assert (@batchAnswerHandler exampleLibrary defaultFactory
              secondFirstSchedule batchArgs
            = Ok [ Some (answerItem q1 (Ok (VObj {[ "id" := VStr "p1" ]})));
                   Some (answerItem q2 missing) ]) as Hrun by by_evaluation.
    assert (@batchAnswerHandler exampleLibrary defaultFactory
              allFailSchedule batchArgs
            = Ok [ Some (answerItem q1 missing); Some (answerItem q2 missing) ])
      as Hrun' by by_evaluation.
    eexists. eexists. split; [exact Hrun|]. split; [exact Hrun'|].
    by apply (Hanswers secondFirstSchedule allFailSchedule _ _ 1%nat eq_refl
                Hrun Hrun').
  - set (g1 := {| EvidenceID := "g1"; Type_ := "GUIDE" |}).
    set (p1 := {| EvidenceID := "p1"; Type_ := "PAPER" |}).
    set (missing := λ path : string,
           @Err value (errorString
                         ("request to " +:+ path
                          +:+ " failed with status 404: not found"))).
    assert (@batchGetEvidenceDetailsHandler exampleLibrary defaultFactory
              secondFirstSchedule batchArgs
            = Ok [ Some (evidenceRow g1 (Ok (VObj {[ "id" := VStr "p1" ]})));
                   Some (evidenceRow p1
                           (missing "/knows/evidence/get_paper_en")) ])
      as Hrun by by_evaluation.
    assert (@batchGetEvidenceDetailsHandler exampleLibrary defaultFactory
              allFailSchedule batchArgs
            = Ok [ Some (evidenceRow g1 (missing "/knows/evidence/get_guide"));
                   Some (evidenceRow p1
                           (missing "/knows/evidence/get_paper_en")) ])
      as Hrun' by by_evaluation.
    eexists. eexists. split; [exact Hrun|]. split; [exact Hrun'|].
    eapply (Hevidences secondFirstSchedule allFailSchedule
              [ {| EvidenceID := "g1"; Type_ := "GUIDE" |};
                {| EvidenceID := "p1"; Type_ := "PAPER" |} ] None).
    + by_evaluation.
    + by_evaluation.
    + reflexivity.
    + intros ev key Hev Hkey. injection Hev as <-. injection Hkey as <-.
      split; [reflexivity|].
      intros [|[|j]] other Hne Hother.
      * injection Hother as <-. apply (bool_decide_unpack _).
        vm_compute. exact I.
      * by destruct Hne.
      * discriminate Hother.
    + exact Hrun.
    + exact Hrun'.
Defined.

Lemma empty_batch_is_rejected_witness :
  @batchAnswerHandler exampleLibrary defaultFactory secondFirstSchedule
    emptyBatchArgs = Err (errorString "requests must not be empty")
  ∧ @batchGetEvidenceDetailsHandler exampleLibrary defaultFactory
      secondFirstSchedule emptyBatchArgs
    = Err (errorString "evidences must not be empty")
  ∧ ∃ results,
      @batchAnswerHandler exampleLibrary defaultFactory secondFirstSchedule
        batchArgs = Ok results
      ∧ (1 ≤ length results)%nat.
Proof.
  destruct (@empty_batch_is_rejected exampleLibrary defaultFactory
              secondFirstSchedule emptyBatchArgs) as (Hanswer & Hevidence & _).
  split; [apply Hanswer; vm_compute; reflexivity|].
  split; [apply Hevidence; vm_compute; reflexivity|].
  destruct (@empty_batch_is_rejected exampleLibrary defaultFactory
              secondFirstSchedule batchArgs) as (_ & _ & Hsome & _).
  assert (∃ results,
            @batchAnswerHandler exampleLibrary defaultFactory
              secondFirstSchedule batchArgs = Ok results) as [results Hrun]
    by (eexists; unfold batchAnswerHandler; vm_compute; reflexivity).
  exists results. split; [exact Hrun|]. by apply Hsome.
Defined.

(** ** Runs of the cache *)

Section CacheRuns.
Implicit Types (c : knowsDetailCache) (k key : string) (v : value).

Lemma cacheInv_size_length c :
  cacheInv c → size (entries c) = length (order c).
Proof.
  intros (Hnd & Hdom & _).
  rewrite <- (size_dom (D := gset string)), <- (size_list_to_set (C := gset string))
    by done.
  f_equal. apply set_eq. intros k.
  rewrite elem_of_dom, elem_of_list_to_set. symmetry. apply Hdom.
Qed.

Lemma Set_config c now key v :
  ttl (Set_ c now key v) = ttl c ∧ maxEntries (Set_ c now key v) = maxEntries c.
Proof.
  unfold Set_. destruct (maxEntries c <=? 0); [done|].
  by destruct (entries c !! key); [|destruct (evictOldest _ _ _)].
Qed.

Lemma Get_keeps_config c now key :
  ttl (Get c now key).2 = ttl c ∧ maxEntries (Get c now key).2 = maxEntries c.
Proof.
  unfold Get. destruct (entries c !! key) as [e|]; [|done].
  by destruct (expiresAt e <? now).
Qed.

Lemma runOps_inv c ops :
  cacheInv c →
  cacheInv (runOps c ops)
  ∧ ttl (runOps c ops) = ttl c
  ∧ maxEntries (runOps c ops) = maxEntries c.
Proof.
  unfold runOps. revert c. induction ops as [|op ops IH]; intros c Hinv; [done|].
  simpl. destruct op as [now key|now key v]; simpl.
  - destruct (IH (Get c now key).2) as (? & -> & ->); [by apply Get_inv|].
    by destruct (Get_keeps_config c now key) as [-> ->].
  - destruct (IH (Set_ c now key v)) as (? & -> & ->); [by apply Set_inv|].
    by destruct (Set_config c now key v) as [-> ->].
Qed.

(** X1: whatever calls are made on a new cache, in whatever order, the
    insertion order lists exactly the keys that have an entry, each once,
    and the number of entries stays within the capacity. *)
Theorem cache_invariant_of_every_run (t n : Z) (ops : list cacheOp) :
  let c := runOps (newKnowsDetailCache t n) ops in
  NoDup (order c)
  ∧ (∀ k, k ∈ order c ↔ is_Some (entries c !! k))
  ∧ length (order c) = size (entries c)
  ∧ Z.of_nat (size (entries c)) ≤ Z.max n 0
  ∧ ttl c = t ∧ maxEntries c = n.
Proof.
  intros c.
  destruct (runOps_inv (newKnowsDetailCache t n) ops
              (newKnowsDetailCache_inv t n)) as (Hinv & Ht & Hn).
  fold c in Hinv, Ht, Hn. simpl in Ht, Hn.
  pose proof (cacheInv_size_length c Hinv) as Hlen.
  destruct Hinv as (Hnd & Hdom & Hsize). rewrite Hn in Hsize. done.
Qed.

(** X2: a cache built with a capacity that is not positive never holds
    an entry: after any calls it is empty and every [Get] misses. *)
Theorem disabled_cache_stays_empty (t n : Z) (ops : list cacheOp) :
  n ≤ 0 →
  let c := runOps (newKnowsDetailCache t n) ops in
  entries c = ∅ ∧ order c = []
  ∧ ∀ now key, Get c now key = (VNil, false, c).
Proof.
  intros Hn c.
  destruct (runOps_inv (newKnowsDetailCache t n) ops
              (newKnowsDetailCache_inv t n)) as (Hinv & _ & Hmax).
  fold c in Hinv, Hmax. simpl in Hmax.
  pose proof (cacheInv_size_length c Hinv) as Hlen.
  destruct Hinv as (_ & _ & Hsize). rewrite Hmax in Hsize.
  assert (size (entries c) = 0%nat) as Hzero by lia.
  apply map_size_empty_inv in Hzero as Hempty.
  split; [done|]. split.
  - apply length_zero_iff_nil. lia.
  - intros now key. unfold Get. by rewrite Hempty, lookup_empty.
Qed.

Lemma removeFirst_filter key (ord : list string) :
  NoDup ord → removeFirst key ord = filter (λ k, k ≠ key) ord.
Proof.
  induction ord as [|a ord IH]; simpl; intros Hnd; [done|].
  apply NoDup_cons in Hnd as [Ha Hnd]. case_bool_decide as Hk.
  - subst a. rewrite filter_cons_False by (intros ?; done).
    symmetry. clear IH Hnd. induction ord as [|b ord IH]; [done|].
    apply not_elem_of_cons in Ha as [Hne Ha].
    rewrite filter_cons_True by done. by rewrite IH.
  - rewrite filter_cons_True by done. by rewrite IH.
Qed.

(** X3: a [Get] touches no key but its own: either it changes nothing,
    or its key had an entry whose expiry has passed and exactly that entry
    goes, the other keys keeping their entries and their relative order.
    Repeating the [Get] at the same instant gives the same answer and
    changes nothing more. *)
Theorem Get_touches_only_its_key c (now : Z) key :
  NoDup (order c) →
  let c' := (Get c now key).2 in
  (c' = c
   ∨ (∃ e, entries c !! key = Some e ∧ expiresAt e < now)
     ∧ entries c' = delete key (entries c)
     ∧ order c' = filter (λ k, k ≠ key) (order c))
  ∧ (∀ k, k ≠ key → entries c' !! k = entries c !! k)
  ∧ Get c' now key = ((Get c now key).1, c').
Proof.
  intros Hnd c'. subst c'.
  destruct (entries c !! key) as [e|] eqn:He.
  - destruct (decide (expiresAt e < now)) as [Hdead|Hlive].
    + rewrite (Get_expired c now key e He Hdead). simpl. split; [|split].
      * right. split; [eauto|]. split; [done|]. by apply removeFirst_filter.
      * intros k Hk. by apply lookup_delete_ne.
      * unfold Get. simpl. by rewrite lookup_delete_eq.
    + rewrite (Get_hit c now key e He) by lia. simpl.
      split; [by left|]. split; [done|]. apply Get_hit; [done|lia].
  - assert (Get c now key = (VNil, false, c)) as ->
      by (unfold Get; by rewrite He).
    simpl. split; [by left|]. split; [done|]. unfold Get. by rewrite He.
Qed.

Lemma Get_touches_only_its_key_witness :
  (Get refreshedCache 12 "b").2
  = {| entries := delete "b" (entries refreshedCache);
       order := ["a"]; ttl := 10; maxEntries := 2 |}
  ∧ entries (Get refreshedCache 12 "b").2 !! "a"
    = entries refreshedCache !! "a".
Proof.
  assert (NoDup (order refreshedCache)) as Hnd.
  { assert (cacheInv refreshedCache) as (? & _)
      by (repeat apply Set_inv; apply newKnowsDetailCache_inv). done. }
  destruct (Get_touches_only_its_key refreshedCache 12 "b" Hnd)
    as (_ & Hothers & _).
  split; [vm_compute; reflexivity|]. by apply Hothers.
Defined.

Lemma disabled_cache_stays_empty_witness :
  entries (runOps (newKnowsDetailCache 10 0)
             [opSet 0 "a" (VStr "first"); opGet 1 "a"]) = ∅
  ∧ Get (runOps (newKnowsDetailCache 10 0) [opSet 0 "a" (VStr "first")]) 1 "a"
    = (VNil, false,
       runOps (newKnowsDetailCache 10 0) [opSet 0 "a" (VStr "first")]).
Proof.
  split.
  - apply (disabled_cache_stays_empty 10 0
             [opSet 0 "a" (VStr "first"); opGet 1 "a"]). lia.
  - apply (disabled_cache_stays_empty 10 0 [opSet 0 "a" (VStr "first")]). lia.
Defined.


Lemma runOps_snoc c ops op : runOps c (ops ++ [op]) = applyOp (runOps c ops) op.
Proof. unfold runOps. by rewrite foldl_snoc. Qed.

(** The state after setting keys that are all different, spelled out. *)
Lemma setOps_state (t n : Z) (items : list (Z * string * value)) :
  0 < n → NoDup (itemKey <$> items) →
  let c := runOps (newKnowsDetailCache t n) (setOps items) in
  let kept := drop (length items - Z.to_nat n) items in
  cacheInv c ∧ ttl c = t ∧ maxEntries c = n
  ∧ order c = itemKey <$> kept
  ∧ ∀ it, it ∈ kept →
      entries c !! itemKey it
      = Some {| value_ := it.2; expiresAt := it.1.1 + t |}.
Proof.
  intros Hn. induction items as [|it items IH] using rev_ind; intros Hnd.
  { simpl. split; [apply newKnowsDetailCache_inv|]. repeat split; try done.
    intros it Hit. by apply elem_of_nil in Hit. }
  rewrite fmap_app in Hnd. apply NoDup_app in Hnd as (Hnd & Hfresh & _).
  specialize (IH Hnd). cbv zeta in IH.
  unfold setOps. rewrite fmap_app. simpl. rewrite runOps_snoc.
  fold (setOps items).
  set (c := runOps (newKnowsDetailCache t n) (setOps items)) in *.
  set (m := (length items - Z.to_nat n)%nat) in *.
  destruct IH as (Hinv & Ht & Hmax & Hord & Hlook).
  destruct it as [[now k] v]. simpl.
  assert (k ∉ itemKey <$> items) as Hk.
  { intros Hin. apply (Hfresh k Hin). simpl. left. }
  assert (entries c !! k = None) as Habsent.
  { destruct (entries c !! k) eqn:E; [|done]. exfalso. apply Hk.
    destruct Hinv as (_ & Hdom & _).
    assert (k ∈ order c) as Hin by (apply Hdom; eauto).
    rewrite Hord in Hin. apply list_elem_of_fmap in Hin as (it & -> & Hit).
    apply list_elem_of_fmap. exists it. split; [done|].
    apply list_elem_of_lookup in Hit as [i Hi]. rewrite lookup_drop in Hi.
    by eapply list_elem_of_lookup_2. }
  pose proof (cacheInv_size_length c Hinv) as Hsize.
  rewrite Hord, length_fmap, length_drop in Hsize.
  assert (cacheInv (Set_ c now k v)) as Hinv' by (by apply Set_inv).
  destruct (Set_config c now k v) as [Ht' Hmax'].
  split; [done|]. split; [congruence|]. split; [congruence|].
  rewrite length_app. simpl length.
  unfold Set_. rewrite Hmax, (proj2 (Z.leb_gt _ _)), Habsent by done.
  rewrite !Ht.
  destruct (decide (length items < Z.to_nat n)%nat) as [Hroom|Hfull].
  - rewrite evictOldest_room by lia. simpl.
    replace (length items + 1 - Z.to_nat n)%nat with 0%nat by lia.
    replace m with 0%nat in * by lia. rewrite drop_0 in *.
    split; [by rewrite Hord, fmap_app|].
    intros it [Hit|Hit%list_elem_of_singleton]%elem_of_app.
    + rewrite lookup_insert_ne; [by apply Hlook|].
      intros E. apply Hk. rewrite E. by apply list_elem_of_fmap_2.
    + subst it. simpl. unfold itemKey. simpl. by rewrite lookup_insert_eq.
  - assert (is_Some (items !! m)) as [it0 Hit0]
      by (apply lookup_lt_is_Some; lia).
    rewrite (drop_S _ _ _ Hit0) in Hord, Hlook.
    rewrite fmap_cons in Hord.
    assert (is_Some (entries c !! itemKey it0)) as Hold.
    { destruct Hinv as (_ & Hdom & _). apply Hdom. rewrite Hord. left. }
    rewrite Hord, (evictOldest_full _ _ _ _ Hold) by lia. simpl.
    replace (length items + 1 - Z.to_nat n)%nat with (S m) by lia.
    rewrite drop_app_le by lia. split; [by rewrite fmap_app|].
    assert (NoDup (itemKey it0 :: (itemKey <$> drop (S m) items))) as Hnd0.
    { destruct Hinv as (Hnd0 & _ & _). by rewrite Hord in Hnd0. }
    apply NoDup_cons in Hnd0 as [Hhead _].
    intros it [Hit|Hit%list_elem_of_singleton]%elem_of_app.
    + rewrite lookup_insert_ne.
      * rewrite lookup_delete_ne; [apply Hlook; by right|].
        intros E. apply Hhead. rewrite E. by apply list_elem_of_fmap_2.
      * intros E. apply Hk. rewrite E. apply list_elem_of_fmap_2.
        apply list_elem_of_lookup in Hit as [i Hi]. rewrite lookup_drop in Hi.
        by eapply list_elem_of_lookup_2.
    + subst it. simpl. unfold itemKey. simpl. by rewrite lookup_insert_eq.
Qed.

(** X4: after keys that are all different have been set on a new cache of
    positive capacity, the cache holds exactly the most recent
    [maxEntries] of them, in the order they were set, each with the value
    and the expiry of its own [Set]; every earlier key is gone. *)
Theorem fifo_keeps_the_last_keys_set (t n : Z)
    (items : list (Z * string * value)) :
  0 < n → NoDup (itemKey <$> items) →
  let c := runOps (newKnowsDetailCache t n) (setOps items) in
  let kept := drop (length items - Z.to_nat n) items in
  order c = itemKey <$> kept
  ∧ (∀ it, it ∈ kept →
       entries c !! itemKey it
       = Some {| value_ := it.2; expiresAt := it.1.1 + t |})
  ∧ (∀ k, k ∉ itemKey <$> kept → entries c !! k = None)
  ∧ size (entries c) = Nat.min (length items) (Z.to_nat n).
Proof.
  intros Hn Hnd c kept.
  destruct (setOps_state t n items Hn Hnd) as (Hinv & _ & _ & Hord & Hlook).
  fold c in Hinv, Hord, Hlook. fold kept in Hord, Hlook.
  split; [done|]. split; [done|]. split.
  - intros k Hk. destruct (entries c !! k) eqn:E; [|done]. destruct Hk.
    destruct Hinv as (_ & Hdom & _). rewrite <- Hord. apply Hdom. eauto.
  - rewrite (cacheInv_size_length c Hinv), Hord, length_fmap.
    unfold kept. rewrite length_drop. lia.
Qed.

Lemma fifo_keeps_the_last_keys_set_witness :
  let items := [(0, "a", VStr "1"); (1, "b", VStr "2"); (2, "c", VStr "3")] in
  let c := runOps (newKnowsDetailCache 10 2) (setOps items) in
  order c = ["b"; "c"] ∧ entries c !! "a" = None
  ∧ entries c !! "c" = Some {| value_ := VStr "3"; expiresAt := 12 |}.
Proof.
  cbv zeta.
  destruct (fifo_keeps_the_last_keys_set 10 2
              [(0, "a", VStr "1"); (1, "b", VStr "2"); (2, "c", VStr "3")])
    as (Hord & Hlook & Hgone & _).
  - lia.
  - apply (bool_decide_unpack _). vm_compute. exact I.
  - split; [exact Hord|]. split.
    + apply Hgone. apply (bool_decide_unpack _). vm_compute. exact I.
    + apply (Hlook (2, "c", VStr "3")). simpl. right. left.
Defined.

End CacheRuns.

(** ** Runs of [postJSON] *)

Section ClientRuns.
Context `{GoLibrary}.
Implicit Types (c : knowsClient) (w : world) (rt : roundTrip).

Lemma postLoop_lastErr c w path url data n attempt e1 e2 :
  postLoop c w path url data (S n) attempt e1
  = postLoop c w path url data (S n) attempt e2.
Proof. done. Qed.

Lemma shouldRetry_retryable c attempt rt :
  attempt < maxRetries c → retryable rt = true →
  match rt with
  | doError err => shouldRetry c attempt 0 (Some err) = true
  | doResponse s (Err readErr) => shouldRetry c attempt s (Some readErr) = true
  | doResponse s (Ok _) =>
      shouldRetry c attempt s None = true
      ∧ (s <? 200) || (300 <=? s) = true
  end.
Proof.
  intros Hmore Hretry. unfold shouldRetry.
  rewrite (proj2 (Z.leb_gt _ _)) by done.
  destruct rt as [err|s [body|err]]; simpl in Hretry.
  - by destruct (errorsIs err ctxCanceled || errorsIs err ctxDeadlineExceeded).
  - split; [done|]. apply andb_true_iff in Hretry as [?%Z.leb_le ?%Z.leb_le].
    apply orb_true_iff. right. apply Z.leb_le. lia.
  - by destruct (errorsIs err ctxCanceled || errorsIs err ctxDeadlineExceeded).
Qed.

(** One iteration on a retryable outcome, by what the wait returns. *)
Lemma postAttempt_retryable c w path url data attempt :
  NewRequest w url = None → attempt < maxRetries c →
  retryable (Do w attempt url data) = true →
  postAttempt c w path url data attempt
  = (match waitRetry (ctxDone w attempt) (selectDone w attempt)
             (retryBackoff c) attempt with
     | Some waitErr => loopReturn (Err waitErr)
     | None => loopContinue (attemptError path (Do w attempt url data))
     end,
     [Do w attempt url data]).
Proof.
  intros Hreq Hmore Hretry. unfold postAttempt. rewrite Hreq. f_equal.
  pose proof (shouldRetry_retryable c attempt _ Hmore Hretry) as Hshould.
  destruct (Do w attempt url data) as [err|s [body|err]]; simpl.
  - unfold retryOrFail. by rewrite Hshould.
  - destruct Hshould as [Hshould ->]. unfold retryOrFail. by rewrite Hshould.
  - unfold retryOrFail. by rewrite Hshould.
Qed.

(** One iteration on an outcome that allows no retry, or on the last
    attempt. *)
Lemma postAttempt_final c w path url data attempt :
  NewRequest w url = None →
  retryable (Do w attempt url data) = false ∨ maxRetries c ≤ attempt →
  postAttempt c w path url data attempt
  = (loopReturn
       match Do w attempt url data with
       | doResponse s (Ok body) =>
           if (s <? 200) || (300 <=? s) then Err (statusError path s body)
           else decodeResponse path body
       | rt => Err (attemptError path rt)
       end,
     [Do w attempt url data]).
Proof.
  intros Hreq Hstop. unfold postAttempt. rewrite Hreq. f_equal.
  destruct (Do w attempt url data) as [err|s [body|err]]; simpl in *.
  - rewrite retryOrFail_stop; [done|]. destruct Hstop as [Hno|Hlast].
    + apply shouldRetry_cancelled. by apply negb_false_iff.
    + unfold shouldRetry. by rewrite (proj2 (Z.leb_le _ _)).
  - destruct ((s <? 200) || (300 <=? s)) eqn:Hs; [|done].
    rewrite retryOrFail_stop; [done|]. destruct Hstop as [Hno|Hlast].
    + apply shouldRetry_status. intros [? ?].
      apply andb_false_iff in Hno as [?%Z.leb_gt|?%Z.leb_gt]; lia.
    + unfold shouldRetry. by rewrite (proj2 (Z.leb_le _ _)).
  - rewrite retryOrFail_stop; [done|]. destruct Hstop as [Hno|Hlast].
    + apply shouldRetry_cancelled. by apply negb_false_iff.
    + unfold shouldRetry. by rewrite (proj2 (Z.leb_le _ _)).
Qed.

(** The loop runs through a prefix of retried attempts and goes on from
    the attempt after them. *)
Lemma postLoop_prefix c w path url data (j : nat) : ∀ n (a : nat) lastErr,
  NewRequest w url = None →
  Z.of_nat (a + j) ≤ maxRetries c →
  (∀ i : nat, (i < j)%nat →
     retryable (Do w (Z.of_nat (a + i)) url data) = true
     ∧ waitRetry (ctxDone w (Z.of_nat (a + i))) (selectDone w (Z.of_nat (a + i)))
         (retryBackoff c) (Z.of_nat (a + i)) = None) →
  postLoop c w path url data (j + S n) (Z.of_nat a) lastErr
  = ((postLoop c w path url data (S n) (Z.of_nat (a + j)) None).1,
     ((λ i : nat, Do w (Z.of_nat i) url data) <$> seq a j)
     ++ (postLoop c w path url data (S n) (Z.of_nat (a + j)) None).2).
Proof.
  induction j as [|j IH]; intros n a lastErr Hreq Hmax Hretried.
  - rewrite Nat.add_0_r. change (0 + S n)%nat with (S n).
    rewrite (postLoop_lastErr _ _ _ _ _ _ _ lastErr None).
    exact (surjective_pairing _).
  - destruct (Hretried 0%nat) as [Hretry Hwait]; [lia|].
    rewrite Nat.add_0_r in Hretry, Hwait.
    change (S j + S n)%nat with (S (j + S n)).
    cbn [postLoop].
    rewrite postAttempt_retryable by (done || lia). rewrite Hwait.
    replace (Z.of_nat a + 1) with (Z.of_nat (S a)) by lia.
    rewrite (IH n (S a)); [|done|lia|].
    + replace (S a + j)%nat with (a + S j)%nat by lia. done.
    + intros i Hi. replace (S a + i)%nat with (a + S i)%nat by lia.
      apply Hretried. lia.
Qed.

Lemma postJSON_prefix c w path payload data (j : nat) :
  json_Marshal (if isNil payload then VObj ∅ else payload) = Ok data →
  NewRequest w (baseURL c +:+ path) = None →
  Z.of_nat j ≤ maxRetries c →
  retriedThrough c w (baseURL c +:+ path) data j →
  ∃ n,
    postJSON c w path payload
    = ((postLoop c w path (baseURL c +:+ path) data (S n) (Z.of_nat j) None).1,
       exchanges w (baseURL c +:+ path) data j
       ++ (postLoop c w path (baseURL c +:+ path) data (S n)
             (Z.of_nat j) None).2).
Proof.
  intros Hdata Hreq Hmax Hretried. unfold postJSON. rewrite Hdata.
  exists (Z.to_nat (maxRetries c) - j)%nat.
  replace (Z.to_nat (maxRetries c + 1))
    with (j + S (Z.to_nat (maxRetries c) - j))%nat by lia.
  rewrite (postLoop_prefix c w path _ data j _ 0%nat); [done|done|simpl; lia|].
  intros i Hi. simpl. by apply Hretried.
Qed.


Lemma exchanges_S w url data j :
  exchanges w url data (S j)
  = exchanges w url data j ++ [Do w (Z.of_nat j) url data].
Proof. unfold exchanges. by rewrite seq_S, fmap_app. Qed.

Lemma postLoop_final c w path url data n attempt lastErr :
  NewRequest w url = None →
  retryable (Do w attempt url data) = false ∨ maxRetries c ≤ attempt →
  postLoop c w path url data (S n) attempt lastErr
  = (match Do w attempt url data with
     | doResponse s (Ok body) =>
         if (s <? 200) || (300 <=? s) then Err (statusError path s body)
         else decodeResponse path body
     | rt => Err (attemptError path rt)
     end,
     [Do w attempt url data]).
Proof.
  intros Hreq Hstop. cbn [postLoop]. by rewrite postAttempt_final.
Qed.

(** X5: when the first [j] attempts fail in a way that allows a retry and
    their waits run to the end, and attempt [j], still within the retry
    budget, is answered with a status from 200 to 299, the call returns the
    decoded body of that answer after exactly [j + 1] exchanges: earlier
    failures leave no trace in the result. *)
Theorem postJSON_recovers_after_retries c w path payload data (j : nat)
    StatusCode body :
  json_Marshal (if isNil payload then VObj ∅ else payload) = Ok data →
  NewRequest w (baseURL c +:+ path) = None →
  Z.of_nat j ≤ maxRetries c →
  retriedThrough c w (baseURL c +:+ path) data j →
  Do w (Z.of_nat j) (baseURL c +:+ path) data
  = doResponse StatusCode (Ok body) →
  200 ≤ StatusCode < 300 →
  postJSON c w path payload
  = (decodeResponse path body, exchanges w (baseURL c +:+ path) data (S j)).
Proof.
  intros Hdata Hreq Hmax Hretried Hdo Hstatus.
  destruct (postJSON_prefix c w path payload data j Hdata Hreq Hmax Hretried)
    as [n ->].
  rewrite postLoop_final; [|done|].
  - rewrite exchanges_S, !Hdo. simpl.
    replace ((StatusCode <? 200) || (300 <=? StatusCode)) with false; [done|].
    symmetry. apply orb_false_iff. split; [apply Z.ltb_ge|apply Z.leb_gt]; lia.
  - left. rewrite Hdo. simpl. apply andb_false_iff. left. apply Z.leb_gt. lia.
Qed.

(** X6: when the context is done before the timer of the wait after
    attempt [j] fires, the call ends there: it returns the error of the
    context as it is, not wrapped, and makes no further exchange. *)
Theorem postJSON_stops_when_wait_is_cancelled c w path payload data
    (j : nat) waitErr :
  json_Marshal (if isNil payload then VObj ∅ else payload) = Ok data →
  NewRequest w (baseURL c +:+ path) = None →
  Z.of_nat j < maxRetries c →
  retriedThrough c w (baseURL c +:+ path) data j →
  retryable (Do w (Z.of_nat j) (baseURL c +:+ path) data) = true →
  waitRetry (ctxDone w (Z.of_nat j)) (selectDone w (Z.of_nat j))
    (retryBackoff c) (Z.of_nat j) = Some waitErr →
  postJSON c w path payload
  = (Err waitErr, exchanges w (baseURL c +:+ path) data (S j)).
Proof.
  intros Hdata Hreq Hmax Hretried Hretry Hwait.
  destruct (postJSON_prefix c w path payload data j Hdata Hreq) as [n ->];
    [lia|done|].
  cbn [postLoop]. rewrite postAttempt_retryable by done.
  rewrite Hwait. by rewrite exchanges_S.
Qed.

(** X7: when every attempt before the last fails in a way that allows a
    retry and the last attempt the budget allows fails too, in whatever
    way, the call makes exactly [maxRetries + 1] exchanges and returns the
    error of the last one. *)
Theorem postJSON_gives_up_with_last_error c w path payload data :
  json_Marshal (if isNil payload then VObj ∅ else payload) = Ok data →
  NewRequest w (baseURL c +:+ path) = None →
  0 ≤ maxRetries c →
  retriedThrough c w (baseURL c +:+ path) data (Z.to_nat (maxRetries c)) →
  match Do w (maxRetries c) (baseURL c +:+ path) data with
  | doResponse s (Ok _) => s < 200 ∨ 300 ≤ s
  | _ => True
  end →
  postJSON c w path payload
  = (Err (attemptError path (Do w (maxRetries c) (baseURL c +:+ path) data)),
     exchanges w (baseURL c +:+ path) data (S (Z.to_nat (maxRetries c)))).
Proof.
  intros Hdata Hreq Hmax Hretried Hlast.
  destruct (postJSON_prefix c w path payload data (Z.to_nat (maxRetries c))
              Hdata Hreq) as [n ->]; [lia|done|].
  rewrite postLoop_final; [|done|right; lia].
  rewrite exchanges_S, Z2Nat.id by done. simpl. f_equal.
  destruct (Do w (maxRetries c) (baseURL c +:+ path) data)
    as [err|s [body|err]]; try done.
  simpl. replace ((s <? 200) || (300 <=? s)) with true; [done|].
  symmetry. apply orb_true_iff.
  destruct Hlast; [left; apply Z.ltb_lt|right; apply Z.leb_le]; lia.
Qed.

(** X8: a request that cannot be encoded or cannot be built is not sent
    and not retried: the call fails at once with the wrapped error and no
    exchange; and a client whose retry count is negative makes no attempt
    at all. *)
Theorem postJSON_sends_nothing_it_cannot_build c w path payload :
  (∀ err,
     json_Marshal (if isNil payload then VObj ∅ else payload) = Err err →
     postJSON c w path payload
     = (Err (Errorf_w ("failed to encode request for " +:+ path +:+ ": ") err),
        []))
  ∧ (∀ data err,
       json_Marshal (if isNil payload then VObj ∅ else payload) = Ok data →
       0 ≤ maxRetries c →
       NewRequest w (baseURL c +:+ path) = Some err →
       postJSON c w path payload
       = (Err (Errorf_w ("failed to create request for " +:+ path +:+ ": ")
                 err),
          []))
  ∧ (∀ data,
       json_Marshal (if isNil payload then VObj ∅ else payload) = Ok data →
       maxRetries c < 0 →
       postJSON c w path payload
       = (Err (errorString ("request to " +:+ path +:+ " failed")), [])).
Proof.
  split; [|split].
  - intros err Hdata. unfold postJSON. by rewrite Hdata.
  - intros data err Hdata Hmax Hreq. unfold postJSON. rewrite Hdata.
    destruct (Z.to_nat (maxRetries c + 1)) as [|n] eqn:Hn; [lia|].
    cbn [postLoop]. unfold postAttempt. by rewrite Hreq.
  - intros data Hdata Hmax. unfold postJSON. rewrite Hdata.
    replace (Z.to_nat (maxRetries c + 1)) with 0%nat by lia. done.
Qed.

Lemma errorsIs_Errorf_w prefix err target :
  errorsIs err target = true → errorsIs (Errorf_w prefix err) target = true.
Proof. intros Hin. simpl. rewrite Hin. apply orb_true_r. Qed.

(** X9: when an attempt or the reading of its body fails with an error
    that is, or wraps, [context.Canceled] or [context.DeadlineExceeded],
    that attempt is the last and the error the call returns still wraps the
    same sentinel, so that the caller's [errors.Is] finds it. *)
Theorem postJSON_cancellation_is_recognizable c w path payload r seen
    (j : nat) rt err target :
  postJSON c w path payload = (r, seen) →
  seen !! j = Some rt →
  rt = doError err ∨ (∃ s, rt = doResponse s (Err err)) →
  target = ctxCanceled ∨ target = ctxDeadlineExceeded →
  errorsIs err target = true →
  length seen = S j ∧ ∃ e, r = Err e ∧ errorsIs e target = true.
Proof.
  intros Hrun Hj Hrt Htarget Hin.
  assert (errorsIs err ctxCanceled || errorsIs err ctxDeadlineExceeded = true)
    as Hcancel.
  { apply orb_true_iff. destruct Htarget as [-> | ->]; auto. }
  destruct (postJSON_final _ _ _ _ _ _ j _ Hrun Hj) as (Hlast & data & Hstep).
  { destruct Hrt as [->|[s ->]]; simpl; by rewrite Hcancel. }
  split; [done|].
  apply postAttempt_inv in Hstep as [_ Hstep].
  destruct Hrt as [->|[s ->]];
    rewrite retryOrFail_stop in Hstep by (by apply shouldRetry_cancelled);
    injection Hstep as ->; eexists; (split; [reflexivity|]);
    by apply errorsIs_Errorf_w.
Qed.

End ClientRuns.

Lemma postJSON_recovers_after_retries_witness :
  @postJSON exampleLibrary defaultClient busyOnceWorld "/knows/answer" VNil
  = (Ok (VObj {[ "id" := VStr "p1" ]}),
     [doResponse 503 (Ok "busy"); doResponse 200 (Ok dataObjectBody)]).
Proof.
  rewrite (@postJSON_recovers_after_retries exampleLibrary defaultClient
             busyOnceWorld "/knows/answer" VNil "{}" 1 200 dataObjectBody).
  - vm_compute. reflexivity.
  - reflexivity.
  - reflexivity.
  - vm_compute. discriminate.
  - intros i Hi. assert (i = 0%nat) as -> by lia. split; reflexivity.
  - reflexivity.
  - lia.
Defined.

Lemma postJSON_stops_when_wait_is_cancelled_witness :
  @postJSON exampleLibrary defaultClient cancelledWaitWorld "/knows/answer" VNil
  = (Err ctxCanceled, [doResponse 503 (Ok "busy")]).
Proof.
  rewrite (@postJSON_stops_when_wait_is_cancelled exampleLibrary defaultClient
             cancelledWaitWorld "/knows/answer" VNil "{}" 0 ctxCanceled).
  - reflexivity.
  - reflexivity.
  - reflexivity.
  - reflexivity.
  - intros i Hi. lia.
  - reflexivity.
  - vm_compute. reflexivity.
Defined.

Lemma postJSON_gives_up_with_last_error_witness :
  let run :=
    @postJSON exampleLibrary defaultClient refusingWorld "/knows/answer" VNil in
  run.1 = Err (Errorf_w "request to /knows/answer failed: "
                 (errorString "connection refused"))
  ∧ length run.2 = 4%nat.
Proof.
  cbv zeta.
  rewrite (@postJSON_gives_up_with_last_error exampleLibrary defaultClient
             refusingWorld "/knows/answer" VNil "{}").
  - split; reflexivity.
  - reflexivity.
  - reflexivity.
  - vm_compute. discriminate.
  - intros i Hi. split; reflexivity.
  - exact I.
Defined.

Lemma postJSON_sends_nothing_it_cannot_build_witness :
  @postJSON exampleLibrary defaultClient unbuildableWorld "/knows/answer" VNil
  = (Err (Errorf_w "failed to create request for /knows/answer: "
            (errorString "missing protocol scheme")), []).
Proof.
  destruct (@postJSON_sends_nothing_it_cannot_build exampleLibrary
              defaultClient unbuildableWorld "/knows/answer" VNil)
    as (_ & Hbuild & _).
  apply (Hbuild "{}").
  - reflexivity.
  - vm_compute. discriminate.
  - reflexivity.
Defined.

Lemma postJSON_cancellation_is_recognizable_witness :
  let run :=
    @postJSON exampleLibrary defaultClient cancelledDoWorld "/knows/answer"
      VNil in
  length run.2 = 1%nat ∧ ∃ e, run.1 = Err e ∧ errorsIs e ctxCanceled = true.
Proof.
  cbv zeta.
  set (run := @postJSON exampleLibrary defaultClient cancelledDoWorld
                "/knows/answer" VNil).
  apply (@postJSON_cancellation_is_recognizable exampleLibrary defaultClient
           cancelledDoWorld "/knows/answer" VNil run.1 run.2 0
           (doError (wrapError "Post: context canceled" ctxCanceled))
           (wrapError "Post: context canceled" ctxCanceled) ctxCanceled).
  - apply surjective_pairing.
  - vm_compute. reflexivity.
  - by left.
  - by left.
  - reflexivity.
Defined.

(** ** Construction, again *)

Section ConstructionInvariants.
Context `{GoLibrary}.

Lemma normalizeDataScopes_Ok_inv (scopes out : list string) :
  normalizeDataScopes scopes = Ok out →
  out = firstOccurrences (normalizedScope <$> scopes)
  ∧ NoDup out
  ∧ (∀ x, x ∈ out → x ∈ knowsAllowedDataScopes)
  ∧ normalizeDataScopes out = Ok out
  ∧ (scopes ≠ [] → out ≠ []).
Proof.
  intros Hn.
  assert (out = firstOccurrences (normalizedScope <$> scopes)
          ∧ ∀ s, s ∈ scopes → normalizedScope s ∈ knowsAllowedDataScopes)
    as [-> Hall].
  { destruct scopes as [|s rest].
    - injection Hn as <-. split; [done|]. by intros ? ?%elem_of_nil.
    - unfold normalizeDataScopes in Hn.
      apply normalizeDataScopesLoop_Ok in Hn as [-> Hall].
      + split; [|done]. simpl app. apply filter_notin_nil.
      + intros x. rewrite elem_of_nil. split; [|done].
        by intros ?%not_elem_of_empty. }
  assert (∀ x, x ∈ firstOccurrences (normalizedScope <$> scopes)
               → x ∈ knowsAllowedDataScopes) as Hallowed.
  { intros x. rewrite firstOccurrences_elem, list_elem_of_fmap.
    intros (s & -> & Hs). auto. }
  pose proof (firstOccurrences_NoDup (normalizedScope <$> scopes)) as Hnd.
  split; [done|]. split; [done|]. split; [done|]. split.
  - destruct (firstOccurrences (normalizedScope <$> scopes)) as [|a l] eqn:E;
      [done|].
    unfold normalizeDataScopes.
    rewrite normalizeDataScopesLoop_allowed; [done|done|].
    intros x Hx. split; [auto|apply not_elem_of_empty].
  - destruct scopes as [|s rest]; [done|]. intros _. simpl. discriminate.
Qed.

Lemma knowsAllDataScopes_normal :
  NoDup knowsAllDataScopes
  ∧ (∀ x, x ∈ knowsAllDataScopes → x ∈ knowsAllowedDataScopes)
  ∧ normalizeDataScopes knowsAllDataScopes = Ok knowsAllDataScopes.
Proof.
  split; [|split].
  - apply (bool_decide_unpack _). vm_compute. exact I.
  - intros x Hx. apply allowed_cases. unfold knowsAllDataScopes in Hx.
    rewrite !elem_of_cons, elem_of_nil in Hx. tauto.
  - reflexivity.
Qed.

(** X10: a factory that [NewKnowsTools] returns is well configured: the
    key is the trimmed key and is not empty; timeout, backoff, batch
    concurrency, cache TTL and cache capacity are positive and the retry
    count is not negative; the cache starts empty and consistent; and the
    default scope list is not empty, has no duplicates, lies inside the
    allowed set and is left unchanged by normalization. *)
Theorem NewKnowsTools_establishes_invariants (opts : KnowsToolOptions)
    (f : knowsToolFactory) :
  NewKnowsTools opts = Ok f →
  apiKey (client f) = strings.TrimSpace (APIKey opts)
  ∧ apiKey (client f) ≠ EmptyString
  ∧ 0 < httpTimeout (client f)
  ∧ 0 ≤ maxRetries (client f)
  ∧ 0 < retryBackoff (client f)
  ∧ 0 < batchConcurrency f
  ∧ 0 < ttl (cache (client f))
  ∧ 0 < maxEntries (cache (client f))
  ∧ entries (cache (client f)) = ∅
  ∧ cacheInv (cache (client f))
  ∧ defaultDataScope f ≠ []
  ∧ NoDup (defaultDataScope f)
  ∧ (∀ x, x ∈ defaultDataScope f → x ∈ knowsAllowedDataScopes)
  ∧ normalizeDataScopes (defaultDataScope f) = Ok (defaultDataScope f).
Proof.
  unfold NewKnowsTools.
  case_bool_decide as Hkey; [discriminate|].
  case_bool_decide as Hurl; [discriminate|].
  destruct (normalizeDataScopes (DefaultDataScope opts)) as [scope|] eqn:Hscope;
    [|discriminate].
  intros [= <-]. simpl.
  split; [done|]. split; [done|].
  split; [destruct (RequestTimeout opts <=? 0) eqn:E;
            [done|by apply Z.leb_gt in E]|].
  split; [destruct (MaxRetries opts <? 0) eqn:E;
            [done|by apply Z.ltb_ge in E]|].
  split; [destruct (RetryBackoff opts <=? 0) eqn:E;
            [done|by apply Z.leb_gt in E]|].
  split; [destruct (BatchConcurrency opts <=? 0) eqn:E;
            [done|by apply Z.leb_gt in E]|].
  split; [destruct (CacheTTL opts <=? 0) eqn:E;
            [done|by apply Z.leb_gt in E]|].
  split; [destruct (CacheMaxEntries opts <=? 0) eqn:E;
            [done|by apply Z.leb_gt in E]|].
  split; [done|]. split; [apply newKnowsDetailCache_inv|].
  apply normalizeDataScopes_Ok_inv in Hscope as (_ & Hnd & Hall & Hidem & _).
  destruct knowsAllDataScopes_normal as (Hnd0 & Hall0 & Hidem0).
  case_bool_decide as Hnil.
  - split; [discriminate|]. split; [exact Hnd0|]. split; [exact Hall0|].
    exact Hidem0.
  - split; [done|]. split; [exact Hnd|]. split; [exact Hall|]. exact Hidem.
Qed.

End ConstructionInvariants.

Lemma NewKnowsTools_establishes_invariants_witness :
  ∃ f, @NewKnowsTools exampleLibrary zeroOptions = Ok f
       ∧ 0 ≤ maxRetries (client f)
       ∧ 0 < maxEntries (cache (client f))
       ∧ NoDup (defaultDataScope f).
Proof.
  assert (∃ f, @NewKnowsTools exampleLibrary zeroOptions = Ok f) as [f Hf]
    by (eexists; reflexivity).
  exists f. split; [exact Hf|].
  destruct (@NewKnowsTools_establishes_invariants exampleLibrary zeroOptions
              f Hf) as (_ & _ & _ & Hr & _ & _ & _ & Hm & _ & _ & _ & Hnd & _).
  split; [exact Hr|]. split; [exact Hm|exact Hnd].
Defined.

(** ** Byte strings *)

Section StringFacts.
Implicit Types (s t acc : string) (c : ascii).

Lemma string_app_cons a s t : String a s +:+ t = String a (s +:+ t).
Proof. reflexivity. Qed.

Lemma string_app_nil_l t : EmptyString +:+ t = t.
Proof. reflexivity. Qed.

Lemma string_app_nil_r s : s +:+ EmptyString = s.
Proof.
  induction s as [|a s IH]; [done|]. by rewrite string_app_cons, IH.
Qed.

Lemma string_app_assoc s t u : (s +:+ t) +:+ u = s +:+ (t +:+ u).
Proof.
  induction s as [|a s IH]; [done|]. by rewrite !string_app_cons, IH.
Qed.

Lemma string_length_app s t :
  String.length (s +:+ t) = (String.length s + String.length t)%nat.
Proof.
  induction s as [|a s IH]; [done|]. rewrite string_app_cons. simpl.
  by rewrite IH.
Qed.

Lemma rev_app_spec s : ∀ acc, String.rev_app s acc = String.rev s +:+ acc.
Proof.
  unfold String.rev. induction s as [|a s IH]; intros acc; simpl; [done|].
  rewrite (IH (String a acc)), (IH (String a EmptyString)).
  by rewrite string_app_assoc.
Qed.

Lemma string_rev_cons a s :
  String.rev (String a s) = String.rev s +:+ String a EmptyString.
Proof. unfold String.rev at 1. simpl. apply rev_app_spec. Qed.

Lemma string_rev_app s t : String.rev (s +:+ t) = String.rev t +:+ String.rev s.
Proof.
  induction s as [|a s IH].
  - by rewrite string_app_nil_l, string_app_nil_r.
  - by rewrite string_app_cons, !string_rev_cons, IH, string_app_assoc.
Qed.

Lemma string_rev_involutive s : String.rev (String.rev s) = s.
Proof.
  induction s as [|a s IH]; [done|].
  by rewrite string_rev_cons, string_rev_app, IH.
Qed.

Lemma repeatByte_snoc c n :
  repeatByte c n +:+ String c EmptyString = String c (repeatByte c n).
Proof.
  induction n as [|n IH]; [done|]. simpl repeatByte.
  by rewrite string_app_cons, IH.
Qed.

Lemma string_rev_repeatByte c n : String.rev (repeatByte c n) = repeatByte c n.
Proof.
  induction n as [|n IH]; [done|]. simpl repeatByte.
  by rewrite string_rev_cons, IH, repeatByte_snoc.
Qed.

Lemma dropWhileByte_spec c s :
  ∃ n, s = repeatByte c n +:+ strings.dropWhileByte c s
       ∧ ∀ t, strings.dropWhileByte c s ≠ String c t.
Proof.
  induction s as [|a s (n & Hs & Hhead)]; simpl.
  - exists 0%nat. by split.
  - case_bool_decide as Ha.
    + subst a. exists (S n). split; [|done].
      simpl repeatByte. by rewrite string_app_cons, <- Hs.
    + exists 0%nat. split; [done|]. intros t [= ? _]. done.
Qed.

(** [strings.TrimRight] with a cutset of one byte removes a run of that
    byte from the end and leaves none there. *)
Lemma TrimRightByte_spec s c :
  (∃ n, s = strings.TrimRightByte s c +:+ repeatByte c n)
  ∧ ∀ p, strings.TrimRightByte s c ≠ p +:+ String c EmptyString.
Proof.
  unfold strings.TrimRightByte.
  destruct (dropWhileByte_spec c (String.rev s)) as (n & Hs & Hhead). split.
  - exists n. rewrite <- (string_rev_involutive s) at 1.
    rewrite Hs at 1. by rewrite string_rev_app, string_rev_repeatByte.
  - intros p Hp. apply (Hhead (String.rev p)).
    rewrite <- (string_rev_involutive (strings.dropWhileByte c (String.rev s))).
    rewrite Hp, string_rev_app. done.
Qed.

Lemma prefix_length n s : (String.length (strings.prefix n s) ≤ n)%nat.
Proof.
  revert s. induction n as [|n IH]; intros [|a s]; simpl; try lia.
  specialize (IH s). lia.
Qed.

Lemma prefix_length_exact n s :
  (n ≤ String.length s)%nat → String.length (strings.prefix n s) = n.
Proof.
  revert s. induction n as [|n IH]; intros [|a s]; simpl; try lia.
  intros Hn. rewrite IH; lia.
Qed.

Lemma prefix_is_prefix n s : ∃ rest, s = strings.prefix n s +:+ rest.
Proof.
  revert s. induction n as [|n IH]; intros [|a s]; simpl; eauto.
  destruct (IH s) as [rest Hrest]. exists rest.
  by rewrite string_app_cons, <- Hrest.
Qed.

End StringFacts.

Section TextFacts.
Context `{GoLibrary}.

(** X11: the base URL of a factory that [NewKnowsTools] returns is the
    trimmed URL of the options without the slashes at its end, and it never
    ends with a slash, so that appending a path, which begins with one,
    gives no doubled slash at the joint. *)
Theorem baseURL_has_no_trailing_slash (opts : KnowsToolOptions)
    (f : knowsToolFactory) :
  NewKnowsTools opts = Ok f →
  (∃ n, strings.TrimSpace (APIBaseURL opts)
        = baseURL (client f) +:+ repeatByte "/"%char n)
  ∧ ∀ p, baseURL (client f) ≠ p +:+ "/".
Proof.
  unfold NewKnowsTools.
  case_bool_decide; [discriminate|]. case_bool_decide; [discriminate|].
  destruct (normalizeDataScopes (DefaultDataScope opts)); [|discriminate].
  intros [= <-]. simpl. apply TrimRightByte_spec.
Qed.

(** X12: the text of a response body that goes into an error message is
    bounded: with a positive limit it is the trimmed body when that has at
    most [max] bytes, and otherwise its first [max] bytes followed by three
    dots, [max + 3] bytes in all; a limit that is not positive switches the
    truncation off. *)
Theorem truncateForError_is_bounded (value : string) (max : Z) :
  (0 < max → strings.length (truncateForError value max) ≤ max + 3)
  ∧ (0 < max → strings.length (strings.TrimSpace value) ≤ max →
     truncateForError value max = strings.TrimSpace value)
  ∧ (0 < max → max < strings.length (strings.TrimSpace value) →
     strings.length (truncateForError value max) = max + 3
     ∧ ∃ head rest,
         truncateForError value max = head +:+ "..."
         ∧ strings.TrimSpace value = head +:+ rest
         ∧ strings.length head = max)
  ∧ (max ≤ 0 → truncateForError value max = strings.TrimSpace value).
Proof.
  unfold truncateForError, strings.length.
  set (trimmed := strings.TrimSpace value).
  split; [|split; [|split]].
  - intros Hmax. rewrite (proj2 (Z.leb_gt _ _)) by done. simpl orb.
    destruct (Z.of_nat (String.length trimmed) <=? max) eqn:Hshort.
    + apply Z.leb_le in Hshort. lia.
    + rewrite string_length_app. simpl.
      pose proof (prefix_length (Z.to_nat max) trimmed). lia.
  - intros Hmax Hshort. rewrite (proj2 (Z.leb_gt _ _)) by done.
    by rewrite (proj2 (Z.leb_le _ _)) by done.
  - intros Hmax Hlong. rewrite (proj2 (Z.leb_gt _ _)) by done.
    rewrite (proj2 (Z.leb_gt _ _)) by done. simpl orb. cbv iota.
    rewrite string_length_app, prefix_length_exact by lia. simpl.
    split; [lia|].
    destruct (prefix_is_prefix (Z.to_nat max) trimmed) as [rest Hrest].
    exists (strings.prefix (Z.to_nat max) trimmed), rest.
    split; [done|]. split; [done|]. rewrite prefix_length_exact; lia.
  - intros Hmax. by rewrite (proj2 (Z.leb_le _ _)) by done.
Qed.

End TextFacts.

Lemma truncateForError_is_bounded_witness :
  truncateForError "  service unavailable  " 7 = "service..."
  ∧ strings.length (truncateForError "  service unavailable  " 7) = 10.
Proof.
  destruct (truncateForError_is_bounded "  service unavailable  " 7)
    as (_ & _ & Hlong & _).
  destruct Hlong as (Hlen & _); [lia|vm_compute; reflexivity|].
  split; [vm_compute; reflexivity|exact Hlen].
Defined.

Lemma baseURL_has_no_trailing_slash_witness :
  ∃ f, @NewKnowsTools exampleLibrary zeroOptions = Ok f
       ∧ baseURL (client f) = "http://knows.test"
       ∧ ∀ p, baseURL (client f) ≠ p +:+ "/".
Proof.
  assert (∃ f, @NewKnowsTools exampleLibrary zeroOptions = Ok f) as [f Hf]
    by (eexists; reflexivity).
  exists f. split; [exact Hf|].
  destruct (@baseURL_has_no_trailing_slash exampleLibrary zeroOptions f Hf)
    as [_ Hslash].
  split; [|exact Hslash]. vm_compute in Hf. by injection Hf as <-.
Defined.

(** ** Validation, again *)

Section ValidationMore.
Context `{GoLibrary}.

Lemma answer_allowed_cases x :
  x ∈ knowsAllowedAnswerTypes ↔
  x = "CLINICAL" ∨ x = "RESEARCH" ∨ x = "POPULAR_SCIENCE".
Proof.
  unfold knowsAllowedAnswerTypes.
  rewrite !elem_of_union, !elem_of_singleton. tauto.
Qed.

(** X13: the two normalizers of enumerated values return nothing but a
    member of their allowed set, namely the trimmed and uppercased input,
    fail exactly when that is no member, and return their own results
    unchanged. *)
Theorem enumerations_normalize_into_allowed_sets (raw : string) :
  (∀ n, normalizeAnswerType raw = Ok n ↔
        n = ToUpper (strings.TrimSpace raw) ∧ n ∈ knowsAllowedAnswerTypes)
  ∧ ((∃ e, normalizeAnswerType raw = Err e) ↔
     ToUpper (strings.TrimSpace raw) ∉ knowsAllowedAnswerTypes)
  ∧ (∀ n, normalizeAnswerType raw = Ok n → normalizeAnswerType n = Ok n)
  ∧ (∀ n, normalizeDataScope raw = Ok n ↔
          n = ToUpper (strings.TrimSpace raw) ∧ n ∈ knowsAllowedDataScopes)
  ∧ ((∃ e, normalizeDataScope raw = Err e) ↔
     ToUpper (strings.TrimSpace raw) ∉ knowsAllowedDataScopes)
  ∧ (∀ n, normalizeDataScope raw = Ok n → normalizeDataScope n = Ok n).
Proof.
  assert (EmptyString ∉ knowsAllowedAnswerTypes) as Hempty.
  { rewrite answer_allowed_cases. intros [|[|]]; discriminate. }
  assert (∀ n, normalizeAnswerType raw = Ok n ↔
               n = ToUpper (strings.TrimSpace raw)
               ∧ n ∈ knowsAllowedAnswerTypes) as Hok.
  { intros n. unfold normalizeAnswerType.
    case_bool_decide as He; [|case_bool_decide as Hin].
    - split; [discriminate|]. intros [-> Hin]. by rewrite He in Hin.
    - split; [by intros [= <-]|]. by intros [-> _].
    - split; [discriminate|]. by intros [-> ?]. }
  split; [done|]. split; [|split; [|split; [|split]]].
  - unfold normalizeAnswerType.
    case_bool_decide as He; [|case_bool_decide as Hin].
    + split; [|eauto]. intros _. by rewrite He.
    + split; [by intros [e [=]]|done].
    + split; [done|eauto].
  - intros n [_ Hin]%Hok. apply answer_allowed_cases in Hin.
    destruct Hin as [-> | [-> | ->]]; reflexivity.
  - intros n. apply normalizeDataScope_Ok.
  - apply normalizeDataScope_Err.
  - intros n [_ Hin]%normalizeDataScope_Ok.
    by apply normalizeDataScope_allowed.
Qed.

Lemma stringElements_strings key (xs : list string) : ∀ i,
  stringElements key (VStr <$> xs) i = Ok (trimmedNonBlank xs).
Proof.
  induction xs as [|x xs IH]; intros i; simpl; [done|].
  rewrite IH. simpl. by case_bool_decide.
Qed.

Lemma stringElements_first_bad key (xs : list string) bad rest : ∀ i,
  (∀ text, bad ≠ VStr text) →
  stringElements key ((VStr <$> xs) ++ bad :: rest) i
  = Err (errorString (key +:+ "[" +:+ pretty (i + Z.of_nat (length xs))
                      +:+ "] must be a string")).
Proof.
  induction xs as [|x xs IH]; intros i Hbad; simpl.
  - rewrite Z.add_0_r. destruct bad; try done. by destruct (Hbad s).
  - rewrite IH by done. simpl.
    by replace (i + 1 + Z.of_nat (length xs))
      with (i + Z.of_nat (S (length xs))) by lia.
Qed.

Lemma trimmedNonBlank_elem (xs : list string) x :
  x ∈ trimmedNonBlank xs ↔
  x ≠ EmptyString ∧ ∃ y, y ∈ xs ∧ x = strings.TrimSpace y.
Proof.
  induction xs as [|a xs IH]; simpl.
  - rewrite elem_of_nil. split; [done|]. by intros (_ & y & ?%elem_of_nil & _).
  - case_bool_decide as Ha.
    + rewrite IH. split.
      * intros (Hx & y & Hy & ->). split; [done|]. exists y. split; [by right|done].
      * intros (Hx & y & Hy & ->). split; [done|].
        apply elem_of_cons in Hy as [->|Hy]; [done|]. eauto.
    + rewrite elem_of_cons, IH. split.
      * intros [->|(Hx & y & Hy & ->)].
        -- split; [done|]. exists a. split; [left|done].
        -- split; [done|]. exists y. split; [by right|done].
      * intros (Hx & y & Hy & ->).
        apply elem_of_cons in Hy as [->|Hy]; [by left|]. right. eauto.
Qed.

(** X14: [getOptionalStringArray] treats a native list of strings and a
    JSON array of the same strings alike: both give the trimmed strings in
    their order without the blank ones; an absent key and [nil] give the
    empty list; and a JSON array with an element that is not a string fails
    with an error that carries the index of the first such element. *)
Theorem getOptionalStringArray_forms_agree (args : gmap string argument)
    (key : string) :
  (∀ xs, args !! key = Some (argStrings xs)
         ∨ args !! key = Some (argJSON (VArr (VStr <$> xs))) →
     getOptionalStringArray args key = Ok (trimmedNonBlank xs)
     ∧ ∀ x, x ∈ trimmedNonBlank xs ↔
            x ≠ EmptyString ∧ ∃ y, y ∈ xs ∧ x = strings.TrimSpace y)
  ∧ (args !! key = None ∨ args !! key = Some (argJSON VNil) →
     getOptionalStringArray args key = Ok [])
  ∧ (∀ xs bad rest,
       args !! key = Some (argJSON (VArr ((VStr <$> xs) ++ bad :: rest))) →
       (∀ text, bad ≠ VStr text) →
       getOptionalStringArray args key
       = Err (errorString (key +:+ "[" +:+ pretty (Z.of_nat (length xs))
                           +:+ "] must be a string"))).
Proof.
  split; [|split].
  - intros xs Hargs. split; [|apply trimmedNonBlank_elem].
    unfold getOptionalStringArray.
    destruct Hargs as [-> | ->]; [done|apply stringElements_strings].
  - unfold getOptionalStringArray. by intros [-> | ->].
  - intros xs bad rest Hargs Hbad. unfold getOptionalStringArray.
    rewrite Hargs. by rewrite stringElements_first_bad.
Qed.

End ValidationMore.

Lemma getOptionalStringArray_forms_agree_witness :
  getOptionalStringArray
    ({[ "data_scope" := argStrings [" guide"; "  "; "PAPER "] ]}
       : gmap string argument) "data_scope"
  = Ok ["guide"; "PAPER"]
  ∧ getOptionalStringArray
      ({[ "data_scope" := argJSON (VArr [VStr "guide"; VNum 3]) ]}
         : gmap string argument) "data_scope"
    = Err (errorString "data_scope[1] must be a string").
Proof.
  split.
  - destruct (getOptionalStringArray_forms_agree
                ({[ "data_scope" := argStrings [" guide"; "  "; "PAPER "] ]})
                "data_scope") as (Hsame & _).
    destruct (Hsame [" guide"; "  "; "PAPER "]) as [-> _]; [by left|].
    vm_compute. reflexivity.
  - destruct (getOptionalStringArray_forms_agree
                ({[ "data_scope" := argJSON (VArr [VStr "guide"; VNum 3]) ]})
                "data_scope") as (_ & _ & Hbad).
    apply (Hbad ["guide"] (VNum 3) []); [reflexivity|discriminate].
Defined.

Lemma enumerations_normalize_into_allowed_sets_witness :
  @normalizeAnswerType exampleLibrary " clinical " = Ok "CLINICAL"
  ∧ @normalizeAnswerType exampleLibrary "CLINICAL" = Ok "CLINICAL".
Proof.
  destruct (@enumerations_normalize_into_allowed_sets exampleLibrary
              " clinical ") as (Hok & _ & Hidem & _).
  assert (@normalizeAnswerType exampleLibrary " clinical " = Ok "CLINICAL")
    as Hrun by (apply Hok; split; [reflexivity|]; apply answer_allowed_cases;
                by left).
  split; [exact Hrun|]. by apply Hidem.
Defined.

(** ** Parsing of batch arguments *)

Section ParseFacts.
Context `{GoLibrary}.

(** X15: parsing the arguments of a batch tool keeps the elements in
    place: on success the key holds an array, the parsed list is as long as
    the array, and its element [i] is made from element [i] of the array,
    an object whose identifier is not blank and whose answer type or
    evidence type normalizes to the one recorded, a member of the allowed
    set. *)
Theorem batch_parsing_keeps_positions (args : gmap string value) :
  (∀ requests,
     parseBatchAnswerRequests args = Ok requests →
     ∃ raw,
       args !! "requests" = Some (VArr raw)
       ∧ length requests = length raw
       ∧ ∀ i req, requests !! i = Some req →
           AnswerType req ∈ knowsAllowedAnswerTypes
           ∧ ∃ item, raw !! i = Some item ∧ answerRequestOf item req)
  ∧ (∀ evidences,
       parseBatchEvidenceRequests args = Ok evidences →
       ∃ raw,
         args !! "evidences" = Some (VArr raw)
         ∧ length evidences = length raw
         ∧ ∀ i ev, evidences !! i = Some ev →
             Type_ ev ∈ knowsAllowedDataScopes
             ∧ ∃ item, raw !! i = Some item ∧ evidenceRequestOf item ev).
Proof.
  split.
  - intros requests. unfold parseBatchAnswerRequests, getRequiredArray.
    destruct (args !! "requests") as [[| | | |raw|]|]; try discriminate.
    simpl. destruct (parseBatchAnswerLoop raw 0 []) as [out|] eqn:Hloop;
      [|discriminate].
    simpl. case_bool_decide; [discriminate|]. intros [= <-].
    apply parseBatchAnswerLoop_Ok in Hloop as (new & -> & Hall).
    exists raw. split; [done|]. simpl.
    split; [symmetry; by eapply Forall2_length|].
    intros i req Hreq.
    destruct (Forall2_lookup_r _ _ _ _ _ Hall Hreq) as (item & Hitem & Hof).
    split; [|eauto].
    destruct Hof as (m & answerType & _ & _ & _ & Hn).
    unfold normalizeAnswerType in Hn.
    case_bool_decide; [discriminate|]. case_bool_decide; [|discriminate].
    by injection Hn as <-.
  - intros evidences. unfold parseBatchEvidenceRequests, getRequiredArray.
    destruct (args !! "evidences") as [[| | | |raw|]|]; try discriminate.
    simpl. destruct (parseBatchEvidenceLoop raw 0 []) as [out|] eqn:Hloop;
      [|discriminate].
    simpl. case_bool_decide; [discriminate|]. intros [= <-].
    apply parseBatchEvidenceLoop_Ok in Hloop as (new & -> & Hall).
    exists raw. split; [done|]. simpl.
    split; [symmetry; by eapply Forall2_length|].
    intros i ev Hev.
    destruct (Forall2_lookup_r _ _ _ _ _ Hall Hev) as (item & Hitem & Hof).
    split; [|eauto].
    destruct Hof as (m & evidenceType & _ & _ & _ & Hn).
    by apply normalizeDataScope_Ok in Hn as [_ ?].
Qed.

(** X16: an evidence type that passed normalization always reaches one of
    the four lookups: [fetchEvidenceDetail] never answers it with the error
    for an unsupported type, so no row of a parsed evidence batch carries
    that error. *)
Theorem fetchEvidenceDetail_dispatches_normalized_types
    (c : knowsClient) (clk : clock) (w : world)
    (evidenceID raw evidenceType : string) (translate : option bool) :
  normalizeDataScope raw = Ok evidenceType →
  (evidenceType = "PAPER"
   ∧ fetchEvidenceDetail c clk w evidenceID evidenceType translate
     = getPaperEN c clk w evidenceID translate)
  ∨ (evidenceType = "PAPER_CN"
     ∧ fetchEvidenceDetail c clk w evidenceID evidenceType translate
       = getPaperCN c clk w evidenceID)
  ∨ (evidenceType = "GUIDE"
     ∧ fetchEvidenceDetail c clk w evidenceID evidenceType translate
       = getGuide c clk w evidenceID translate)
  ∨ (evidenceType = "MEETING"
     ∧ fetchEvidenceDetail c clk w evidenceID evidenceType translate
       = getMeeting c clk w evidenceID translate).
Proof.
  intros [_ Hin]%normalizeDataScope_Ok. apply allowed_cases in Hin.
  destruct Hin as [-> | [-> | [-> | ->]]]; auto 10.
Qed.

Lemma parseBatchAnswerLoop_app l1 : ∀ l2 i out,
  parseBatchAnswerLoop (l1 ++ l2) i out
  = match parseBatchAnswerLoop l1 i out with
    | Ok out' => parseBatchAnswerLoop l2 (i + Z.of_nat (length l1)) out'
    | Err e => Err e
    end.
Proof.
  induction l1 as [|item l1 IH]; intros l2 i out; simpl.
  - by rewrite Z.add_0_r.
  - destruct item as [| | | |?|m]; try done.
    destruct (getRequiredString m "question_id"); [|done].
    destruct (getRequiredString m "answer_type") as [answerType|]; [|done].
    destruct (normalizeAnswerType answerType); [|done].
    rewrite IH. by replace (i + 1 + Z.of_nat (length l1))
      with (i + Z.of_nat (S (length l1))) by lia.
Qed.

Lemma parseBatchEvidenceLoop_app l1 : ∀ l2 i out,
  parseBatchEvidenceLoop (l1 ++ l2) i out
  = match parseBatchEvidenceLoop l1 i out with
    | Ok out' => parseBatchEvidenceLoop l2 (i + Z.of_nat (length l1)) out'
    | Err e => Err e
    end.
Proof.
  induction l1 as [|item l1 IH]; intros l2 i out; simpl.
  - by rewrite Z.add_0_r.
  - destruct item as [| | | |?|m]; try done.
    destruct (getRequiredString m "evidence_id"); [|done].
    destruct (getRequiredString m "type") as [evidenceType|]; [|done].
    destruct (normalizeDataScope evidenceType); [|done].
    rewrite IH. by replace (i + 1 + Z.of_nat (length l1))
      with (i + Z.of_nat (S (length l1))) by lia.
Qed.

(** X17: a batch whose array has a malformed element fails as a whole, and
    the error names the position of the first such element: after
    well-formed elements [valid], an element that is not an object gives
    [requests[n] must be an object] with [n] the length of [valid], and an
    object whose identifier is missing or blank gives the error of the
    identifier behind the prefix [requests[n]: ]; likewise for
    [evidences]. *)
Theorem batch_parsing_reports_first_bad_index (args : gmap string value)
    (valid rest : list value) (bad : value) :
  let n := pretty (Z.of_nat (length valid)) in
  (∀ out,
     args !! "requests" = Some (VArr (valid ++ bad :: rest)) →
     parseBatchAnswerLoop valid 0 [] = Ok out →
     ((∀ m, bad ≠ VObj m) →
      parseBatchAnswerRequests args
      = Err (errorString ("requests[" +:+ n +:+ "] must be an object")))
     ∧ (∀ m err, bad = VObj m →
          getRequiredString m "question_id" = Err err →
          parseBatchAnswerRequests args
          = Err (Errorf_w ("requests[" +:+ n +:+ "]: ") err)))
  ∧ (∀ out,
       args !! "evidences" = Some (VArr (valid ++ bad :: rest)) →
       parseBatchEvidenceLoop valid 0 [] = Ok out →
       ((∀ m, bad ≠ VObj m) →
        parseBatchEvidenceRequests args
        = Err (errorString ("evidences[" +:+ n +:+ "] must be an object")))
       ∧ (∀ m err, bad = VObj m →
            getRequiredString m "evidence_id" = Err err →
            parseBatchEvidenceRequests args
            = Err (Errorf_w ("evidences[" +:+ n +:+ "]: ") err))).
Proof.
  intros n. split.
  - intros out Hargs Hvalid.
    unfold parseBatchAnswerRequests, getRequiredArray. rewrite Hargs. simpl.
    rewrite parseBatchAnswerLoop_app, Hvalid. simpl. split.
    + intros Hbad. destruct bad as [| | | |?|m]; try done. by destruct (Hbad m).
    + intros m err -> Herr. by rewrite Herr.
  - intros out Hargs Hvalid.
    unfold parseBatchEvidenceRequests, getRequiredArray. rewrite Hargs. simpl.
    rewrite parseBatchEvidenceLoop_app, Hvalid. simpl. split.
    + intros Hbad. destruct bad as [| | | |?|m]; try done. by destruct (Hbad m).
    + intros m err -> Herr. by rewrite Herr.
Qed.

End ParseFacts.

Lemma batch_parsing_keeps_positions_witness :
  ∃ raw, batchArgs !! "requests" = Some (VArr raw)
         ∧ length raw = 2%nat
         ∧ ∃ item, raw !! 1%nat = Some item
                   ∧ @answerRequestOf exampleLibrary item
                       {| QuestionID := "q2"; AnswerType := "RESEARCH" |}.
Proof.
  destruct (@batch_parsing_keeps_positions exampleLibrary batchArgs)
    as [Hanswer _].
  destruct (Hanswer [ {| QuestionID := "q1"; AnswerType := "CLINICAL" |};
                      {| QuestionID := "q2"; AnswerType := "RESEARCH" |} ])
    as (raw & Hraw & Hlen & Hitems); [vm_compute; reflexivity|].
  exists raw. split; [exact Hraw|]. split; [by rewrite <- Hlen|].
  destruct (Hitems 1%nat _ eq_refl) as (_ & Hitem). exact Hitem.
Defined.

Lemma fetchEvidenceDetail_dispatches_normalized_types_witness :
  @fetchEvidenceDetail exampleLibrary defaultClient
    {| nowGet := 0; nowSet := 5 |} refusingWorld "g1" "GUIDE" None
  = @getGuide exampleLibrary defaultClient
      {| nowGet := 0; nowSet := 5 |} refusingWorld "g1" None.
Proof.
  destruct (@fetchEvidenceDetail_dispatches_normalized_types exampleLibrary
              defaultClient {| nowGet := 0; nowSet := 5 |} refusingWorld
              "g1" " guide" "GUIDE" None)
    as [[E _] | [[E _] | [[_ Hguide] | [E _]]]];
    [reflexivity|discriminate E|discriminate E|exact Hguide|discriminate E].
Defined.

Lemma batch_parsing_reports_first_bad_index_witness :
  @parseBatchAnswerRequests exampleLibrary malformedBatchArgs
  = Err (errorString "requests[1] must be an object").
Proof.
  destruct (@batch_parsing_reports_first_bad_index exampleLibrary
              malformedBatchArgs
              [ VObj (<["answer_type" := VStr "research"]>
                        {[ "question_id" := VStr "q1" ]}) ]
              [] (VStr "q2")) as [Hanswer _].
  destruct (Hanswer [ {| QuestionID := "q1"; AnswerType := "RESEARCH" |} ])
    as [Hobject _]; [reflexivity|vm_compute; reflexivity|].
  apply Hobject. discriminate.
Defined.

(** ** The handlers of the single tools *)

Section HandlerFacts.
Context `{GoLibrary}.

Lemma NewKnowsTools_scope_normal (opts : KnowsToolOptions) f :
  NewKnowsTools opts = Ok f →
  defaultDataScope f ≠ []
  ∧ normalizeDataScopes (defaultDataScope f) = Ok (defaultDataScope f).
Proof.
  unfold NewKnowsTools.
  case_bool_decide; [discriminate|]. case_bool_decide; [discriminate|].
  destruct (normalizeDataScopes (DefaultDataScope opts)) as [scope|] eqn:Hscope;
    [|discriminate].
  intros [= <-]. simpl.
  apply normalizeDataScopes_Ok_inv in Hscope as (_ & _ & _ & Hidem & _).
  destruct knowsAllDataScopes_normal as (_ & _ & Hidem0).
  by case_bool_decide.
Qed.

Lemma stringsValue_nonempty (xs : list string) :
  xs ≠ [] → stringsValue xs = VArr (VStr <$> xs).
Proof. by destruct xs. Qed.

(** X18: for a factory that [NewKnowsTools] returns and arguments with a
    question: when [data_scope] is absent, [nil], empty or all blank, the
    search request carries exactly the default scope list of the factory;
    when scopes are given, it carries them trimmed, uppercased and without
    repetition, in the order of their first occurrence; and when one of them
    is not allowed the handler fails without an exchange. *)
Theorem aiSearch_scope_defaulting (opts : KnowsToolOptions)
    (f : knowsToolFactory) (w : world) (args : gmap string argument)
    (question : string) (scope : list string) :
  NewKnowsTools opts = Ok f →
  getRequiredString (asJSON <$> args) "question" = Ok question →
  getOptionalStringArray args "data_scope" = Ok scope →
  (scope = [] →
   aiSearchHandler f w args
   = postJSON (client f) w "/knows/ai_search"
       (VObj (<["data_scope" := VArr (VStr <$> defaultDataScope f)]>
                {[ "query" := VStr question ]})))
  ∧ (scope ≠ [] →
     (∀ err, normalizeDataScopes scope = Err err →
        aiSearchHandler f w args = (Err err, []))
     ∧ (∀ normalized, normalizeDataScopes scope = Ok normalized →
          normalized = firstOccurrences (normalizedScope <$> scope)
          ∧ aiSearchHandler f w args
            = postJSON (client f) w "/knows/ai_search"
                (VObj (<["data_scope" := VArr (VStr <$> normalized)]>
                         {[ "query" := VStr question ]})))).
Proof.
  intros Hf Hquestion Hscope.
  destruct (NewKnowsTools_scope_normal opts f Hf) as [Hne Hnormal].
  unfold aiSearchHandler. rewrite Hquestion, Hscope. split.
  - intros ->. simpl. rewrite Hnormal. unfold aiSearch.
    by rewrite stringsValue_nonempty.
  - intros Hgiven.
    rewrite bool_decide_eq_false_2 by (by destruct scope).
    split.
    + intros err ->. done.
    + intros normalized Hn. rewrite Hn.
      apply normalizeDataScopes_Ok_inv in Hn as (Hfirst & _ & _ & _ & Hout).
      split; [done|]. unfold aiSearch. by rewrite stringsValue_nonempty by auto.
Qed.

(** X19: a handler that needs [evidence_id] checks it first: when the key
    is missing the error is [evidence_id is required], when its value is
    not a string or is blank the error is
    [evidence_id must be a non-empty string]; every one of the six handlers
    then returns that error without an exchange, and those that use the
    cache leave the client as it was. *)
Theorem handlers_reject_bad_evidence_id (f : knowsToolFactory) (clk : clock)
    (w : world) (args : gmap string value) :
  (∀ text, args !! "evidence_id" = Some (VStr text) →
           strings.TrimSpace text = EmptyString) →
  let err :=
    match args !! "evidence_id" with
    | None => errorString "evidence_id is required"
    | Some _ => errorString "evidence_id must be a non-empty string"
    end in
  evidenceSummaryHandler f w args = (Err err, [])
  ∧ evidenceHighlightHandler f w args = (Err err, [])
  ∧ getPaperENHandler f clk w args = (Err err, client f, [])
  ∧ getPaperCNHandler f clk w args = (Err err, client f, [])
  ∧ getGuideHandler f clk w args = (Err err, client f, [])
  ∧ getMeetingHandler f clk w args = (Err err, client f, []).
Proof.
  intros Hblank err.
  assert (getRequiredString args "evidence_id" = Err err) as Hid.
  { subst err. unfold getRequiredString.
    destruct (args !! "evidence_id") as [[| | |text| |]|]; try done.
    by rewrite bool_decide_eq_true_2 by (by apply Hblank). }
  unfold evidenceSummaryHandler, evidenceHighlightHandler, getPaperENHandler,
    getPaperCNHandler, getGuideHandler, getMeetingHandler.
  by rewrite Hid.
Qed.

(** The content of an optional string argument as [autoTagging] sends
    it: nothing unless the key holds a string that is not blank. *)
Lemma getOptionalString_Ok (args : gmap string value) key text :
  getOptionalString args key = Ok text →
  text = match args !! key with
         | Some (VStr raw) => strings.TrimSpace raw
         | _ => EmptyString
         end.
Proof.
  unfold getOptionalString.
  destruct (args !! key) as [[| | |raw| |]|]; try discriminate;
    by intros [= <-].
Qed.

(** X20: the request of [knows_auto_tagging] carries the trimmed tagging
    type, carries [content] and [evidence_id] exactly when the argument is
    a string that is not blank, trimmed, and carries nothing else; an
    argument that is absent, [nil] or blank is left out rather than sent
    empty. *)
Theorem autoTagging_leaves_out_blank_fields (f : knowsToolFactory)
    (w : world) (args : gmap string value)
    (taggingType content evidenceID : string) :
  getRequiredString args "tagging_type" = Ok taggingType →
  getOptionalString args "content" = Ok content →
  getOptionalString args "evidence_id" = Ok evidenceID →
  let sent (key : string) : option value :=
    match args !! key with
    | Some (VStr raw) =>
        if bool_decide (strings.TrimSpace raw = EmptyString) then None
        else Some (VStr (strings.TrimSpace raw))
    | _ => None
    end in
  ∃ payload : gmap string value,
    autoTaggingHandler f w args
    = postJSON (client f) w "/knows/auto_tagging" (VObj payload)
    ∧ payload !! "tagging_type" = Some (VStr taggingType)
    ∧ payload !! "content" = sent "content"
    ∧ payload !! "evidence_id" = sent "evidence_id"
    ∧ ∀ key, key ≠ "tagging_type" → key ≠ "content" → key ≠ "evidence_id" →
        payload !! key = None.
Proof.
  intros Htype Hcontent Hid sent.
  exists (autoTaggingPayload content evidenceID taggingType). split.
  { unfold autoTaggingHandler. by rewrite Htype, Hcontent, Hid. }
  apply getOptionalString_Ok in Hcontent, Hid. subst sent. simpl.
  unfold autoTaggingPayload.
  assert (∀ key, (match args !! key with
                  | Some (VStr raw) =>
                      if bool_decide (strings.TrimSpace raw = EmptyString)
                      then None else Some (VStr (strings.TrimSpace raw))
                  | _ => None
                  end : option value)
                 = let text := match args !! key with
                               | Some (VStr raw) => strings.TrimSpace raw
                               | _ => EmptyString
                               end in
                   if bool_decide (text ≠ EmptyString) then Some (VStr text)
                   else None) as Hsent.
  { intros key. destruct (args !! key) as [[| | |raw| |]|]; simpl; try done.
    by repeat case_bool_decide. }
  rewrite !Hsent. simpl. rewrite <- Hcontent, <- Hid. clear Hsent.
  repeat case_bool_decide; simplify_map_eq; repeat split; try done;
    intros key ? ? ?; by simplify_map_eq.
Qed.



End HandlerFacts.

Lemma aiSearch_scope_defaulting_witness :
  ∃ f, @NewKnowsTools exampleLibrary zeroOptions = Ok f
       ∧ defaultDataScope f = ["GUIDE"; "PAPER"]
       ∧ @aiSearchHandler exampleLibrary f refusingWorld searchArgs
         = @postJSON exampleLibrary (client f) refusingWorld "/knows/ai_search"
             (VObj (<["data_scope" := VArr [VStr "GUIDE"; VStr "PAPER"]]>
                      {[ "query" := VStr "What is new?" ]})).
Proof.
  assert (∃ f, @NewKnowsTools exampleLibrary zeroOptions = Ok f
               ∧ defaultDataScope f = ["GUIDE"; "PAPER"]) as (f & Hf & Hscope)
    by (eexists; split; reflexivity).
  exists f. split; [exact Hf|]. split; [exact Hscope|].
  destruct (@aiSearch_scope_defaulting exampleLibrary zeroOptions f
              refusingWorld searchArgs "What is new?" [] Hf)
    as [Hdefault _]; [vm_compute; reflexivity|reflexivity|].
  rewrite Hdefault by reflexivity. by rewrite Hscope.
Defined.

Lemma handlers_reject_bad_evidence_id_witness :
  @getGuideHandler exampleLibrary defaultFactory {| nowGet := 0; nowSet := 5 |}
    refusingWorld {[ "evidence_id" := VStr "  " ]}
  = (Err (errorString "evidence_id must be a non-empty string"),
     defaultClient, [])
  ∧ @evidenceSummaryHandler exampleLibrary defaultFactory refusingWorld ∅
    = (Err (errorString "evidence_id is required"), []).
Proof.
  split.
  - destruct (@handlers_reject_bad_evidence_id exampleLibrary defaultFactory
                {| nowGet := 0; nowSet := 5 |} refusingWorld
                {[ "evidence_id" := VStr "  " ]})
      as (_ & _ & _ & _ & Hguide & _); [|exact Hguide].
    intros text Htext. vm_compute in Htext. by injection Htext as <-.
  - destruct (@handlers_reject_bad_evidence_id exampleLibrary defaultFactory
                {| nowGet := 0; nowSet := 5 |} refusingWorld ∅)
      as (Hsummary & _); [|exact Hsummary].
    intros text Htext. discriminate Htext.
Defined.

Lemma autoTagging_leaves_out_blank_fields_witness :
  ∃ payload : gmap string value,
    @autoTaggingHandler exampleLibrary defaultFactory refusingWorld taggingArgs
    = @postJSON exampleLibrary defaultClient refusingWorld "/knows/auto_tagging"
        (VObj payload)
    ∧ payload !! "content" = None
    ∧ payload !! "evidence_id" = Some (VStr "p1").
Proof.
  destruct (@autoTagging_leaves_out_blank_fields exampleLibrary defaultFactory
              refusingWorld taggingArgs "PICO" EmptyString "p1")
    as (payload & Hrun & _ & Hcontent & Hid & _);
    [vm_compute; reflexivity..|].
  exists payload. split; [exact Hrun|]. split.
  - rewrite Hcontent. vm_compute. reflexivity.
  - rewrite Hid. vm_compute. reflexivity.
Defined.


Section HandlerFacts2.
Context `{GoLibrary}.

(** X22: [knows_answer] validates before it sends: whenever its handler
    makes an exchange, the request it posts carries a question identifier
    that is not blank and one of the three allowed answer types, the trimmed
    and uppercased argument; whenever validation fails, nothing is sent. *)
Theorem answerHandler_sends_only_valid_requests (f : knowsToolFactory)
    (w : world) (args : gmap string value) :
  (∃ questionID answerType raw,
     getRequiredString args "question_id" = Ok questionID
     ∧ questionID ≠ EmptyString
     ∧ getRequiredString args "answer_type" = Ok raw
     ∧ answerType = ToUpper (strings.TrimSpace raw)
     ∧ answerType ∈ knowsAllowedAnswerTypes
     ∧ answerHandler f w args
       = postJSON (client f) w "/knows/answer"
           (VObj (<["answer_type" := VStr answerType]>
                    {[ "question_id" := VStr questionID ]})))
  ∨ (∃ err, answerHandler f w args = (Err err, [])).
Proof.
  unfold answerHandler.
  destruct (getRequiredString args "question_id") as [questionID|] eqn:Hq;
    [|right; eauto].
  destruct (getRequiredString args "answer_type") as [raw|] eqn:Ha;
    [|right; eauto].
  destruct (normalizeAnswerType raw) as [answerType|] eqn:Hn; [|right; eauto].
  left. exists questionID, answerType, raw. split; [done|]. split.
  { unfold getRequiredString in Hq.
    destruct (args !! "question_id") as [[| | |text| |]|]; try discriminate.
    case_bool_decide; [discriminate|]. by injection Hq as <-. }
  split; [done|].
  unfold normalizeAnswerType in Hn.
  case_bool_decide; [discriminate|]. case_bool_decide; [|discriminate].
  injection Hn as <-. done.
Qed.

End HandlerFacts2.

Section CacheRuns2.
Implicit Types (c : knowsDetailCache) (k key : string) (v : value).

(** X23: on a consistent cache of positive capacity a [Set] removes at most
    one entry, and only the oldest: every other key keeps its entry, unless
    the key being set is new, the cache is full and the other key is the
    head of the insertion order, in which case exactly that key goes. *)
Theorem Set_evicts_at_most_the_oldest c (now : Z) key v :
  cacheInv c → 0 < maxEntries c →
  let c' := Set_ c now key v in
  let evicting :=
    entries c !! key = None ∧ Z.of_nat (size (entries c)) = maxEntries c in
  (¬ evicting → ∀ k, k ≠ key → entries c' !! k = entries c !! k)
  ∧ (evicting →
     ∃ oldest rest,
       order c = oldest :: rest
       ∧ entries c' !! oldest = None
       ∧ ∀ k, k ≠ key → k ≠ oldest → entries c' !! k = entries c !! k)
  ∧ (size (entries c) ≤ 1 + size (entries c'))%nat.
Proof.
  intros Hinv Hcap c' evicting. subst c' evicting.
  pose proof (cacheInv_size_length c Hinv) as Hlen.
  destruct Hinv as (Hnd & Hdom & Hsize).
  unfold Set_. rewrite (proj2 (Z.leb_gt _ _)) by done.
  destruct (entries c !! key) as [e|] eqn:Hkey.
  - simpl. split; [|split].
    + intros _ k Hk. by rewrite lookup_insert_ne.
    + by intros [? _].
    + rewrite map_size_insert_Some by eauto. lia.
  - destruct (decide (Z.of_nat (size (entries c)) = maxEntries c)) as [Hfull|Hroom].
    + destruct (order c) as [|oldest rest] eqn:Hord.
      { simpl in Hlen. lia. }
      assert (is_Some (entries c !! oldest)) as Hold by (apply Hdom; left).
      assert (oldest ≠ key) as Hne
        by (intros ->; rewrite Hkey in Hold; by destruct Hold).
      rewrite (evictOldest_full _ _ _ _ Hold Hfull). simpl.
      split; [tauto|]. split.
      * intros _. exists oldest, rest. split; [done|]. split.
        -- rewrite lookup_insert_ne by done. apply lookup_delete_eq.
        -- intros k Hk1 Hk2. rewrite lookup_insert_ne by done.
           by rewrite lookup_delete_ne.
      * rewrite map_size_insert_None
          by (by rewrite lookup_delete_ne).
        rewrite map_size_delete_Some by done. lia.
    + rewrite evictOldest_room by lia. simpl. split; [|split].
      * intros _ k Hk. by rewrite lookup_insert_ne.
      * intros [_ ?]. done.
      * rewrite map_size_insert_None by done. lia.
Qed.

End CacheRuns2.

Lemma Set_evicts_at_most_the_oldest_witness :
  entries (Set_ refreshedCache 12 "c" (VStr "third")) !! "a" = None
  ∧ entries (Set_ refreshedCache 12 "c" (VStr "third")) !! "b"
    = entries refreshedCache !! "b".
Proof.
  assert (cacheInv refreshedCache) as Hinv
    by (repeat apply Set_inv; apply newKnowsDetailCache_inv).
  destruct (Set_evicts_at_most_the_oldest refreshedCache 12 "c" (VStr "third")
              Hinv eq_refl) as (_ & Hevict & _).
  destruct Hevict as (oldest & rest & Hord & Hgone & Hothers).
  - split; vm_compute; reflexivity.
  - assert (order refreshedCache = ["a"; "b"]) as Hab by (vm_compute; reflexivity).
    rewrite Hab in Hord. injection Hord as <- <-.
    split; [exact Hgone|]. apply Hothers; discriminate.
Defined.

Lemma answerHandler_sends_only_valid_requests_witness :
  @answerHandler exampleLibrary defaultFactory refusingWorld
    (<["answer_type" := VStr " research "]> {[ "question_id" := VStr "q1" ]})
  = @postJSON exampleLibrary defaultClient refusingWorld "/knows/answer"
      (VObj (<["answer_type" := VStr "RESEARCH"]>
               {[ "question_id" := VStr "q1" ]})).
Proof.
  destruct (@answerHandler_sends_only_valid_requests exampleLibrary
              defaultFactory refusingWorld
              (<["answer_type" := VStr " research "]>
                 {[ "question_id" := VStr "q1" ]}))
    as [(questionID & answerType & raw & Hq & _ & Ha & -> & _ & Hrun)
       |[err Herr]].
  - vm_compute in Hq. injection Hq as <-.
    vm_compute in Ha. injection Ha as <-. exact Hrun.
  - vm_compute in Herr. discriminate Herr.
Defined.
